(** * WAVM: LEB128 serialization streams and the LLVM JIT image loader

    A shallow embedding of
    - [Include/Core/Serialization.h]: byte streams and the LEB128
      variable-length integer codec [serializeVarInt];
    - [Lib/LLVMJIT/LLVMJITLoad.cpp]: the section allocator of
      [ModuleMemoryManager], the address index of loaded modules and
      [getJITFunctionByAddress].

    Conventions.  Fixed-width C++ integers are values of [Z] together with an
    [IntType] (signedness and width); every conversion that can lose bits is
    written out with [cast], and shifts to the left wrap around like
    unsigned arithmetic does.  Pointers into a stream buffer are represented
    by their offset from the start of the buffer; addresses of loaded code
    are integers, and adding an offset to a pointer does not wrap. *)

From Stdlib Require Import String Ascii DecimalString.
From Stdlib Require Import ZArith List Bool Lia Sorted.
Import ListNotations.
Local Open Scope string_scope.
Local Open Scope list_scope.
Local Open Scope Z_scope.

(** ** Fixed-width integer types *)

Record IntType : Type := mkIntType { is_signed : bool; bits : Z }.

Definition uint8 : IntType := mkIntType false 8.
Definition int8 : IntType := mkIntType true 8.
Definition uint16 : IntType := mkIntType false 16.
Definition int16 : IntType := mkIntType true 16.
Definition uint32 : IntType := mkIntType false 32.
Definition int32 : IntType := mkIntType true 32.
Definition uint64 : IntType := mkIntType false 64.
Definition int64 : IntType := mkIntType true 64.

Definition wrap_unsigned (w x : Z) : Z := x mod 2 ^ w.
Definition wrap_signed (w x : Z) : Z := (x + 2 ^ (w - 1)) mod 2 ^ w - 2 ^ (w - 1).

(** Conversion of an integer to the type [T] (two's complement). *)
Definition cast (T : IntType) (x : Z) : Z :=
  if is_signed T then wrap_signed (bits T) x else wrap_unsigned (bits T) x.

Definition min_value (T : IntType) : Z :=
  if is_signed T then - 2 ^ (bits T - 1) else 0.
Definition max_value (T : IntType) : Z :=
  if is_signed T then 2 ^ (bits T - 1) - 1 else 2 ^ bits T - 1.
Definition representable (T : IntType) (x : Z) : Prop :=
  min_value T <= x <= max_value T.

(** The integer promotion: operands narrower than [int] are computed on as
    [int]. *)
Definition promote (T : IntType) : IntType :=
  if bits T <? 32 then int32 else T.

(** The width of a type is one of those of the C++ integer types. *)
Definition standard_width (T : IntType) : Prop :=
  bits T = 8 \/ bits T = 16 \/ bits T = 32 \/ bits T = 64.

Definition UINT32_MAX : Z := 4294967295.
Definition UINT64_MAX : Z := 18446744073709551615.
Definition INT32_MIN : Z := -2147483648.
Definition INT32_MAX : Z := 2147483647.
Definition INT64_MIN : Z := -9223372036854775808.
Definition INT64_MAX : Z := 9223372036854775807.

(** [std::to_string] on an integer. *)
Definition to_string (x : Z) : string := NilZero.string_of_int (Z.to_int x).

(** Replace element [i] of an array; out of range leaves it unchanged. *)
Fixpoint update (l : list Z) (i : nat) (x : Z) : list Z :=
  match l, i with
  | [], _ => []
  | _ :: t, O => x :: t
  | h :: t, S i' => h :: update t i' x
  end.

Module Serialization.

(** ** Exceptions and the stream monad *)

Record FatalSerializationException : Type :=
  mkFatalSerializationException { message : string }.

(** The result of running a piece of code against a stream: it returns, it
    throws, or the model's iteration budget is exhausted. *)
Inductive outcome (A : Type) : Type :=
| Returned (a : A)
| Thrown (e : FatalSerializationException)
| OutOfFuel.
Arguments Returned {A} a.
Arguments Thrown {A} e.
Arguments OutOfFuel {A}.

(** Code that runs against a stream of type [S]; the stream is kept when an
    exception leaves the code. *)
Definition M (S A : Type) : Type := S -> S * outcome A.

Definition ret {S A : Type} (a : A) : M S A := fun s => (s, Returned a).
Definition throw {S A : Type} (msg : string) : M S A :=
  fun s => (s, Thrown (mkFatalSerializationException msg)).
Definition bind {S A B : Type} (m : M S A) (k : A -> M S B) : M S B :=
  fun s =>
    match m s with
    | (s', Returned a) => k a s'
    | (s', Thrown e) => (s', Thrown e)
    | (s', OutOfFuel) => (s', OutOfFuel)
    end.

Definition get {S : Type} : M S S := fun s => (s, Returned s).
Definition put {S : Type} (s : S) : M S unit := fun _ => (s, Returned tt).

Notation "x <- m ;; k" := (bind m (fun x => k))
  (at level 61, m at next level, right associativity).
Notation "m ;; k" := (bind m (fun _ => k))
  (at level 61, right associativity).

(** ** ArrayOutputStream

    [bytes] is the backing vector; [next] and [end_] are the cursor and the
    end of the buffer, as offsets into [bytes].  The vector is taken to grow
    when asked: writes of sizes for which [std::vector::resize] fails, or
    for which [next + numBytes] leaves the address space, are outside this
    model. *)
Module OutputStream.

Record t : Type := mk { bytes : list Z; next : nat; end_ : nat }.

(** [OutputStream()]: both pointers null, the vector empty. *)
Definition empty : t := mk [] 0 0.

(** [std::vector::resize]: truncate, or pad with zero bytes. *)
Definition resize (v : list Z) (n : nat) : list Z :=
  firstn n v ++ repeat 0 (n - length v).

Definition extendBuffer (numBytes : nat) : M t unit :=
  s <- get ;;
  let nextIndex := next s in
  let bytes' :=
    resize (bytes s)
           (Nat.max (nextIndex + numBytes) (length (bytes s) * 7 / 5 + 32)) in
  put (mk bytes' nextIndex (length bytes')).

(** Advances the stream cursor by [numBytes], and returns the previous
    stream cursor. *)
Definition advance (numBytes : nat) : M t nat :=
  s <- get ;;
  (if (end_ s <? next s + numBytes)%nat then extendBuffer numBytes else ret tt) ;;
  s <- get ;;
  let data := next s in
  put (mk (bytes s) (next s + numBytes) (end_ s)) ;;
  ret data.

(** [*p = b] for a pointer [p] into the buffer. *)
Definition store (p : nat) (b : Z) : M t unit :=
  s <- get ;;
  put (mk (update (bytes s) p b) (next s) (end_ s)).

(** [ArrayOutputStream::getBytes]: the vector cut down to the cursor. *)
Definition getBytes (s : t) : list Z := resize (bytes s) (next s).

End OutputStream.

(** ** MemoryInputStream

    [data] is the memory range [begin, begin+numBytes) given to the
    constructor; [next] is the cursor and [end_] the end of the range, as
    offsets from [begin].  With offsets, [next + numBytes] is the sum of the
    source as long as it stays within the address space, as it does for the
    one-byte reads of the decoder and for reads of bytes that are there;
    [InputStreamPointers] below has the pointers themselves, for any
    [numBytes]. *)
Module InputStream.

Record t : Type := mk { data : list Z; next : nat; end_ : nat }.

Definition MemoryInputStream (range : list Z) : t :=
  mk range 0 (length range).

Definition capacity (s : t) : nat := end_ s - next s.

Definition getMoreData (numBytes : nat) : M t unit :=
  throw "expected data but found end of stream".

(** Advances the stream cursor by [numBytes], and returns the previous
    stream cursor. *)
Definition advance (numBytes : nat) : M t nat :=
  s <- get ;;
  (if (end_ s <? next s + numBytes)%nat then getMoreData numBytes else ret tt) ;;
  s <- get ;;
  let previous := next s in
  put (mk (data s) (next s + numBytes) (end_ s)) ;;
  ret previous.

(** Returns the current stream cursor, ensuring that there are at least
    [numBytes] following it. *)
Definition peek (numBytes : nat) : M t nat :=
  s <- get ;;
  (if (end_ s <? next s + numBytes)%nat then getMoreData numBytes else ret tt) ;;
  s <- get ;;
  ret (next s).

(** [*p] for a pointer [p] into the range. *)
Definition load (p : nat) : M t Z :=
  s <- get ;;
  ret (nth p (data s) 0).

End InputStream.

(** ** LEB128 variable-length integer serialization *)

Definition out_of_range_message (minValue value maxValue : Z) : string :=
  ("out-of-range value: " ++ to_string minValue ++ "<=" ++ to_string value
     ++ "<=" ++ to_string maxValue)%string.

(** The value given to [more] in a turn of the encoder's loop, from the
    shifted [value] and the group [outputByte] just taken from it. *)
Definition more (T : IntType) (value outputByte : Z) : bool :=
  if is_signed T
  then (negb (value =? 0) && negb (value =? cast T (-1)))
       || ((value >=? 0) && negb (Z.land outputByte 0x40 =? 0))
       || ((value <? 0) && (Z.land outputByte 0x40 =? 0))
  else negb (value =? 0).

(** The [while(more)] loop of the encoder.  [fuel] bounds the number of
    turns of the loop.  [value >>= 7] keeps a value of [T] within [T], so
    that no conversion is written for it. *)
Fixpoint serializeVarInt_loop (fuel : nat) (T : IntType) (value : Z)
  : M OutputStream.t unit :=
  match fuel with
  | O => fun s => (s, OutOfFuel)
  | S fuel' =>
    let outputByte := cast uint8 (Z.land value 127) in
    let value := Z.shiftr value 7 in
    let more := more T value outputByte in
    let outputByte := if more then Z.lor outputByte 0x80 else outputByte in
    p <- OutputStream.advance 1 ;;
    OutputStream.store p outputByte ;;
    if more then serializeVarInt_loop fuel' T value else ret tt
  end.

(** [serializeVarInt<Value,maxBits>(OutputStream&,...)] with [Value = T].
    Every turn of the loop shifts seven bits out of a [bits T]-bit value, so
    [bits T] turns are more than the loop can take. *)
Definition serializeVarInt_out (T : IntType) (maxBits : Z)
           (inValue minValue maxValue : Z) : M OutputStream.t unit :=
  let value := inValue in
  if (value <? minValue) || (value >? maxValue)
  then throw (out_of_range_message minValue value maxValue)
  else serializeVarInt_loop (Z.to_nat (bits T)) T value.

(** The first loop of the decoder: [remaining] is [maxBytes - numBytes]. *)
Fixpoint readVarIntBytes (remaining : nat) (bytes : list Z) (numBytes : nat)
         (signExtendShift : Z) : M InputStream.t (list Z * nat * Z) :=
  match remaining with
  | O => ret (bytes, numBytes, signExtendShift)
  | S remaining' =>
    p <- InputStream.advance 1 ;;
    byte <- InputStream.load p ;;
    let bytes := update bytes numBytes byte in
    let numBytes := S numBytes in
    let signExtendShift := cast int8 (signExtendShift - 7) in
    if Z.land byte 0x80 =? 0
    then ret (bytes, numBytes, signExtendShift)
    else readVarIntBytes remaining' bytes numBytes signExtendShift
  end.

(** [x << n] and [x >> n] on an operand of type [T], after promotion. *)
Definition shl (T : IntType) (x n : Z) : Z := cast (promote T) (Z.shiftl x n).
Definition shr (T : IntType) (x n : Z) : Z := cast (promote T) (Z.shiftr x n).

(** The second loop of the decoder, over [byteIndex] in [0, maxBytes). *)
Definition decodeVarIntBytes (T : IntType) (maxBytes : nat) (bytes : list Z) : Z :=
  fold_left
    (fun value byteIndex =>
       cast T (Z.lor value
                     (shl T (cast T (Z.land (nth byteIndex bytes 0) (Z.lnot 0x80)))
                          (Z.of_nat byteIndex * 7))))
    (seq 0 maxBytes) 0.

(** Sign extend the output integer to the full size of [T]. *)
Definition signExtend (T : IntType) (value signExtendShift : Z) : Z :=
  if is_signed T && (signExtendShift >? 0)
  then cast T (shr T (shl T value signExtendShift) signExtendShift)
  else value.

Definition maxBytes_of (maxBits : Z) : Z := (maxBits + 6) / 7.
Definition numUsedBitsInHighestByte (maxBits : Z) : Z :=
  maxBits - (maxBytes_of maxBits - 1) * 7.
Definition highestByteUsedBitmask (maxBits : Z) : Z :=
  cast uint8 (Z.shiftl 1 (numUsedBitsInHighestByte maxBits)) - 1.
Definition highestByteSignedBitmask (maxBits : Z) : Z :=
  Z.land (Z.lnot (cast uint8 (highestByteUsedBitmask maxBits)))
         (Z.lnot (cast uint8 0x80)).

(** The test guarding the throw of "invalid final byte". *)
Definition invalidFinalByte (T : IntType) (maxBits : Z) (bytes : list Z) : bool :=
  let last := nth (Z.to_nat (maxBytes_of maxBits - 1)) bytes 0 in
  negb (Z.land last (Z.lnot (highestByteUsedBitmask maxBits)) =? 0)
  && (negb (Z.land last (Z.lnot (highestByteUsedBitmask maxBits))
            =? cast uint8 (highestByteSignedBitmask maxBits))
      || negb (is_signed T)).

(** [serializeVarInt<Value,maxBits>(InputStream&,...)] with [Value = T]. *)
Definition serializeVarInt_in (T : IntType) (maxBits : Z)
           (minValue maxValue : Z) : M InputStream.t Z :=
  let maxBytes := Z.to_nat (maxBytes_of maxBits) in
  r <- readVarIntBytes maxBytes (repeat 0 maxBytes) 0%nat
                       (cast int8 (cast int8 (bits T / 8) * 8)) ;;
  let '(bytes, numBytes, signExtendShift) := r in
  if invalidFinalByte T maxBits bytes
  then throw "Invalid LEB encoding: invalid final byte"
  else
    let value := decodeVarIntBytes T maxBytes bytes in
    let value := signExtend T value signExtendShift in
    if (value <? minValue) || (value >? maxValue)
    then throw (out_of_range_message minValue value maxValue)
    else ret value.

(** ** Helpers for the common LEB128 parameters *)

Inductive Helper : Type :=
| VarUInt1 | VarUInt7 | VarUInt32 | VarUInt64 | VarInt32 | VarInt64.

Definition helper_maxBits (h : Helper) : Z :=
  match h with
  | VarUInt1 => 1 | VarUInt7 => 7
  | VarUInt32 | VarInt32 => 32
  | VarUInt64 | VarInt64 => 64
  end.

Definition helper_signed (h : Helper) : bool :=
  match h with VarInt32 | VarInt64 => true | _ => false end.

(** The bounds as written at the call of [serializeVarInt]. *)
Definition helper_minValue (h : Helper) : Z :=
  match h with
  | VarInt32 => INT32_MIN | VarInt64 => INT64_MIN | _ => 0
  end.
Definition helper_maxValue (h : Helper) : Z :=
  match h with
  | VarUInt1 => 1 | VarUInt7 => 127
  | VarUInt32 => UINT32_MAX | VarUInt64 => UINT64_MAX
  | VarInt32 => INT32_MAX | VarInt64 => INT64_MAX
  end.

(** A helper instantiated at [Value = T]: the bounds are converted to [T]
    when they are passed. *)
Definition serializeHelper_out (h : Helper) (T : IntType) (value : Z)
  : M OutputStream.t unit :=
  serializeVarInt_out T (helper_maxBits h) value
                      (cast T (helper_minValue h)) (cast T (helper_maxValue h)).
Definition serializeHelper_in (h : Helper) (T : IntType) : M InputStream.t Z :=
  serializeVarInt_in T (helper_maxBits h)
                     (cast T (helper_minValue h)) (cast T (helper_maxValue h)).

Definition serializeVarUInt1_out := serializeHelper_out VarUInt1.
Definition serializeVarUInt7_out := serializeHelper_out VarUInt7.
Definition serializeVarUInt32_out := serializeHelper_out VarUInt32.
Definition serializeVarUInt64_out := serializeHelper_out VarUInt64.
Definition serializeVarInt32_out := serializeHelper_out VarInt32.
Definition serializeVarInt64_out := serializeHelper_out VarInt64.
Definition serializeVarUInt1_in := serializeHelper_in VarUInt1.
Definition serializeVarUInt7_in := serializeHelper_in VarUInt7.
Definition serializeVarUInt32_in := serializeHelper_in VarUInt32.
Definition serializeVarUInt64_in := serializeHelper_in VarUInt64.
Definition serializeVarInt32_in := serializeHelper_in VarInt32.
Definition serializeVarInt64_in := serializeHelper_in VarInt64.

(** Encode into a fresh [ArrayOutputStream] and take its bytes. *)
Definition encode (h : Helper) (T : IntType) (value : Z) : outcome (list Z) :=
  match serializeHelper_out h T value OutputStream.empty with
  | (s, Returned _) => Returned (OutputStream.getBytes s)
  | (_, Thrown e) => Thrown e
  | (_, OutOfFuel) => OutOfFuel
  end.

(** Decode from a [MemoryInputStream] over [range]. *)
Definition decode (h : Helper) (T : IntType) (range : list Z)
  : InputStream.t * outcome Z :=
  serializeHelper_in h T (InputStream.MemoryInputStream range).

End Serialization.


Module LLVMJIT.

(** ** The platform

    What [LLVMJITLoad.cpp] takes from headers that are not part of the
    sources at hand: the width of [Uptr], [Platform::getPageSizeLog2()], the
    macro [USE_WINDOWS_SEH], whether [wavmAssert] is compiled in, and the
    answers of [Platform::allocateVirtualPages] (0 is [nullptr]) and
    [Platform::commitVirtualPages]. *)
Record Platform : Type := mkPlatform {
  uptrBits : Z;
  getPageSizeLog2 : Z;
  USE_WINDOWS_SEH : bool;
  WAVM_ENABLE_ASSERTS : bool;
  allocateVirtualPages : Z -> Z;
  commitVirtualPages : Z -> Z -> bool
}.

Definition Uptr (P : Platform) : IntType := mkIntType false (uptrBits P).

(** The outcome of code that can end the process. *)
Inductive result (A : Type) : Type :=
| Ok (a : A)
| Fatal (msg : string)
| AssertionFailed.
Arguments Ok {A} a.
Arguments Fatal {A} msg.
Arguments AssertionFailed {A}.

Definition wavmAssert {A : Type} (P : Platform) (condition : bool)
           (k : result A) : result A :=
  if WAVM_ENABLE_ASSERTS P && negb condition then AssertionFailed else k.

(** ** ModuleMemoryManager *)

Record Section_ : Type := mkSection {
  baseAddress : Z;
  numPages : Z;
  numCommittedBytes : Z
}.

Inductive PlatformCall : Type :=
| AllocateVirtualPages (numPages : Z)
| CommitVirtualPages (baseVirtualAddress numPages : Z).

(** [platformCalls] records the calls made to the platform, oldest first. *)
Record ModuleMemoryManager : Type := mkModuleMemoryManager {
  imageBaseAddress : Z;
  numAllocatedImagePages : Z;
  isFinalized : bool;
  codeSection : Section_;
  readOnlySection : Section_;
  readWriteSection : Section_;
  platformCalls : list PlatformCall
}.

(** The constructor leaves [numAllocatedImagePages] uninitialized;
    [indeterminate] stands for what it holds. *)
Definition newModuleMemoryManager (indeterminate : Z) : ModuleMemoryManager :=
  mkModuleMemoryManager 0 indeterminate false
                        (mkSection 0 0 0) (mkSection 0 0 0) (mkSection 0 0 0) [].

Definition align (P : Platform) (size alignment : Z) : Z :=
  Z.land (cast (Uptr P) (size + alignment - 1))
         (cast (Uptr P) (Z.lnot (cast (Uptr P) (alignment - 1)))).

Definition shrAndRoundUp (P : Platform) (value shift : Z) : Z :=
  Z.shiftr (cast (Uptr P) (value + cast (Uptr P) (Z.shiftl 1 shift) - 1)) shift.

Definition reserveAllocationSpace (P : Platform)
           (numCodeBytes codeAlignment numReadOnlyBytes readOnlyAlignment
                         numReadWriteBytes readWriteAlignment : Z)
           (mm : ModuleMemoryManager) : result ModuleMemoryManager :=
  let numCodeBytes :=
    if USE_WINDOWS_SEH P then cast (Uptr P) (numCodeBytes + 32) else numCodeBytes in
  let codePages := shrAndRoundUp P numCodeBytes (getPageSizeLog2 P) in
  let readOnlyPages := shrAndRoundUp P numReadOnlyBytes (getPageSizeLog2 P) in
  let readWritePages := shrAndRoundUp P numReadWriteBytes (getPageSizeLog2 P) in
  let numAllocatedImagePages :=
    cast (Uptr P) (codePages + readOnlyPages + readWritePages) in
  let code := mkSection (baseAddress (codeSection mm)) codePages
                        (numCommittedBytes (codeSection mm)) in
  let readOnly := mkSection (baseAddress (readOnlySection mm)) readOnlyPages
                            (numCommittedBytes (readOnlySection mm)) in
  let readWrite := mkSection (baseAddress (readWriteSection mm)) readWritePages
                             (numCommittedBytes (readWriteSection mm)) in
  if negb (numAllocatedImagePages =? 0)
  then
    let imageBaseAddress := allocateVirtualPages P numAllocatedImagePages in
    let calls := platformCalls mm ++ [AllocateVirtualPages numAllocatedImagePages] in
    if imageBaseAddress =? 0
    then Fatal "memory allocation for JIT code failed"
    else
      let calls :=
        calls ++ [CommitVirtualPages imageBaseAddress numAllocatedImagePages] in
      if negb (commitVirtualPages P imageBaseAddress numAllocatedImagePages)
      then Fatal "memory allocation for JIT code failed"
      else
        let codeBase := imageBaseAddress in
        let readOnlyBase :=
          codeBase + cast (Uptr P) (Z.shiftl codePages (getPageSizeLog2 P)) in
        let readWriteBase :=
          readOnlyBase
          + cast (Uptr P) (Z.shiftl readOnlyPages (getPageSizeLog2 P)) in
        Ok (mkModuleMemoryManager
              imageBaseAddress numAllocatedImagePages (isFinalized mm)
              (mkSection codeBase codePages (numCommittedBytes code))
              (mkSection readOnlyBase readOnlyPages (numCommittedBytes readOnly))
              (mkSection readWriteBase readWritePages (numCommittedBytes readWrite))
              calls)
  else
    Ok (mkModuleMemoryManager
          (imageBaseAddress mm) numAllocatedImagePages (isFinalized mm)
          code readOnly readWrite (platformCalls mm)).

(** [allocateBytes] on the section [section] of a manager whose
    [isFinalized] flag is [finalized]; returns the pointer and the section
    as the call leaves it. *)
Definition allocateBytes (P : Platform) (numBytes alignment : Z)
           (finalized : bool) (section : Section_) : result (Z * Section_) :=
  wavmAssert P (negb (baseAddress section =? 0))
  (wavmAssert P (Z.land alignment (cast (Uptr P) (alignment - 1)) =? 0)
  (wavmAssert P (negb finalized)
  (let allocationBaseAddress :=
     baseAddress section + align P (numCommittedBytes section) alignment in
   wavmAssert P (Z.land (cast (Uptr P) allocationBaseAddress)
                        (cast (Uptr P) (alignment - 1)) =? 0)
   (let numCommittedBytes' :=
      cast (Uptr P) (align P (numCommittedBytes section) alignment
                     + align P numBytes alignment) in
    if numCommittedBytes'
         >? cast (Uptr P) (Z.shiftl (numPages section) (getPageSizeLog2 P))
    then Fatal "didn't reserve enough space in section"
    else Ok (allocationBaseAddress,
             mkSection (baseAddress section) (numPages section)
                       numCommittedBytes'))))).

Definition with_section {A : Type}
           (r : result (A * Section_)) (k : Section_ -> ModuleMemoryManager)
  : result (A * ModuleMemoryManager) :=
  match r with
  | Ok (a, section) => Ok (a, k section)
  | Fatal msg => Fatal msg
  | AssertionFailed => AssertionFailed
  end.

Definition allocateCodeSection (P : Platform) (numBytes alignment : Z)
           (mm : ModuleMemoryManager) : result (Z * ModuleMemoryManager) :=
  with_section
    (allocateBytes P (cast (Uptr P) numBytes) alignment (isFinalized mm)
                   (codeSection mm))
    (fun section =>
       mkModuleMemoryManager
         (imageBaseAddress mm) (numAllocatedImagePages mm) (isFinalized mm)
         section (readOnlySection mm) (readWriteSection mm) (platformCalls mm)).

Definition allocateDataSection (P : Platform) (numBytes alignment : Z)
           (isReadOnly : bool) (mm : ModuleMemoryManager)
  : result (Z * ModuleMemoryManager) :=
  if isReadOnly
  then
    with_section
      (allocateBytes P (cast (Uptr P) numBytes) alignment (isFinalized mm)
                     (readOnlySection mm))
      (fun section =>
         mkModuleMemoryManager
           (imageBaseAddress mm) (numAllocatedImagePages mm) (isFinalized mm)
           (codeSection mm) section (readWriteSection mm) (platformCalls mm))
  else
    with_section
      (allocateBytes P (cast (Uptr P) numBytes) alignment (isFinalized mm)
                     (readWriteSection mm))
      (fun section =>
         mkModuleMemoryManager
           (imageBaseAddress mm) (numAllocatedImagePages mm) (isFinalized mm)
           (codeSection mm) (readOnlySection mm) section (platformCalls mm)).

Definition getImageBaseAddress (mm : ModuleMemoryManager) : Z :=
  imageBaseAddress mm.
Definition getNumImageBytes (P : Platform) (mm : ModuleMemoryManager) : Z :=
  cast (Uptr P) (Z.shiftl (numAllocatedImagePages mm) (getPageSizeLog2 P)).

(** ** [std::map<Uptr, V>]: the entries in the order of their keys *)

Definition map_ (V : Type) : Type := list (Z * V).

Fixpoint emplace {V : Type} (key : Z) (value : V) (m : map_ V) : map_ V :=
  match m with
  | [] => [(key, value)]
  | (k, v) :: rest =>
    if key <? k then (key, value) :: m
    else if key =? k then m
    else (k, v) :: emplace key value rest
  end.

(** [m.erase(m.find(key))]. *)
Fixpoint erase {V : Type} (key : Z) (m : map_ V) : map_ V :=
  match m with
  | [] => []
  | (k, v) :: rest => if key =? k then rest else (k, v) :: erase key rest
  end.

(** [m.upper_bound(key)]: the first entry whose key is greater than [key];
    [None] is [m.end()]. *)
Definition upper_bound {V : Type} (key : Z) (m : map_ V) : option (Z * V) :=
  find (fun entry => key <? fst entry) m.

(** ** Loaded modules and the index of their addresses *)

Module JITFunction.
Record t : Type := mk {
  baseAddress : Z;
  numBytes : Z;
  offsetToOpIndexMap : map_ Z
}.
End JITFunction.

Record LoadedModule : Type := mkLoadedModule {
  memoryManager : ModuleMemoryManager;
  functions : list JITFunction.t;
  addressToFunctionMap : map_ JITFunction.t
}.

(** What happens to the process-wide [addressToModuleMap] and its mutex. *)
Inductive Event : Type :=
| LockMutex
| UnlockMutex
| MapEmplace (key : Z)
| MapErase (key : Z)
| MapUpperBound (key : Z).

(** The process-wide state: the map and the events so far, oldest first. *)
Record Global : Type := mkGlobal {
  addressToModuleMap : map_ LoadedModule;
  events : list Event
}.

Definition emit (g : Global) (e : Event) : list Event := events g ++ [e].

(** The body of the loop over the function symbols in the constructor of
    [LoadedModule], for a symbol loaded at [loadedAddress] with size
    [size]; the map from names to functions is left out. *)
Definition registerFunction (P : Platform) (loadedAddress size : Z)
           (offsetToOpIndexMap : map_ Z) (m : LoadedModule) : LoadedModule :=
  let jitFunction := JITFunction.mk loadedAddress (cast (Uptr P) size)
                                    offsetToOpIndexMap in
  mkLoadedModule
    (memoryManager m)
    (functions m ++ [jitFunction])
    (emplace (cast (Uptr P) (JITFunction.baseAddress jitFunction
                             + JITFunction.numBytes jitFunction))
             jitFunction (addressToFunctionMap m)).

(** The key of a module in [addressToModuleMap]. *)
Definition imageEnd (P : Platform) (m : LoadedModule) : Z :=
  cast (Uptr P) (getImageBaseAddress (memoryManager m)
                 + getNumImageBytes P (memoryManager m)).

(** The end of the constructor of [LoadedModule]:
    [addressToModuleMap.emplace(...)]. *)
Definition publishModule (P : Platform) (m : LoadedModule) (g : Global) : Global :=
  mkGlobal (emplace (imageEnd P m) m (addressToModuleMap g))
           (emit g (MapEmplace (imageEnd P m))).

(** The destructor of [LoadedModule], as far as it touches the map. *)
Definition destroyModule (P : Platform) (m : LoadedModule) (g : Global) : Global :=
  let g := mkGlobal (addressToModuleMap g) (emit g LockMutex) in
  let g := mkGlobal (erase (imageEnd P m) (addressToModuleMap g))
                    (emit g (MapErase (imageEnd P m))) in
  mkGlobal (addressToModuleMap g) (emit g UnlockMutex).

Definition getJITFunctionByAddress (P : Platform) (address : Z) (g : Global)
  : Global * option JITFunction.t :=
  let g := mkGlobal (addressToModuleMap g) (emit g LockMutex) in
  let moduleIt := upper_bound address (addressToModuleMap g) in
  let g := mkGlobal (addressToModuleMap g) (emit g (MapUpperBound address)) in
  let g := mkGlobal (addressToModuleMap g) (emit g UnlockMutex) in
  match moduleIt with
  | None => (g, None)
  | Some (_, jitModule) =>
    match upper_bound address (addressToFunctionMap jitModule) with
    | None => (g, None)
    | Some (_, function) =>
      if (address >=? JITFunction.baseAddress function)
         && (address <? cast (Uptr P) (JITFunction.baseAddress function
                                       + JITFunction.numBytes function))
      then (g, Some function)
      else (g, None)
    end
  end.

End LLVMJIT.

(** ** Vocabulary for the LEB128 codec *)

(** [v] can be written with [k] groups of seven bits. *)
Definition fits (sg : bool) (k : nat) (v : Z) : Prop :=
  if sg then - 128 ^ Z.of_nat k <= 2 * v < 128 ^ Z.of_nat k
  else 0 <= v < 128 ^ Z.of_nat k.

(** The number spelled by the low seven bits of each byte, little-endian. *)
Fixpoint leb_value (bs : list Z) : Z :=
  match bs with
  | [] => 0
  | b :: rest => b mod 128 + 128 * leb_value rest
  end.

(** Every byte but the last has the continuation bit, the last has not. *)
Fixpoint continued (bs : list Z) : Prop :=
  match bs with
  | [] => False
  | [b] => Z.land b 0x80 = 0
  | b :: rest => Z.land b 0x80 <> 0 /\ continued rest
  end.

Definition is_byte (b : Z) : Prop := 0 <= b < 256.

(** The range of a [maxBits]-bit integer of the given signedness. *)
Definition in_bit_range (sg : bool) (maxBits : Z) (v : Z) : Prop :=
  if sg then - 2 ^ (maxBits - 1) <= v < 2 ^ (maxBits - 1)
  else 0 <= v < 2 ^ maxBits.

Module OutputStreamInv.
(** The invariant of an [ArrayOutputStream] between calls. *)
Definition wf (s : Serialization.OutputStream.t) : Prop :=
  (Serialization.OutputStream.next s <= Serialization.OutputStream.end_ s)%nat
  /\ Serialization.OutputStream.end_ s
     = length (Serialization.OutputStream.bytes s).
End OutputStreamInv.


(** The bytes the decoder's first loop takes from the input [input] when it
    may still read [remaining] bytes; [None] when the input ends first. *)
Fixpoint taken (remaining : nat) (input : list Z) : option (list Z) :=
  match remaining with
  | O => Some []
  | S remaining' =>
    match input with
    | [] => None
    | b :: rest =>
      if Z.land b 0x80 =? 0 then Some [b]
      else option_map (cons b) (taken remaining' rest)
    end
  end.

Module InputStreamInv.
(** A [MemoryInputStream] whose cursor stands before [input], with
    [consumed] behind it. *)
Definition at_ (consumed input : list Z) : Serialization.InputStream.t :=
  Serialization.InputStream.mk (consumed ++ input) (length consumed)
                               (length (consumed ++ input)).
End InputStreamInv.


(** A helper is used at a type [T] of its own signedness that is wide
    enough for its [maxBits]. *)
Definition compatible (h : Serialization.Helper) (T : IntType) : Prop :=
  standard_width T
  /\ is_signed T = Serialization.helper_signed h
  /\ Serialization.helper_maxBits h <= bits T.

(** [sub] occurs in [s]. *)
Definition contains (s sub : string) : Prop :=
  exists pre post : string, s = (pre ++ sub ++ post)%string.

(** The unused high bits of the byte [last] at position [maxBytes] are wrong
    for the type [T]: the continuation bit is set, or one of the bits
    [numUsedBitsInHighestByte .. 6] is set and, for a signed type, one of
    them is clear. *)
Definition bad_final_byte (T : IntType) (maxBits : Z) (last : Z) : Prop :=
  Z.testbit last 7 = true
  \/ ((exists i, Serialization.numUsedBitsInHighestByte maxBits <= i < 7
                 /\ Z.testbit last i = true)
      /\ (is_signed T = true ->
          exists j, Serialization.numUsedBitsInHighestByte maxBits <= j < 7
                    /\ Z.testbit last j = false)).


(** ** Vocabulary for the image loader *)

Module LoaderSpec.
Import LLVMJIT.

(** [Uptr] has at least one bit and the page size is a [Uptr]. *)
Definition platform_ok (P : Platform) : Prop :=
  0 < uptrBits P /\ 0 <= getPageSizeLog2 P < uptrBits P.

Definition pageSize (P : Platform) : Z := 2 ^ getPageSizeLog2 P.

(** [x / a], rounded up. *)
Definition ceil_div (x a : Z) : Z := (x + a - 1) / a.

(** [x] rounded up to a multiple of [a]. *)
Definition round_up (x a : Z) : Z := a * ceil_div x a.

(** A 64-bit platform with 4 KiB pages and a given way of answering the
    memory calls. *)
Definition platform64 (seh asserts : bool) (allocate : Z -> Z)
           (commit : Z -> Z -> bool) : Platform :=
  mkPlatform 64 12 seh asserts allocate commit.

(** The mutex is held whenever the map is touched; [held] tells whether it
    is held at the start of the events. *)
Fixpoint guarded (held : bool) (trace : list Event) : bool :=
  match trace with
  | [] => true
  | LockMutex :: rest => guarded true rest
  | UnlockMutex :: rest => guarded false rest
  | (MapEmplace _ | MapErase _ | MapUpperBound _) :: rest =>
    held && guarded held rest
  end.

(** The invariant of a [std::map]: the keys grow strictly. *)
Definition sorted_keys {V : Type} (m : map_ V) : Prop :=
  StronglySorted Z.lt (map fst m).

(** [entry] is the first entry of [m] whose key is greater than [a]. *)
Definition first_above {V : Type} (a : Z) (entry : Z * V) (m : map_ V) : Prop :=
  In entry m /\ a < fst entry
  /\ forall k v, In (k, v) m -> a < k -> fst entry <= k.

(** [a] is one of the bytes of [f]. *)
Definition covers (f : JITFunction.t) (a : Z) : bool :=
  (JITFunction.baseAddress f <=? a)
  && (a <? JITFunction.baseAddress f + JITFunction.numBytes f).

(** [f] is a function of the module [m], which is in the index. *)
Definition loaded (g : Global) (m : LoadedModule) (f : JITFunction.t) : Prop :=
  exists e k, In (e, m) (addressToModuleMap g)
              /\ In (k, f) (addressToFunctionMap m).

(** The fields of [f] are values of [Uptr]. *)
Definition typed (P : Platform) (f : JITFunction.t) : Prop :=
  0 <= JITFunction.baseAddress f < 2 ^ uptrBits P
  /\ 0 <= JITFunction.numBytes f < 2 ^ uptrBits P.

(** The two maps as the loader keeps them: ordered, and each function under
    the key of its end. *)
Record keyed (P : Platform) (g : Global) : Prop := {
  index_sorted : sorted_keys (addressToModuleMap g);
  functions_sorted :
    forall e m, In (e, m) (addressToModuleMap g) ->
                sorted_keys (addressToFunctionMap m);
  functions_keyed :
    forall e m k f,
      In (e, m) (addressToModuleMap g) -> In (k, f) (addressToFunctionMap m) ->
      typed P f
      /\ k = cast (Uptr P) (JITFunction.baseAddress f + JITFunction.numBytes f)
}.

(** The layout of loaded code: a module is under the key of the end of its
    image, its functions lie inside its image and do not overlap, and the
    images of different modules do not overlap. *)
Record laid_out (P : Platform) (g : Global) : Prop := {
  modules_keyed :
    forall e m, In (e, m) (addressToModuleMap g) ->
                e = imageEnd P m /\ imageBaseAddress (memoryManager m) <= e;
  functions_inside :
    forall e m k f,
      In (e, m) (addressToModuleMap g) -> In (k, f) (addressToFunctionMap m) ->
      imageBaseAddress (memoryManager m) <= JITFunction.baseAddress f
      /\ JITFunction.baseAddress f + JITFunction.numBytes f <= e;
  functions_apart :
    forall e m k1 f1 k2 f2,
      In (e, m) (addressToModuleMap g) ->
      In (k1, f1) (addressToFunctionMap m) ->
      In (k2, f2) (addressToFunctionMap m) ->
      k1 <> k2 ->
      JITFunction.baseAddress f1 + JITFunction.numBytes f1
      <= JITFunction.baseAddress f2
      \/ JITFunction.baseAddress f2 + JITFunction.numBytes f2
         <= JITFunction.baseAddress f1;
  images_apart :
    forall e1 m1 e2 m2,
      In (e1, m1) (addressToModuleMap g) -> In (e2, m2) (addressToModuleMap g) ->
      e1 <> e2 ->
      e1 <= imageBaseAddress (memoryManager m2)
      \/ e2 <= imageBaseAddress (memoryManager m1)
}.

End LoaderSpec.


(** ** A loaded module with one function of 100 bytes *)

Module Example.
Import LLVMJIT LoaderSpec.

Definition P0 : Platform :=
  platform64 false true (fun _ => 65536) (fun _ _ => true).

(** The manager after reserving one page at 65536 and finalizing. *)
Definition mm0 : ModuleMemoryManager :=
  mkModuleMemoryManager 65536 1 true
                        (mkSection 65536 1 112) (mkSection 69632 0 0)
                        (mkSection 69632 0 0)
                        [AllocateVirtualPages 1; CommitVirtualPages 65536 1].

Definition f0 : JITFunction.t := JITFunction.mk 65536 100 [].

Definition m0 : LoadedModule :=
  registerFunction P0 65536 100 [] (mkLoadedModule mm0 [] []).

Definition g0 : Global := publishModule P0 m0 (mkGlobal [] []).

End Example.

(** ** The pointers of a MemoryInputStream

    [Serialization.InputStream] keeps the cursor and the end of the range as
    offsets from its beginning, which is what the source computes as long as
    [next + numBytes] stays within the address space (the decoder reads one
    byte at a time).  Here the two pointers are addresses of [ptrBits] bits,
    and [next + numBytes] is computed as the machine computes it, modulo
    2^ptrBits, for any [numBytes] of type [size_t]. *)
Module InputStreamPointers.
Import Serialization.

Record t : Type := mk { next : Z; end_ : Z }.

(** A pointer plus a [size_t]. *)
Definition ptr_add (ptrBits : Z) (p n : Z) : Z := (p + n) mod 2 ^ ptrBits.

(** [MemoryInputStream(begin,numBytes)]. *)
Definition MemoryInputStream (ptrBits : Z) (begin numBytes : Z) : t :=
  mk begin (ptr_add ptrBits begin numBytes).

Definition getMoreData (numBytes : Z) : M t unit :=
  throw "expected data but found end of stream".

(** Advances the stream cursor by [numBytes], and returns the previous
    stream cursor. *)
Definition advance (ptrBits : Z) (numBytes : Z) : M t Z :=
  s <- get ;;
  (if ptr_add ptrBits (next s) numBytes >? end_ s
   then getMoreData numBytes else ret tt) ;;
  s <- get ;;
  let data := next s in
  put (mk (ptr_add ptrBits (next s) numBytes) (end_ s)) ;;
  ret data.

(** Returns the current stream cursor, ensuring that there are at least
    [numBytes] following it. *)
Definition peek (ptrBits : Z) (numBytes : Z) : M t Z :=
  s <- get ;;
  (if ptr_add ptrBits (next s) numBytes >? end_ s
   then getMoreData numBytes else ret tt) ;;
  s <- get ;;
  ret (next s).

(** The pointers of a stream kept as offsets, when its range is at
    [begin]; and the pointer that an offset stands for. *)
Definition pointers (begin : Z) (s : InputStream.t) : t :=
  mk (begin + Z.of_nat (InputStream.next s))
     (begin + Z.of_nat (InputStream.end_ s)).

Definition pointer_outcome (begin : Z) (o : outcome nat) : outcome Z :=
  match o with
  | Returned p => Returned (begin + Z.of_nat p)
  | Thrown e => Thrown e
  | OutOfFuel => OutOfFuel
  end.

End InputStreamPointers.

(** ** Raw bytes, native values, constants and containers *)

Module SerializationContainers.
Import Serialization.

(** [memcpy(p, src, n)] into the buffer of an output stream. *)
Fixpoint memcpy_to (p : nat) (src : list Z) : M OutputStream.t unit :=
  match src with
  | [] => ret tt
  | b :: rest => OutputStream.store p b ;; memcpy_to (S p) rest
  end.

(** [serializeBytes(OutputStream&,bytes,numBytes)]; [bytes] is the memory
    [bytes, bytes+numBytes). *)
Definition serializeBytes_out (bytes : list Z) : M OutputStream.t unit :=
  p <- OutputStream.advance (length bytes) ;;
  memcpy_to p bytes.

(** [serializeBytes(InputStream&,bytes,numBytes)]; returns what [memcpy]
    leaves in [bytes]. *)
Definition serializeBytes_in (numBytes : nat) : M InputStream.t (list Z) :=
  p <- InputStream.advance numBytes ;;
  s <- get ;;
  ret (firstn numBytes (skipn p (InputStream.data s))).

(** [serialize(Stream&,uint8&)], that is [serializeNativeValue] at a type of
    one byte. *)
Definition serialize_uint8_out (i : Z) : M OutputStream.t unit :=
  serializeBytes_out [i].
Definition serialize_uint8_in : M InputStream.t Z :=
  bytes <- serializeBytes_in 1 ;;
  ret (nth 0 bytes 0).

(** [serializeConstant] at [Constant = uint8]. *)
Definition constant_mismatch (constantMismatchMessage : string)
           (savedConstant constant : Z) : string :=
  (constantMismatchMessage ++ ": loaded " ++ to_string savedConstant
     ++ " but was expecting " ++ to_string constant)%string.

Definition serializeConstant_in (constantMismatchMessage : string)
           (constant : Z) : M InputStream.t unit :=
  savedConstant <- serialize_uint8_in ;;
  if negb (savedConstant =? constant)
  then throw (constant_mismatch constantMismatchMessage savedConstant constant)
  else ret tt.

Definition serializeConstant_out (constantMismatchMessage : string)
           (constant : Z) : M OutputStream.t unit :=
  serialize_uint8_out constant.

(** [serialize(Stream&,std::string&)]; [size_t_] is the type [size_t], the
    string is the list of its characters.  On input the string is resized to
    the length read and then overwritten in full, so that what it held does
    not matter; [resize] and [shrink_to_fit] are taken to succeed (their
    [std::length_error] and [std::bad_alloc] are outside this model). *)
Definition serializeString_out (size_t_ : IntType) (string_ : list Z)
  : M OutputStream.t unit :=
  let size := Z.of_nat (length string_) in
  serializeVarUInt32_out size_t_ size ;;
  serializeBytes_out string_.

Definition serializeString_in (size_t_ : IntType) : M InputStream.t (list Z) :=
  size <- serializeVarUInt32_in size_t_ ;;
  serializeBytes_in (Z.to_nat size).

(** [std::vector::resize] with a default element. *)
Definition resizeVector {A : Type} (v : list A) (n : nat) (default : A) : list A :=
  firstn n v ++ repeat default (n - length v).

(** The loop of [serializeArray] over the elements of the vector. *)
Fixpoint serializeElements_out {A : Type}
         (serializeElement : A -> M OutputStream.t unit) (vector : list A)
  : M OutputStream.t unit :=
  match vector with
  | [] => ret tt
  | element :: rest =>
    serializeElement element ;; serializeElements_out serializeElement rest
  end.

Fixpoint serializeElements_in {A : Type}
         (serializeElement : A -> M InputStream.t A) (vector : list A)
  : M InputStream.t (list A) :=
  match vector with
  | [] => ret []
  | element :: rest =>
    element' <- serializeElement element ;;
    rest' <- serializeElements_in serializeElement rest ;;
    ret (element' :: rest')
  end.

(** [serializeArray]; on input [serializeElement] is given the element as
    [resize] left it and returns what it stores there. *)
Definition serializeArray_out {A : Type} (size_t_ : IntType)
           (serializeElement : A -> M OutputStream.t unit) (vector : list A)
  : M OutputStream.t unit :=
  let size := Z.of_nat (length vector) in
  serializeVarUInt32_out size_t_ size ;;
  serializeElements_out serializeElement vector.

Definition serializeArray_in {A : Type} (size_t_ : IntType) (default : A)
           (serializeElement : A -> M InputStream.t A) (vector : list A)
  : M InputStream.t (list A) :=
  size <- serializeVarUInt32_in size_t_ ;;
  serializeElements_in serializeElement
                       (resizeVector vector (Z.to_nat size) default).

End SerializationContainers.

(** ** The rest of the life of a ModuleMemoryManager *)

Module MemoryManagerLifecycle.
Import LLVMJIT.

(** The values of [Platform::MemoryAccess] that the loader asks for. *)
Inductive MemoryAccess : Type := readOnly | readWrite | execute.

(** The calls to the platform besides those of [reserveAllocationSpace]. *)
Inductive LifecycleCall : Type :=
| SetVirtualPageAccess (baseVirtualAddress numPages : Z) (access : MemoryAccess)
| RegisterEHFrames (imageBase ehFrames numBytes : Z)
| DeregisterEHFrames (imageBase ehFrames numBytes : Z)
| DecommitVirtualPages (baseVirtualAddress numPages : Z).

(** The fields of the manager that the code above does not touch. *)
Record EHFrames : Type := mkEHFrames {
  hasRegisteredEHFrames : bool;
  ehFramesAddr : Z;
  ehFramesNumBytes : Z
}.

(** A manager, its exception-frame fields and the calls made so far. *)
Record Manager : Type := mkManager {
  memory : ModuleMemoryManager;
  frames : EHFrames;
  calls : list LifecycleCall
}.

(** The constructor; the two frame fields it leaves uninitialized are
    given. *)
Definition newManager (indeterminatePages indeterminateAddr indeterminateNumBytes : Z)
  : Manager :=
  mkManager (newModuleMemoryManager indeterminatePages)
            (mkEHFrames false indeterminateAddr indeterminateNumBytes) [].

Definition registerEHFrames (P : Platform) (addr loadAddr numBytes : Z)
           (m : Manager) : Manager :=
  if negb (USE_WINDOWS_SEH P)
  then mkManager (memory m)
                 (mkEHFrames true addr numBytes)
                 (calls m ++ [RegisterEHFrames (imageBaseAddress (memory m))
                                               addr numBytes])
  else m.

Definition deregisterEHFrames (m : Manager) : Manager :=
  if hasRegisteredEHFrames (frames m)
  then mkManager (memory m)
                 (mkEHFrames false (ehFramesAddr (frames m))
                             (ehFramesNumBytes (frames m)))
                 (calls m ++ [DeregisterEHFrames (imageBaseAddress (memory m))
                                                 (ehFramesAddr (frames m))
                                                 (ehFramesNumBytes (frames m))])
  else m.

(** The destructor. *)
Definition destroyManager (m : Manager) : Manager :=
  let m := deregisterEHFrames m in
  mkManager (memory m) (frames m)
            (calls m ++ [DecommitVirtualPages
                           (imageBaseAddress (memory m))
                           (numAllocatedImagePages (memory m))]).

(** [errorUnless(Platform::setVirtualPageAccess(...))] on a section that has
    pages; [setVirtualPageAccess] gives the answers of the platform and
    [errorUnlessMessage] is what [errorUnless] reports. *)
Definition setSectionAccess (setVirtualPageAccess : Z -> Z -> MemoryAccess -> bool)
           (errorUnlessMessage : string) (section : Section_)
           (access : MemoryAccess) (log : list LifecycleCall)
           (k : list LifecycleCall -> result Manager) : result Manager :=
  if negb (numPages section =? 0)
  then
    let log := log ++ [SetVirtualPageAccess (baseAddress section)
                                            (numPages section) access] in
    if setVirtualPageAccess (baseAddress section) (numPages section) access
    then k log
    else Fatal errorUnlessMessage
  else k log.

Definition reallyFinalizeMemory (P : Platform)
           (setVirtualPageAccess : Z -> Z -> MemoryAccess -> bool)
           (errorUnlessMessage : string) (m : Manager) : result Manager :=
  wavmAssert P (negb (isFinalized (memory m)))
  (let mm := memory m in
   let mm' := mkModuleMemoryManager
                (imageBaseAddress mm) (numAllocatedImagePages mm) true
                (codeSection mm) (readOnlySection mm) (readWriteSection mm)
                (platformCalls mm) in
   setSectionAccess setVirtualPageAccess errorUnlessMessage
     (codeSection mm) execute (calls m)
     (fun log =>
   setSectionAccess setVirtualPageAccess errorUnlessMessage
     (readOnlySection mm) readOnly log
     (fun log =>
   setSectionAccess setVirtualPageAccess errorUnlessMessage
     (readWriteSection mm) readWrite log
     (fun log => Ok (mkManager mm' (frames m) log))))).

(** The calls that [reallyFinalizeMemory] makes for a section: none for a
    section without pages. *)
Definition accessCall (section : Section_) (access : MemoryAccess)
  : list LifecycleCall :=
  if numPages section =? 0 then []
  else [SetVirtualPageAccess (baseAddress section) (numPages section) access].

End MemoryManagerLifecycle.

(** ** [Programs/CLI.h] *)

Module CLI.

(** A C string is the list of its characters before the terminating NUL;
    [None] is the null pointer. *)
Definition strlen (s : string) : nat := String.length s.

(** [s + n] for a pointer [s] into a C string. *)
Fixpoint offset (s : string) (n : nat) : string :=
  match n, s with
  | O, _ => s
  | S n', String _ rest => offset rest n'
  | S _, EmptyString => EmptyString
  end.

(** The sign of [strncmp(s1, s2, n)]. *)
Fixpoint strncmp (s1 s2 : string) (n : nat) : comparison :=
  match n with
  | O => Eq
  | S n' =>
    match s1, s2 with
    | EmptyString, EmptyString => Eq
    | EmptyString, String _ _ => Lt
    | String _ _, EmptyString => Gt
    | String c1 rest1, String c2 rest2 =>
      if Ascii.eqb c1 c2 then strncmp rest1 rest2 n'
      else Nat.compare (nat_of_ascii c1) (nat_of_ascii c2)
    end
  end.

Definition endsWith (str suffix : option string) : bool :=
  match str, suffix with
  | Some str, Some suffix =>
    let lenstr := strlen str in
    let lensuffix := strlen suffix in
    if (lenstr <? lensuffix)%nat then false
    else match strncmp (offset str (lenstr - lensuffix)) suffix lensuffix with
         | Eq => true
         | _ => false
         end
  | _, _ => false
  end.

(** The index of newline offsets that [loadTextModule] builds: the loop
    over [charIndex], started at [charIndex]. *)
Fixpoint newlineOffsets (charIndex : nat) (wastString : string) : list nat :=
  match wastString with
  | EmptyString => []
  | String c rest =>
    if Ascii.eqb c "010"%char
    then (charIndex + 1)%nat :: newlineOffsets (S charIndex) rest
    else newlineOffsets (S charIndex) rest
  end.

Definition wastFileLineOffsets (wastString : string) : list nat :=
  0%nat :: newlineOffsets 0 wastString ++ [(String.length wastString + 1)%nat].

(** [std::string::substr(pos, len)]: [None] is [std::out_of_range]. *)
Definition substr (s : string) (pos len : nat) : option string :=
  if (String.length s <? pos)%nat then None
  else Some (String.substring pos (Nat.min len (String.length s - pos)) s).

(** The source line that [loadTextModule] prints for an error whose locus
    has [newlines] newlines before it; [None] when [at] or [substr] throws
    [std::out_of_range].  The length is computed in [size_t], where
    [endLine - startLine - 1] does not go below zero for these offsets. *)
Definition errorLine (wastString : string) (newlines : nat) : option string :=
  match nth_error (wastFileLineOffsets wastString) newlines,
        nth_error (wastFileLineOffsets wastString) (newlines + 1) with
  | Some startLine, Some endLine =>
    substr wastString startLine (endLine - startLine - 1)
  | _, _ => None
  end.

(** The number of newline characters of a text. *)
Fixpoint countNewlines (s : string) : nat :=
  match s with
  | EmptyString => 0%nat
  | String c rest =>
    ((if Ascii.eqb c "010"%char then 1 else 0) + countNewlines rest)%nat
  end.

(** A line starts after [pre]: [pre] is empty or ends with a newline. *)
Definition lineStart (pre : string) : Prop :=
  pre = EmptyString
  \/ exists p, pre = (p ++ String "010"%char EmptyString)%string.

(** A line ends before [post]: [post] is empty or starts with a newline. *)
Definition lineEnd (post : string) : Prop :=
  post = EmptyString \/ exists q, post = String "010"%char q.

End CLI.

(** ** Vocabulary for the containers *)

Module Codec.
Import Serialization.

(** Writing [x] with [enc] succeeds and keeps the output stream well formed;
    reading with [dec] from an input that stands before the bytes written,
    whatever follows them and whatever [dec] is given to overwrite, returns
    [x] and leaves the cursor just after them. *)
Definition round_trips {A : Type} (enc : A -> M OutputStream.t unit)
           (dec : A -> M InputStream.t A) (x : A) : Prop :=
  forall out, OutputStreamInv.wf out ->
    exists bs out',
      enc x out = (out', Returned tt)
      /\ OutputStreamInv.wf out'
      /\ OutputStream.getBytes out' = OutputStream.getBytes out ++ bs
      /\ forall d consumed rest,
          dec d (InputStreamInv.at_ consumed (bs ++ rest))
          = (InputStreamInv.at_ (consumed ++ bs) rest, Returned x).

End Codec.

(** ** The constructor of LoadedModule as a whole *)

Module LoaderLoop.
Import LLVMJIT.

(** A symbol of the loaded object that the loop of the constructor does not
    skip: a function with a name and an address.  [loadedAddress] is the
    address the function was loaded at, [size] the size that
    [computeSymbolSizes] gives, [lineInfo] the map built from the DWARF line
    table. *)
Record Symbol : Type := mkSymbol {
  loadedAddress : Z;
  size : Z;
  lineInfo : map_ Z
}.

(** The loop over the function symbols. *)
Definition loadFunctions (P : Platform) (symbols : list Symbol)
           (m : LoadedModule) : LoadedModule :=
  fold_left
    (fun m symbol =>
       registerFunction P (loadedAddress symbol) (size symbol) (lineInfo symbol) m)
    symbols m.

(** The [JITFunction] made for a symbol. *)
Definition jitFunctionOf (P : Platform) (symbol : Symbol) : JITFunction.t :=
  JITFunction.mk (loadedAddress symbol) (cast (Uptr P) (size symbol))
                 (lineInfo symbol).

(** The key of a function in [addressToFunctionMap]. *)
Definition functionEnd (P : Platform) (f : JITFunction.t) : Z :=
  cast (Uptr P) (JITFunction.baseAddress f + JITFunction.numBytes f).

(** The part of the constructor after the object is loaded into the memory
    of [mm]: the loop, then the entry in [addressToModuleMap]. *)
Definition constructLoadedModule (P : Platform) (mm : ModuleMemoryManager)
           (symbols : list Symbol) (g : Global) : LoadedModule * Global :=
  let m := loadFunctions P symbols (mkLoadedModule mm [] []) in
  (m, publishModule P m g).

(** [unloadModule]: [delete loadedModule]. *)
Definition unloadModule (P : Platform) (m : LoadedModule) (g : Global) : Global :=
  destroyModule P m g.

(** The functions of a module as the loop keeps them: ordered by key, each a
    value of [Uptr] under the key of its end. *)
Definition module_keyed (P : Platform) (m : LoadedModule) : Prop :=
  LoaderSpec.sorted_keys (addressToFunctionMap m)
  /\ forall k f, In (k, f) (addressToFunctionMap m) ->
                 LoaderSpec.typed P f /\ k = functionEnd P f.

End LoaderLoop.

(** * Facts about fixed-width integers *)

Section IntFacts.

Lemma pow2_pos (n : Z) : 0 <= n -> 0 < 2 ^ n.
Proof. intros; apply Z.pow_pos_nonneg; lia. Qed.

Lemma pow2_split (w : Z) : 0 < w -> 2 ^ w = 2 * 2 ^ (w - 1).
Proof.
  intros Hw. replace w with (1 + (w - 1)) at 1 by lia.
  rewrite Z.pow_add_r by lia. reflexivity.
Qed.

Lemma wrap_signed_mod (w x : Z) :
  0 < w -> (wrap_signed w x) mod 2 ^ w = x mod 2 ^ w.
Proof.
  intros Hw. unfold wrap_signed.
  rewrite Zminus_mod, Zmod_mod, <- Zminus_mod.
  f_equal. lia.
Qed.

Lemma cast_mod (T : IntType) (x : Z) :
  0 < bits T -> (cast T x) mod 2 ^ bits T = x mod 2 ^ bits T.
Proof.
  intros Hw. unfold cast. destruct (is_signed T).
  - apply wrap_signed_mod; assumption.
  - unfold wrap_unsigned. apply Zmod_mod.
Qed.

Lemma cast_congr (T : IntType) (x y : Z) :
  x mod 2 ^ bits T = y mod 2 ^ bits T -> cast T x = cast T y.
Proof.
  intros H. unfold cast, wrap_signed, wrap_unsigned.
  destruct (is_signed T); [ | assumption ].
  f_equal.
  rewrite Zplus_mod, H, <- Zplus_mod. reflexivity.
Qed.

Lemma cast_id (T : IntType) (x : Z) :
  0 < bits T -> representable T x -> cast T x = x.
Proof.
  intros Hw [Hlo Hhi]. unfold cast, min_value, max_value in *.
  pose proof (pow2_split (bits T) Hw) as Hs.
  pose proof (pow2_pos (bits T - 1) ltac:(lia)) as Hp.
  destruct (is_signed T).
  - unfold wrap_signed. rewrite Z.mod_small by lia. lia.
  - unfold wrap_unsigned. apply Z.mod_small. lia.
Qed.

Lemma cast_representable (T : IntType) (x : Z) :
  0 < bits T -> representable T (cast T x).
Proof.
  intros Hw. unfold representable, cast, min_value, max_value.
  pose proof (pow2_split (bits T) Hw) as Hs.
  pose proof (pow2_pos (bits T - 1) ltac:(lia)) as Hp.
  destruct (is_signed T).
  - unfold wrap_signed.
    pose proof (Z.mod_pos_bound (x + 2 ^ (bits T - 1)) (2 ^ bits T) ltac:(lia)).
    lia.
  - unfold wrap_unsigned.
    pose proof (Z.mod_pos_bound x (2 ^ bits T) ltac:(lia)). lia.
Qed.

(** Reduction modulo a larger power of two does not change the residue
    modulo a smaller one. *)
Lemma mod_pow2_mod_pow2 (x a b : Z) :
  0 <= a <= b -> (x mod 2 ^ b) mod 2 ^ a = x mod 2 ^ a.
Proof.
  intros H. replace b with (a + (b - a)) by lia.
  rewrite Z.pow_add_r by lia.
  pose proof (pow2_pos a ltac:(lia)). pose proof (pow2_pos (b - a) ltac:(lia)).
  rewrite Z.rem_mul_r by lia.
  rewrite (Z.mul_comm (2 ^ a)), Z_mod_plus_full. apply Zmod_mod.
Qed.

Lemma cast_cast_wider (T P : IntType) (x : Z) :
  0 < bits T <= bits P -> cast T (cast P x) = cast T x.
Proof.
  intros H. apply cast_congr.
  rewrite <- (mod_pow2_mod_pow2 (cast P x) (bits T) (bits P)) by lia.
  rewrite cast_mod by lia.
  apply mod_pow2_mod_pow2; lia.
Qed.

Lemma lor_mod_pow2 (a b n : Z) :
  0 <= n -> (Z.lor a b) mod 2 ^ n = Z.lor (a mod 2 ^ n) (b mod 2 ^ n).
Proof.
  intros Hn. apply Z.bits_inj'. intros i Hi.
  rewrite Z.lor_spec, !Z.testbit_mod_pow2, Z.lor_spec by assumption.
  destruct (i <? n); reflexivity.
Qed.

Lemma cast_lor (T : IntType) (a a' b b' : Z) :
  0 < bits T ->
  a mod 2 ^ bits T = a' mod 2 ^ bits T ->
  b mod 2 ^ bits T = b' mod 2 ^ bits T ->
  cast T (Z.lor a b) = cast T (Z.lor a' b').
Proof.
  intros Hw Ha Hb. apply cast_congr.
  rewrite !lor_mod_pow2 by lia. rewrite Ha, Hb. reflexivity.
Qed.

(** Bitwise or of two numbers with disjoint bits is their sum. *)
Lemma lor_disjoint_add (lo hi k : Z) :
  0 <= k -> 0 <= lo < 2 ^ k -> Z.lor lo (hi * 2 ^ k) = lo + hi * 2 ^ k.
Proof.
  intros Hk Hlo.
  assert (Hland : Z.land lo (hi * 2 ^ k) = 0).
  { apply Z.bits_inj'. intros i Hi.
    rewrite Z.land_spec, Z.bits_0.
    destruct (Z.ltb_spec i k).
    - rewrite Z.mul_pow2_bits_low by lia. apply andb_false_r.
    - rewrite <- (Z.mod_small lo (2 ^ k)) by lia.
      rewrite Z.mod_pow2_bits_high by lia. reflexivity. }
  rewrite <- Z.lxor_lor by assumption.
  symmetry. apply Z.add_nocarry_lxor. assumption.
Qed.

(** [x & ~(2^u - 1)] clears the low [u] bits. *)
Lemma land_lnot_ones (x u : Z) :
  0 <= u -> Z.land x (Z.lnot (2 ^ u - 1)) = 2 ^ u * (x / 2 ^ u).
Proof.
  intros Hu.
  rewrite <- Z.ldiff_land.
  replace (2 ^ u - 1) with (Z.ones u) by (rewrite Z.ones_equiv; lia).
  rewrite Z.ldiff_ones_r by assumption.
  rewrite Z.shiftr_div_pow2, Z.shiftl_mul_pow2 by assumption. lia.
Qed.

End IntFacts.

(** * Facts about bytes *)

Section ByteFacts.

Lemma below_forallb (n : nat) (P : Z -> bool) :
  forallb P (map Z.of_nat (seq 0 n)) = true ->
  forall b, 0 <= b < Z.of_nat n -> P b = true.
Proof.
  intros H b Hb. rewrite forallb_forall in H. apply H.
  apply in_map_iff. exists (Z.to_nat b). split; [ lia | ].
  apply in_seq. lia.
Qed.

Lemma land_0x80_low (b : Z) : 0 <= b < 128 -> Z.land b 0x80 = 0.
Proof.
  intros Hb.
  apply Z.eqb_eq.
  apply (below_forallb 128 (fun b => Z.land b 0x80 =? 0)); [ vm_compute; reflexivity | lia ].
Qed.

Lemma lor_0x80_low (b : Z) : 0 <= b < 128 -> Z.lor b 0x80 = b + 128.
Proof.
  intros Hb.
  apply Z.eqb_eq.
  apply (below_forallb 128 (fun b => Z.lor b 0x80 =? b + 128)); [ vm_compute; reflexivity | lia ].
Qed.

Lemma land_0x80_high (b : Z) : 128 <= b < 256 -> Z.land b 0x80 <> 0.
Proof.
  intros Hb.
  apply Z.eqb_neq.
  assert (H : (b <? 128) || negb (Z.land b 0x80 =? 0) = true).
  { apply (below_forallb 256 (fun b => (b <? 128) || negb (Z.land b 0x80 =? 0)));
      [ vm_compute; reflexivity | lia ]. }
  destruct (Z.ltb_spec b 128); [ lia | ].
  simpl in H. destruct (Z.land b 128 =? 0); [ discriminate | reflexivity ].
Qed.

Lemma land_0x40_low (b : Z) :
  0 <= b < 128 -> (Z.land b 0x40 =? 0) = (b <? 64).
Proof.
  intros Hb.
  apply eqb_prop.
  apply (below_forallb 128 (fun b => eqb (Z.land b 0x40 =? 0) (b <? 64)));
    [ vm_compute; reflexivity | lia ].
Qed.

Lemma land_lnot_0x80 (b : Z) : is_byte b -> Z.land b (Z.lnot 0x80) = b mod 128.
Proof.
  intros Hb.
  apply Z.eqb_eq.
  apply (below_forallb 256 (fun b => Z.land b (Z.lnot 0x80) =? b mod 128));
    [ vm_compute; reflexivity | exact Hb ].
Qed.

Lemma land_127 (v : Z) : Z.land v 127 = v mod 128.
Proof. change 127 with (Z.ones 7). rewrite Z.land_ones by lia. reflexivity. Qed.

Lemma shiftr_7 (v : Z) : Z.shiftr v 7 = v / 128.
Proof. rewrite Z.shiftr_div_pow2 by lia. reflexivity. Qed.

Lemma cast_uint8_low (b : Z) : 0 <= b < 256 -> cast uint8 b = b.
Proof. intros Hb. apply Z.mod_small. exact Hb. Qed.

End ByteFacts.

(** * The output stream *)

Section OutputStreamFacts.
Import Serialization.
Import OutputStreamInv.

Lemma update_length (l : list Z) (i : nat) (x : Z) :
  length (update l i x) = length l.
Proof.
  revert i; induction l as [ | h t IH ]; intros [ | i ]; simpl; auto.
Qed.

Lemma firstn_update_snoc (l : list Z) (i : nat) (x : Z) :
  (i < length l)%nat -> firstn (S i) (update l i x) = firstn i l ++ [x].
Proof.
  revert i; induction l as [ | h t IH ]; intros [ | i ] Hi; simpl in *; try lia.
  - reflexivity.
  - f_equal. apply IH. lia.
Qed.

Lemma resize_within (v : list Z) (n : nat) :
  (n <= length v)%nat -> OutputStream.resize v n = firstn n v.
Proof.
  intros H. unfold OutputStream.resize.
  replace (n - length v)%nat with 0%nat by lia. simpl. apply app_nil_r.
Qed.

Lemma resize_grow (v : list Z) (n : nat) :
  (length v <= n)%nat -> OutputStream.resize v n = v ++ repeat 0 (n - length v).
Proof.
  intros H. unfold OutputStream.resize. rewrite firstn_all2 by lia. reflexivity.
Qed.

Lemma resize_length (v : list Z) (n : nat) : length (OutputStream.resize v n) = n.
Proof.
  unfold OutputStream.resize.
  rewrite length_app, length_firstn, repeat_length. lia.
Qed.

Lemma empty_wf : wf OutputStream.empty.
Proof. split; reflexivity. Qed.

Lemma getBytes_empty : OutputStream.getBytes OutputStream.empty = [].
Proof. reflexivity. Qed.

(** Writing one byte, [*stream.advance(1) = b], appends it to the bytes of
    the stream. *)
Lemma write_byte (b : Z) (s : OutputStream.t) :
  wf s ->
  exists s1,
    wf s1
    /\ OutputStream.getBytes s1 = OutputStream.getBytes s ++ [b]
    /\ forall (A : Type) (k : M OutputStream.t A),
        (p <- OutputStream.advance 1 ;; OutputStream.store p b ;; k) s = k s1.
Proof.
  intros [Hle Hend]. destruct s as [bs nx en]. simpl in *. subst en.
  destruct (Nat.ltb_spec (length bs) (nx + 1)) as [Hfull | Hroom].
  - (* the buffer is full: extendBuffer *)
    set (n' := Nat.max (nx + 1) (length bs * 7 / 5 + 32)).
    set (bs' := OutputStream.resize bs n').
    exists (OutputStream.mk (update bs' nx b) (nx + 1) (length bs')).
    assert (Hn' : (nx + 1 <= n')%nat) by (unfold n'; lia).
    assert (Hlen' : length bs' = n') by apply resize_length.
    split; [ | split ].
    + split; simpl; [ lia | rewrite update_length; reflexivity ].
    + unfold OutputStream.getBytes; simpl.
      rewrite !resize_within by (rewrite ?update_length; lia).
      replace (nx + 1)%nat with (S nx) by lia.
      rewrite firstn_update_snoc by lia.
      f_equal. unfold bs'. rewrite resize_grow by lia.
      rewrite firstn_app. replace (nx - length bs)%nat with 0%nat by lia.
      simpl. rewrite app_nil_r. reflexivity.
    + intros A k.
      unfold bind, OutputStream.advance, OutputStream.store,
        OutputStream.extendBuffer, get, put, ret, bind; simpl.
      destruct (Nat.ltb_spec (length bs) (nx + 1)); [ | lia ].
      simpl. fold n'. fold bs'. reflexivity.
  - exists (OutputStream.mk (update bs nx b) (nx + 1) (length bs)).
    split; [ | split ].
    + split; simpl; [ lia | rewrite update_length; reflexivity ].
    + unfold OutputStream.getBytes; simpl.
      rewrite !resize_within by (rewrite ?update_length; lia).
      replace (nx + 1)%nat with (S nx) by lia.
      apply firstn_update_snoc. lia.
    + intros A k.
      unfold bind, OutputStream.advance, OutputStream.store,
        OutputStream.extendBuffer, get, put, ret, bind; simpl.
      destruct (Nat.ltb_spec (length bs) (nx + 1)); [ lia | ].
      reflexivity.
Qed.

End OutputStreamFacts.

(** * The encoder *)

Section EncoderFacts.
Import Serialization.
Import OutputStreamInv.

Lemma pow128_pos (k : nat) : 0 < 128 ^ Z.of_nat k.
Proof. apply Z.pow_pos_nonneg; lia. Qed.

Lemma pow128_succ (k : nat) : 128 ^ Z.of_nat (S k) = 128 * 128 ^ Z.of_nat k.
Proof. rewrite Nat2Z.inj_succ, Z.pow_succ_r by lia. reflexivity. Qed.

Lemma fits_one (sg : bool) (v : Z) :
  fits sg 1 v <-> (if sg then -64 <= v < 64 else 0 <= v < 128).
Proof.
  unfold fits. change (128 ^ Z.of_nat 1) with 128. destruct sg; lia.
Qed.

Lemma fits_div (sg : bool) (k : nat) (v : Z) :
  (1 <= k)%nat -> fits sg (S k) v -> fits sg k (v / 128).
Proof.
  intros Hk. unfold fits. rewrite pow128_succ.
  destruct k as [ | k' ]; [ lia | ]. rewrite pow128_succ.
  pose proof (pow128_pos k') as Hp.
  pose proof (Z.div_mod v 128 ltac:(lia)) as Hdm.
  pose proof (Z.mod_pos_bound v 128 ltac:(lia)) as Hr.
  destruct sg; intros H; lia.
Qed.

Lemma fits_mul (sg : bool) (k : nat) (v : Z) :
  (1 <= k)%nat -> fits sg k (v / 128) -> fits sg (S k) v.
Proof.
  intros Hk. unfold fits. rewrite pow128_succ.
  destruct k as [ | k' ]; [ lia | ]. rewrite pow128_succ.
  pose proof (pow128_pos k') as Hp.
  pose proof (Z.div_mod v 128 ltac:(lia)) as Hdm.
  pose proof (Z.mod_pos_bound v 128 ltac:(lia)) as Hr.
  destruct sg; intros H; lia.
Qed.

Lemma fits_mono (sg : bool) (j k : nat) (v : Z) :
  (j <= k)%nat -> fits sg j v -> fits sg k v.
Proof.
  intros Hjk. unfold fits.
  assert (128 ^ Z.of_nat j <= 128 ^ Z.of_nat k)
    by (apply Z.pow_le_mono_r; lia).
  destruct sg; lia.
Qed.

Lemma cast_minus_one (T : IntType) :
  0 < bits T -> is_signed T = true -> cast T (-1) = -1.
Proof.
  intros Hw Hs. apply cast_id; [ assumption | ].
  unfold representable, min_value, max_value. rewrite Hs.
  pose proof (pow2_pos (bits T - 1) ltac:(lia)). lia.
Qed.

(** What the encoder's loop writes. *)
Lemma serializeVarInt_loop_spec (T : IntType) :
  0 < bits T ->
  forall (k fuel : nat) (v : Z) (s : OutputStream.t),
    (1 <= k <= fuel)%nat ->
    fits (is_signed T) k v ->
    wf s ->
    exists bs s',
      serializeVarInt_loop fuel T v s = (s', Returned tt)
      /\ wf s'
      /\ OutputStream.getBytes s' = OutputStream.getBytes s ++ bs
      /\ (1 <= length bs <= k)%nat
      /\ continued bs
      /\ Forall is_byte bs
      /\ leb_value bs = v mod 128 ^ Z.of_nat (length bs)
      /\ fits (is_signed T) (length bs) v.
Proof.
  intros Hw k. induction k as [ | k IH ]; intros fuel v s Hk Hfit Hwf; [ lia | ].
  destruct fuel as [ | fuel ]; [ lia | ].
  cbn [serializeVarInt_loop].
  rewrite land_127, shiftr_7.
  pose proof (Z.mod_pos_bound v 128 ltac:(lia)) as Hr.
  pose proof (Z.div_mod v 128 ltac:(lia)) as Hdm.
  rewrite (cast_uint8_low (v mod 128)) by lia.
  remember (more T (v / 128) (v mod 128)) as more eqn:Edef.
  unfold Serialization.more in Edef. rewrite land_0x40_low in Edef by lia.
  assert (Hmore : more = false -> fits (is_signed T) 1 v).
  { rewrite Edef. intros H. apply fits_one.
    destruct (is_signed T) eqn:Hs.
    - rewrite cast_minus_one in H by assumption.
      destruct (Z.eqb_spec (v / 128) 0), (Z.eqb_spec (v / 128) (-1)),
        (Z.ltb_spec (v mod 128) 64), (Z.geb_spec (v / 128) 0),
        (Z.ltb_spec (v / 128) 0); simpl in H; try discriminate; lia.
    - destruct (Z.eqb_spec (v / 128) 0); simpl in H; try discriminate.
      unfold fits in Hfit. lia. }
  assert (Hstop : fits (is_signed T) 1 v -> more = false).
  { rewrite Edef. intros H1. apply fits_one in H1.
    destruct (is_signed T) eqn:Hs.
    - rewrite cast_minus_one by assumption.
      destruct (Z.eqb_spec (v / 128) 0), (Z.eqb_spec (v / 128) (-1)),
        (Z.ltb_spec (v mod 128) 64), (Z.geb_spec (v / 128) 0),
        (Z.ltb_spec (v / 128) 0); simpl; try reflexivity; lia.
    - destruct (Z.eqb_spec (v / 128) 0); simpl; try reflexivity; lia. }
  clear Edef. destruct more eqn:Emore.
  - (* another group follows *)
    assert (Hk1 : (1 <= k)%nat).
    { destruct k; [ | lia ]. specialize (Hstop Hfit); discriminate. }
    rewrite lor_0x80_low by lia.
    destruct (write_byte (v mod 128 + 128) s Hwf) as (s1 & Hwf1 & Hb1 & Hrun).
    rewrite Hrun.
    destruct (IH fuel (v / 128) s1 ltac:(lia) (fits_div _ _ _ Hk1 Hfit) Hwf1)
      as (bs & s' & Hloop & Hwf' & Hbytes & Hlen & Hcont & Hall & Hval & Hfits).
    exists ((v mod 128 + 128) :: bs), s'.
    split; [ exact Hloop | ].
    split; [ exact Hwf' | ].
    split; [ rewrite Hbytes, Hb1, <- app_assoc; reflexivity | ].
    split; [ simpl; lia | ].
    split.
    { cbn [continued]. destruct bs as [ | b0 bs0 ]; [ simpl in Hlen; lia | ].
      split; [ apply land_0x80_high; lia | exact Hcont ]. }
    split; [ constructor; [ unfold is_byte; lia | exact Hall ] | ].
    split.
    { cbn [leb_value length]. rewrite Hval, pow128_succ.
      rewrite (Z.rem_mul_r v 128 (128 ^ Z.of_nat (length bs)))
        by (pose proof (pow128_pos (length bs)); lia).
      f_equal.
      rewrite <- Z.add_mod_idemp_r, Z_mod_same_full, Z.add_0_r by lia.
      apply Z.mod_mod; lia. }
    cbn [length]. apply fits_mul; [ lia | exact Hfits ].
  - (* the last group *)
    destruct (write_byte (v mod 128) s Hwf) as (s1 & Hwf1 & Hb1 & Hrun).
    rewrite Hrun.
    exists [v mod 128], s1.
    split; [ reflexivity | ].
    split; [ exact Hwf1 | ].
    split; [ exact Hb1 | ].
    split; [ simpl; lia | ].
    split; [ simpl; apply land_0x80_low; lia | ].
    split; [ constructor; [ unfold is_byte; lia | constructor ] | ].
    split; [ cbn [leb_value length]; change (128 ^ Z.of_nat 1) with 128; rewrite Z.mod_mod by lia; lia | ].
    apply Hmore; reflexivity.
Qed.

End EncoderFacts.

(** * The input stream and the decoder's first loop *)

Section ReaderFacts.
Import Serialization.
Import InputStreamInv.

Lemma at_nil (range : list Z) : at_ [] range = InputStream.MemoryInputStream range.
Proof. reflexivity. Qed.

Lemma at_snoc (consumed : list Z) (b : Z) (input : list Z) :
  at_ (consumed ++ [b]) input
  = InputStream.mk (consumed ++ b :: input) (length consumed + 1)
                   (length (consumed ++ b :: input)).
Proof.
  unfold at_. rewrite <- !app_assoc. simpl. rewrite length_app. reflexivity.
Qed.

Lemma at_app (consumed bs input : list Z) :
  at_ (consumed ++ bs) input
  = InputStream.mk (consumed ++ bs ++ input) (length consumed + length bs)
                   (length (consumed ++ bs ++ input)).
Proof.
  unfold at_. rewrite <- !app_assoc, length_app. reflexivity.
Qed.

Lemma advance_eq (numBytes : nat) (s : InputStream.t) :
  InputStream.advance numBytes s
  = if (InputStream.end_ s <? InputStream.next s + numBytes)%nat
    then (s, Thrown (mkFatalSerializationException
                       "expected data but found end of stream"))
    else (InputStream.mk (InputStream.data s) (InputStream.next s + numBytes)
                         (InputStream.end_ s),
          Returned (InputStream.next s)).
Proof.
  unfold InputStream.advance, InputStream.getMoreData, bind, get, put, ret, throw.
  destruct (InputStream.end_ s <? InputStream.next s + numBytes)%nat; reflexivity.
Qed.

Lemma peek_eq (numBytes : nat) (s : InputStream.t) :
  InputStream.peek numBytes s
  = if (InputStream.end_ s <? InputStream.next s + numBytes)%nat
    then (s, Thrown (mkFatalSerializationException
                       "expected data but found end of stream"))
    else (s, Returned (InputStream.next s)).
Proof.
  unfold InputStream.peek, InputStream.getMoreData, bind, get, put, ret, throw.
  destruct (InputStream.end_ s <? InputStream.next s + numBytes)%nat; reflexivity.
Qed.

(** Reading one byte, [*stream.advance(1)]. *)
Lemma read_byte (consumed : list Z) (b : Z) (input : list Z)
      (A : Type) (k : Z -> M InputStream.t A) :
  (p <- InputStream.advance 1 ;; byte <- InputStream.load p ;; k byte)
    (at_ consumed (b :: input))
  = k b (at_ (consumed ++ [b]) input).
Proof.
  rewrite at_snoc. unfold at_.
  unfold bind at 1. rewrite advance_eq. cbn [InputStream.next InputStream.end_ InputStream.data].
  rewrite length_app; cbn [length].
  destruct (Nat.ltb_spec (length consumed + S (length input)) (length consumed + 1));
    [ lia | ].
  unfold InputStream.load, bind, get, ret. cbn [InputStream.data].
  rewrite nth_middle. reflexivity.
Qed.

Lemma read_byte_end (consumed : list Z) (A : Type) (k : Z -> M InputStream.t A) :
  (p <- InputStream.advance 1 ;; byte <- InputStream.load p ;; k byte)
    (at_ consumed [])
  = (at_ consumed [],
     Thrown (mkFatalSerializationException "expected data but found end of stream")).
Proof.
  unfold at_.
  unfold bind at 1. rewrite advance_eq. cbn [InputStream.next InputStream.end_ InputStream.data].
  rewrite app_nil_r.
  destruct (Nat.ltb_spec (length consumed) (length consumed + 1)); [ | lia ].
  reflexivity.
Qed.

Lemma update_middle (done : list Z) (x y : Z) (tail : list Z) :
  update (done ++ x :: tail) (length done) y = done ++ y :: tail.
Proof. induction done as [ | h t IH ]; simpl; [ | rewrite IH ]; reflexivity. Qed.



(** The first loop of the decoder moves [taken] from the stream into the
    buffer, and throws when the input ends before the loop does. *)
Lemma readVarIntBytes_spec :
  forall (remaining : nat) (done consumed input : list Z) (shift : Z),
    -128 <= shift - 7 * Z.of_nat remaining -> shift <= 127 ->
    match taken remaining input with
    | Some bs =>
      readVarIntBytes remaining (done ++ repeat 0 remaining) (length done) shift
                      (at_ consumed input)
      = (at_ (consumed ++ bs) (skipn (length bs) input),
         Returned (done ++ bs ++ repeat 0 (remaining - length bs),
                   (length done + length bs)%nat,
                   shift - 7 * Z.of_nat (length bs)))
    | None =>
      exists s',
      readVarIntBytes remaining (done ++ repeat 0 remaining) (length done) shift
                      (at_ consumed input)
      = (s', Thrown (mkFatalSerializationException
                       "expected data but found end of stream"))
    end.
Proof.
  induction remaining as [ | r IH ]; intros done consumed input shift Hlo Hhi.
  - simpl. unfold ret. rewrite ?app_nil_r, ?Nat.add_0_r, ?Z.sub_0_r.
    reflexivity.
  - cbn [taken readVarIntBytes].
    destruct input as [ | b rest ].
    + eexists. apply read_byte_end.
    + rewrite read_byte.
      cbn [repeat]. rewrite update_middle.
      assert (Hc : cast int8 (shift - 7) = shift - 7).
      { apply cast_id; [ simpl; lia | ].
        unfold representable, min_value, max_value; simpl. lia. }
      rewrite Hc.
      destruct (Z.land b 128 =? 0) eqn:Eb.
      * unfold ret. cbn [length skipn].
        replace (S r - 1)%nat with r by lia.
        replace (length done + 1)%nat with (S (length done)) by lia.
        change (Z.of_nat 1) with 1. rewrite Z.mul_1_r.
        reflexivity.
      * specialize (IH (done ++ [b]) (consumed ++ [b]) rest (shift - 7)
                       ltac:(lia) ltac:(lia)).
        replace (S (length done)) with (length (done ++ [b]))
          by (rewrite length_app; simpl; lia).
        replace (done ++ b :: repeat 0 r) with ((done ++ [b]) ++ repeat 0 r)
          by (rewrite <- app_assoc; reflexivity).
        destruct (taken r rest) as [ bs | ] eqn:Et; cbn [option_map].
        -- rewrite IH. cbn [length skipn].
           rewrite <- !app_assoc. cbn [app].
           rewrite length_app. cbn [length].
           replace (S r - S (length bs))%nat with (r - length bs)%nat by lia.
           replace (length done + 1 + length bs)%nat
             with (length done + S (length bs))%nat by lia.
           replace (shift - 7 - 7 * Z.of_nat (length bs))
             with (shift - 7 * Z.of_nat (S (length bs))) by lia.
           reflexivity.
        -- exact IH.
Qed.

End ReaderFacts.

(** * The decoder's second loop *)

Section DecoderFacts.
Import Serialization.

Lemma leb_value_bound (l : list Z) : 0 <= leb_value l < 128 ^ Z.of_nat (length l).
Proof.
  induction l as [ | b t IH ]; [ simpl; lia | ].
  cbn [leb_value length]. rewrite pow128_succ.
  pose proof (Z.mod_pos_bound b 128 ltac:(lia)). lia.
Qed.

Lemma leb_value_app (a b : list Z) :
  leb_value (a ++ b) = leb_value a + 128 ^ Z.of_nat (length a) * leb_value b.
Proof.
  induction a as [ | x t IH ].
  - simpl. destruct (leb_value b); reflexivity.
  - cbn [app leb_value length]. rewrite IH, pow128_succ. ring.
Qed.

Lemma leb_value_zeros (r : nat) : leb_value (repeat 0 r) = 0.
Proof. induction r as [ | r IH ]; simpl; [ | rewrite IH ]; reflexivity. Qed.

Lemma leb_value_padded (bs : list Z) (r : nat) :
  leb_value (bs ++ repeat 0 r) = leb_value bs.
Proof. rewrite leb_value_app, leb_value_zeros. ring. Qed.

Lemma firstn_succ_nth (l : list Z) (j : nat) :
  (j < length l)%nat -> firstn (S j) l = firstn j l ++ [nth j l 0].
Proof.
  revert j; induction l as [ | h t IH ]; intros [ | j ] Hj; simpl in *; try lia.
  - reflexivity.
  - f_equal. apply IH. lia.
Qed.

Lemma cast_zero (T : IntType) : 0 < bits T -> cast T 0 = 0.
Proof.
  intros Hw. apply cast_id; [ assumption | ].
  unfold representable, min_value, max_value.
  pose proof (pow2_pos (bits T - 1) ltac:(lia)).
  pose proof (pow2_pos (bits T) ltac:(lia)).
  destruct (is_signed T); lia.
Qed.

Lemma promote_bits (T : IntType) : bits T <= bits (promote T).
Proof. unfold promote. destruct (Z.ltb_spec (bits T) 32); simpl; lia. Qed.

Lemma cast_promote_mod (T : IntType) (x : Z) :
  0 < bits T -> cast (promote T) x mod 2 ^ bits T = x mod 2 ^ bits T.
Proof.
  intros Hw. pose proof (promote_bits T) as Hp.
  rewrite <- (mod_pow2_mod_pow2 (cast (promote T) x) (bits T) (bits (promote T)))
    by lia.
  rewrite cast_mod by lia. apply mod_pow2_mod_pow2. lia.
Qed.

Lemma pow128_pow2 (j : nat) : 128 ^ Z.of_nat j = 2 ^ (Z.of_nat j * 7).
Proof.
  rewrite Z.mul_comm, Z.pow_mul_r by lia. reflexivity.
Qed.

(** The second loop computes the number spelled by the buffer, converted
    to [T]. *)
Lemma decodeVarIntBytes_spec (T : IntType) (arr : list Z) :
  0 < bits T -> Forall is_byte arr ->
  decodeVarIntBytes T (length arr) arr = cast T (leb_value arr).
Proof.
  intros Hw Hall. unfold decodeVarIntBytes.
  assert (H : forall j, (j <= length arr)%nat ->
    fold_left
      (fun value byteIndex =>
         cast T (Z.lor value
                       (shl T (cast T (Z.land (nth byteIndex arr 0) (Z.lnot 0x80)))
                            (Z.of_nat byteIndex * 7))))
      (seq 0 j) 0
    = cast T (leb_value (firstn j arr))).
  { induction j as [ | j IH ]; intros Hj.
    - simpl. symmetry. apply cast_zero. assumption.
    - rewrite seq_S, fold_left_app, IH by lia. cbn [fold_left Nat.add].
      rewrite firstn_succ_nth, leb_value_app by lia.
      rewrite length_firstn, Nat.min_l by lia.
      cbn [leb_value]. rewrite Z.mul_0_r, Z.add_0_r.
      assert (Hb : is_byte (nth j arr 0)).
      { rewrite Forall_forall in Hall. apply Hall. apply nth_In. lia. }
      rewrite land_lnot_0x80 by assumption.
      set (g := nth j arr 0 mod 128).
      set (S0 := leb_value (firstn j arr)).
      assert (HS : 0 <= S0 < 2 ^ (Z.of_nat j * 7)).
      { rewrite <- pow128_pow2. unfold S0.
        pose proof (leb_value_bound (firstn j arr)) as Hbd.
        rewrite length_firstn, Nat.min_l in Hbd by lia. exact Hbd. }
      rewrite pow128_pow2, (Z.mul_comm (2 ^ _) g).
      rewrite <- (lor_disjoint_add S0 g (Z.of_nat j * 7)) by lia.
      apply cast_lor; [ assumption | apply cast_mod; assumption | ].
      unfold shl. rewrite cast_promote_mod by assumption.
      rewrite Z.shiftl_mul_pow2 by lia.
      rewrite Zmult_mod, cast_mod, <- Zmult_mod by assumption.
      reflexivity. }
  rewrite H by lia. rewrite firstn_all. reflexivity.
Qed.

End DecoderFacts.

(** * The final-byte check *)

Section FinalByteFacts.
Import Serialization.

Lemma numUsedBits_range (maxBits : Z) :
  1 <= maxBits -> 1 <= numUsedBitsInHighestByte maxBits <= 7.
Proof.
  unfold numUsedBitsInHighestByte, maxBytes_of.
  Z.div_mod_to_equations; lia.
Qed.

Lemma maxBytes_of_pos (maxBits : Z) : 1 <= maxBits -> 1 <= maxBytes_of maxBits.
Proof. unfold maxBytes_of. Z.div_mod_to_equations; lia. Qed.

Lemma maxBits_split (maxBits : Z) :
  maxBits = 7 * (maxBytes_of maxBits - 1) + numUsedBitsInHighestByte maxBits.
Proof. unfold numUsedBitsInHighestByte. lia. Qed.

Lemma usedBitmask_eq (maxBits : Z) :
  1 <= maxBits ->
  highestByteUsedBitmask maxBits = 2 ^ numUsedBitsInHighestByte maxBits - 1.
Proof.
  intros HB. pose proof (numUsedBits_range maxBits HB) as Hu.
  unfold highestByteUsedBitmask.
  set (u := numUsedBitsInHighestByte maxBits) in *.
  assert (Hc : u = 1 \/ u = 2 \/ u = 3 \/ u = 4 \/ u = 5 \/ u = 6 \/ u = 7) by lia.
  destruct Hc as [-> | [-> | [-> | [-> | [-> | [-> | ->]]]]]]; reflexivity.
Qed.

Lemma signedBitmask_eq (maxBits : Z) :
  1 <= maxBits ->
  cast uint8 (highestByteSignedBitmask maxBits)
  = 128 - 2 ^ numUsedBitsInHighestByte maxBits.
Proof.
  intros HB. pose proof (numUsedBits_range maxBits HB) as Hu.
  unfold highestByteSignedBitmask. rewrite usedBitmask_eq by assumption.
  set (u := numUsedBitsInHighestByte maxBits) in *.
  assert (Hc : u = 1 \/ u = 2 \/ u = 3 \/ u = 4 \/ u = 5 \/ u = 6 \/ u = 7) by lia.
  destruct Hc as [-> | [-> | [-> | [-> | [-> | [-> | ->]]]]]]; reflexivity.
Qed.

(** The check in arithmetic terms: the byte is accepted when it is below
    [2^u], or, for a signed type, when it is in [128 - 2^u, 128). *)
Lemma invalidFinalByte_eq (T : IntType) (maxBits : Z) (arr : list Z) :
  1 <= maxBits ->
  let last := nth (Z.to_nat (maxBytes_of maxBits - 1)) arr 0 in
  let u := numUsedBitsInHighestByte maxBits in
  is_byte last ->
  invalidFinalByte T maxBits arr
  = negb (last <? 2 ^ u)
    && (negb ((128 - 2 ^ u <=? last) && (last <? 128)) || negb (is_signed T)).
Proof.
  intros HB last u Hb. unfold invalidFinalByte. fold last.
  rewrite signedBitmask_eq, usedBitmask_eq by assumption. fold u.
  pose proof (numUsedBits_range maxBits HB) as Hu. fold u in Hu.
  rewrite land_lnot_ones by lia.
  unfold is_byte in Hb.
  assert (Hc : u = 1 \/ u = 2 \/ u = 3 \/ u = 4 \/ u = 5 \/ u = 6 \/ u = 7) by lia.
  f_equal; [ | f_equal ].
  - f_equal.
    destruct Hc as [-> | [-> | [-> | [-> | [-> | [-> | ->]]]]]];
      match goal with
      | |- (?a =? ?b) = (?c <? ?d) =>
        destruct (Z.eqb_spec a b), (Z.ltb_spec c d); try reflexivity;
          Z.div_mod_to_equations; lia
      end.
  - f_equal.
    destruct Hc as [-> | [-> | [-> | [-> | [-> | [-> | ->]]]]]];
      match goal with
      | |- (?a =? ?b) = ((?c <=? ?d) && (?e <? ?f)) =>
        destruct (Z.eqb_spec a b), (Z.leb_spec c d), (Z.ltb_spec e f);
          try reflexivity; simpl; Z.div_mod_to_equations; lia
      end.
Qed.

Lemma taken_continued (m : nat) (bs rest : list Z) :
  continued bs -> (length bs <= m)%nat -> taken m (bs ++ rest) = Some bs.
Proof.
  revert bs; induction m as [ | m IH ]; intros bs Hc Hlen.
  - destruct bs; [ destruct Hc | simpl in Hlen; lia ].
  - destruct bs as [ | b bs ]; [ destruct Hc | ].
    cbn [app taken]. destruct bs as [ | b' bs ].
    + simpl in Hc. rewrite Hc. reflexivity.
    + destruct Hc as [Hb Hc].
      destruct (Z.eqb_spec (Z.land b 128) 0) as [E | _]; [ contradiction | ].
      change (b' :: bs ++ rest) with ((b' :: bs) ++ rest).
      rewrite IH; [ reflexivity | exact Hc | simpl in *; lia ].
Qed.

(** The last byte of an encoding that stops there holds the top group. *)
Lemma nth_last_group (bs : list Z) :
  continued bs -> Forall is_byte bs ->
  nth (length bs - 1) bs 0 = leb_value bs / 128 ^ Z.of_nat (length bs - 1).
Proof.
  induction bs as [ | b bs IH ]; intros Hc Hall; [ destruct Hc | ].
  inversion Hall as [ | ? ? Hb Hall' ]; subst.
  destruct bs as [ | b' bs ].
  - simpl in Hc. simpl.
    assert (b < 128).
    { destruct (Z.ltb_spec b 128); [ assumption | ].
      exfalso. apply (land_0x80_high b); [ unfold is_byte in Hb; lia | exact Hc ]. }
    unfold is_byte in Hb. rewrite Z.mod_small by lia.
    rewrite ?Z.mul_0_r, ?Z.add_0_r, ?Z.div_1_r. reflexivity.
  - destruct Hc as [_ Hc]. specialize (IH Hc Hall').
    replace (length (b :: b' :: bs) - 1)%nat with (S (length (b' :: bs) - 1))
      by (simpl; lia).
    change (nth (S (length (b' :: bs) - 1)) (b :: b' :: bs) 0)
      with (nth (length (b' :: bs) - 1) (b' :: bs) 0).
    rewrite IH.
    rewrite pow128_succ.
    set (P := 128 ^ Z.of_nat (length (b' :: bs) - 1)).
    assert (0 < P) by apply pow128_pos.
    change (leb_value (b :: b' :: bs)) with (b mod 128 + 128 * leb_value (b' :: bs)).
    rewrite <- Z.div_div by lia.
    f_equal.
    rewrite Z.add_comm, Z.mul_comm, Z.div_add_l by lia.
    rewrite (Z.div_small (b mod 128)) by (apply Z.mod_pos_bound; lia).
    lia.
Qed.

End FinalByteFacts.

(** * Decoding what the encoder wrote *)

Section RoundTripFacts.
Import Serialization.
Import InputStreamInv.

Lemma div_range (v P a b : Z) :
  0 < P -> a * P <= v < b * P -> a <= v / P < b.
Proof.
  intros HP [Hlo Hhi]. split.
  - apply Z.div_le_lower_bound; lia.
  - apply Z.div_lt_upper_bound; lia.
Qed.

Lemma mod_mul_div (v P : Z) :
  0 < P -> (v mod (P * 128)) / P = (v / P) mod 128.
Proof.
  intros HP. rewrite Z.rem_mul_r by lia.
  rewrite Z.add_comm, Z.mul_comm, Z.div_add_l by lia.
  rewrite (Z.div_small (v mod P)) by (apply Z.mod_pos_bound; lia).
  lia.
Qed.

Lemma in_bit_range_representable (T : IntType) (maxBits v : Z) :
  1 <= maxBits <= bits T ->
  in_bit_range (is_signed T) maxBits v -> representable T v.
Proof.
  intros HB. unfold in_bit_range, representable, min_value, max_value.
  assert (2 ^ maxBits <= 2 ^ bits T) by (apply Z.pow_le_mono_r; lia).
  assert (2 ^ (maxBits - 1) <= 2 ^ (bits T - 1)) by (apply Z.pow_le_mono_r; lia).
  destruct (is_signed T); lia.
Qed.

Lemma in_bit_range_fits (sg : bool) (maxBits v : Z) :
  1 <= maxBits ->
  in_bit_range sg maxBits v -> fits sg (Z.to_nat (maxBytes_of maxBits)) v.
Proof.
  intros HB. unfold in_bit_range, fits.
  pose proof (maxBytes_of_pos maxBits HB) as Hm.
  rewrite pow128_pow2, Z2Nat.id by lia.
  assert (Hle : maxBits <= maxBytes_of maxBits * 7)
    by (unfold maxBytes_of; Z.div_mod_to_equations; lia).
  assert (2 ^ maxBits <= 2 ^ (maxBytes_of maxBits * 7))
    by (apply Z.pow_le_mono_r; lia).
  pose proof (pow2_split maxBits ltac:(lia)).
  destruct sg; lia.
Qed.

(** The buffer filled from an encoding of an in-range value passes the
    final-byte check. *)
Lemma final_byte_ok (T : IntType) (maxBits v : Z) (bs : list Z) :
  1 <= maxBits ->
  in_bit_range (is_signed T) maxBits v ->
  (1 <= length bs <= Z.to_nat (maxBytes_of maxBits))%nat ->
  continued bs -> Forall is_byte bs ->
  leb_value bs = v mod 128 ^ Z.of_nat (length bs) ->
  invalidFinalByte T maxBits
    (bs ++ repeat 0 (Z.to_nat (maxBytes_of maxBits) - length bs)) = false.
Proof.
  intros HB Hrange Hlen Hcont Hall Hval.
  pose proof (maxBytes_of_pos maxBits HB) as Hm.
  pose proof (numUsedBits_range maxBits HB) as Hu.
  pose proof (maxBits_split maxBits) as Hsplit.
  set (m := Z.to_nat (maxBytes_of maxBits)) in *.
  assert (Hm1 : Z.to_nat (maxBytes_of maxBits - 1) = (m - 1)%nat) by (unfold m; lia).
  destruct (Nat.eq_dec (length bs) m) as [Hfull | Hshort].
  - (* all of the buffer is used: the last byte is the top group of v *)
    assert (Hlast : nth (Z.to_nat (maxBytes_of maxBits - 1))
                        (bs ++ repeat 0 (m - length bs)) 0
                    = (v / 128 ^ Z.of_nat (m - 1)) mod 128).
    { rewrite Hm1, app_nth1 by lia.
      rewrite <- Hfull at 1. rewrite nth_last_group by assumption.
      rewrite Hval, Hfull.
      replace m with (S (m - 1)) at 1 by lia.
      rewrite pow128_succ, Z.mul_comm.
      apply mod_mul_div. apply pow128_pos. }
    assert (Hbyte : is_byte (nth (Z.to_nat (maxBytes_of maxBits - 1))
                                 (bs ++ repeat 0 (m - length bs)) 0)).
    { rewrite Hlast.
      pose proof (Z.mod_pos_bound (v / 128 ^ Z.of_nat (m - 1)) 128 ltac:(lia)).
      unfold is_byte; lia. }
    rewrite invalidFinalByte_eq by assumption. rewrite Hlast.
    set (P := 128 ^ Z.of_nat (m - 1)).
    assert (HP : 0 < P) by apply pow128_pos.
    assert (HPB : 2 ^ maxBits = P * 2 ^ numUsedBitsInHighestByte maxBits).
    { rewrite Hsplit at 1. rewrite Z.pow_add_r by lia.
      f_equal. unfold P. rewrite pow128_pow2. f_equal. lia. }
    remember (numUsedBitsInHighestByte maxBits) as u eqn:Eu.
    pose proof (pow2_split maxBits ltac:(lia)) as HsB.
    pose proof (pow2_split u ltac:(lia)) as Hsu.
    pose proof (pow2_pos (u - 1) ltac:(lia)) as Hpu.
    assert (H128 : 2 ^ u <= 128).
    { change 128 with (2 ^ 7). apply Z.pow_le_mono_r; lia. }
    unfold in_bit_range in Hrange.
    destruct (is_signed T).
    + assert (Hq : - 2 ^ (u - 1) <= v / P < 2 ^ (u - 1)).
      { apply div_range; [ assumption | nia ]. }
      rewrite orb_false_r.
      generalize dependent (v / P). intros q Hq.
      clear - Hq Hsu Hpu H128.
      destruct (Z.ltb_spec (q mod 128) (2 ^ u)); [ reflexivity | ].
      destruct (Z.leb_spec (128 - 2 ^ u) (q mod 128)),
        (Z.ltb_spec (q mod 128) 128); cbn [negb andb]; try reflexivity;
        exfalso; Z.div_mod_to_equations; lia.
    + assert (Hq : 0 <= v / P < 2 ^ u).
      { apply div_range; [ assumption | nia ]. }
      rewrite Z.mod_small by lia.
      destruct (Z.ltb_spec (v / P) (2 ^ u)); [ reflexivity | lia ].
  - (* the last byte of the buffer was never written *)
    assert (Hlast : nth (Z.to_nat (maxBytes_of maxBits - 1))
                        (bs ++ repeat 0 (m - length bs)) 0 = 0).
    { rewrite Hm1, app_nth2 by lia. apply nth_repeat. }
    assert (Hbyte : is_byte (nth (Z.to_nat (maxBytes_of maxBits - 1))
                                 (bs ++ repeat 0 (m - length bs)) 0)).
    { rewrite Hlast. unfold is_byte; lia. }
    rewrite invalidFinalByte_eq by assumption. rewrite Hlast.
    pose proof (pow2_pos (numUsedBitsInHighestByte maxBits) ltac:(lia)).
    destruct (Z.ltb_spec 0 (2 ^ numUsedBitsInHighestByte maxBits));
      [ reflexivity | lia ].
Qed.

Lemma promote_wide (T : IntType) : 32 <= bits T -> promote T = T.
Proof.
  intros H. unfold promote. destruct (Z.ltb_spec (bits T) 32); [ lia | reflexivity ].
Qed.

(** The sign extension recovers the value from its low [7n] bits. *)
Lemma sign_extend_ok (T : IntType) (maxBits v : Z) (n : nat) :
  1 <= maxBits <= bits T ->
  (is_signed T = true -> 32 <= bits T) ->
  in_bit_range (is_signed T) maxBits v ->
  fits (is_signed T) n v ->
  signExtend T (cast T (v mod 128 ^ Z.of_nat n)) (bits T - 7 * Z.of_nat n) = v.
Proof.
  intros HB Hwide Hrange Hfit. unfold signExtend.
  set (value := cast T (v mod 128 ^ Z.of_nat n)).
  set (s := bits T - 7 * Z.of_nat n).
  assert (Hw : 0 < bits T) by lia.
  pose proof (in_bit_range_representable T maxBits v HB Hrange) as Hrep.
  pose proof (pow128_pos n) as HP.
  unfold fits in Hfit.
  destruct (is_signed T) eqn:Hs; cbn [andb].
  - specialize (Hwide eq_refl).
    destruct (Z.gtb_spec s 0) as [Hpos | Hneg].
    + unfold shr, shl. rewrite promote_wide by assumption.
      rewrite Z.shiftl_mul_pow2 by lia.
      assert (H2W : 2 ^ bits T = 128 ^ Z.of_nat n * 2 ^ s).
      { rewrite pow128_pow2, <- Z.pow_add_r by lia. f_equal. unfold s. lia. }
      pose proof (pow2_pos s ltac:(lia)) as Hps.
      pose proof (pow2_split (bits T) Hw) as Hsw.
      assert (Hshl : cast T (value * 2 ^ s) = v * 2 ^ s).
      { rewrite <- (cast_id T (v * 2 ^ s)); [ | assumption | ].
        - apply cast_congr.
          rewrite Zmult_mod. unfold value. rewrite cast_mod by assumption.
          rewrite <- Zmult_mod.
          rewrite (Z.mod_eq v (128 ^ Z.of_nat n)) by lia.
          replace ((v - 128 ^ Z.of_nat n * (v / 128 ^ Z.of_nat n)) * 2 ^ s)
            with (v * 2 ^ s + (- (v / 128 ^ Z.of_nat n)) * 2 ^ bits T)
            by (rewrite H2W; ring).
          apply Z_mod_plus_full.
        - unfold representable, min_value, max_value. rewrite Hs. nia. }
      rewrite Hshl.
      rewrite Z.shiftr_div_pow2, Z.div_mul by lia.
      rewrite !(cast_id T v) by assumption. reflexivity.
    + unfold value.
      rewrite <- (cast_id T v) at 2 by assumption.
      apply cast_congr.
      rewrite pow128_pow2. apply mod_pow2_mod_pow2. unfold s in Hneg. lia.
  - unfold value. rewrite Z.mod_small by lia.
    apply cast_id; assumption.
Qed.

End RoundTripFacts.

(** * Encoding and decoding, put together *)

Section CodecFacts.
Import Serialization.
Import OutputStreamInv InputStreamInv.

Lemma initial_shift (T : IntType) :
  standard_width T -> cast int8 (cast int8 (bits T / 8) * 8) = bits T.
Proof.
  intros [H | [H | [H | H]]]; rewrite H; reflexivity.
Qed.

Lemma standard_width_bounds (T : IntType) : standard_width T -> 8 <= bits T <= 64.
Proof. intros [H | [H | [H | H]]]; lia. Qed.

Lemma maxBytes_le (maxBits w : Z) :
  1 <= maxBits <= w -> w <= 64 -> 1 <= maxBytes_of maxBits <= 10.
Proof. intros. unfold maxBytes_of. Z.div_mod_to_equations; lia. Qed.

(** The first loop on an input that starts with a well-formed encoding. *)
Lemma read_encoded (T : IntType) (maxBits : Z) (bs consumed rest : list Z) :
  standard_width T -> 1 <= maxBits <= bits T ->
  continued bs -> (length bs <= Z.to_nat (maxBytes_of maxBits))%nat ->
  readVarIntBytes (Z.to_nat (maxBytes_of maxBits))
                  (repeat 0 (Z.to_nat (maxBytes_of maxBits))) 0
                  (cast int8 (cast int8 (bits T / 8) * 8))
                  (at_ consumed (bs ++ rest))
  = (at_ (consumed ++ bs) rest,
     Returned (bs ++ repeat 0 (Z.to_nat (maxBytes_of maxBits) - length bs),
               length bs, bits T - 7 * Z.of_nat (length bs))).
Proof.
  intros Hstd HB Hcont Hlen.
  pose proof (standard_width_bounds T Hstd) as Hw.
  pose proof (maxBytes_le maxBits (bits T) HB ltac:(lia)) as Hm.
  rewrite initial_shift by assumption.
  pose proof (readVarIntBytes_spec (Z.to_nat (maxBytes_of maxBits)) []
                consumed (bs ++ rest) (bits T) ltac:(lia) ltac:(lia)) as H.
  rewrite taken_continued in H by assumption.
  cbn [app length Nat.add] in H. rewrite H.
  rewrite skipn_app, skipn_all, Nat.sub_diag. reflexivity.
Qed.

(** Whatever the decoder returns, its stream is the one the first loop
    left. *)
Lemma serializeVarInt_in_stream (T : IntType) (maxBits minValue maxValue : Z)
      (s s' : InputStream.t) (r : list Z * nat * Z) :
  readVarIntBytes (Z.to_nat (maxBytes_of maxBits))
                  (repeat 0 (Z.to_nat (maxBytes_of maxBits))) 0
                  (cast int8 (cast int8 (bits T / 8) * 8)) s
  = (s', Returned r) ->
  fst (serializeVarInt_in T maxBits minValue maxValue s) = s'.
Proof.
  intros H. unfold serializeVarInt_in, bind. rewrite H.
  destruct r as [[arr n] shift].
  destruct (invalidFinalByte T maxBits arr); [ reflexivity | ].
  match goal with |- context [if ?c then _ else _] => destruct c end; reflexivity.
Qed.

Lemma decode_encoded (T : IntType) (maxBits minValue maxValue v : Z)
      (bs consumed rest : list Z) :
  standard_width T -> 1 <= maxBits <= bits T ->
  (is_signed T = true -> 32 <= bits T) ->
  in_bit_range (is_signed T) maxBits v ->
  minValue <= v <= maxValue ->
  (1 <= length bs <= Z.to_nat (maxBytes_of maxBits))%nat ->
  continued bs -> Forall is_byte bs ->
  leb_value bs = v mod 128 ^ Z.of_nat (length bs) ->
  fits (is_signed T) (length bs) v ->
  serializeVarInt_in T maxBits minValue maxValue (at_ consumed (bs ++ rest))
  = (at_ (consumed ++ bs) rest, Returned v).
Proof.
  intros Hstd HB Hwide Hrange Hmm Hlen Hcont Hall Hval Hfit.
  pose proof (standard_width_bounds T Hstd) as Hw.
  unfold serializeVarInt_in, bind.
  rewrite read_encoded by (assumption || lia).
  rewrite final_byte_ok with (v := v) by (assumption || lia).
  set (m := Z.to_nat (maxBytes_of maxBits)) in *.
  assert (Hlenarr : length (bs ++ repeat 0 (m - length bs)) = m)
    by (rewrite length_app, repeat_length; lia).
  assert (Hallarr : Forall is_byte (bs ++ repeat 0 (m - length bs))).
  { apply Forall_app; split; [ assumption | ].
    apply Forall_forall; intros x Hx.
    apply repeat_spec in Hx; subst; unfold is_byte; lia. }
  pose proof (decodeVarIntBytes_spec T _ ltac:(lia) Hallarr) as Hdec.
  rewrite Hlenarr in Hdec. rewrite Hdec.
  rewrite leb_value_padded, Hval.
  rewrite sign_extend_ok with (maxBits := maxBits) by assumption.
  destruct (Z.ltb_spec v minValue); [ lia | ].
  destruct (Z.gtb_spec v maxValue); [ lia | ].
  reflexivity.
Qed.

Lemma encode_in_range (T : IntType) (maxBits minValue maxValue v : Z)
      (out : OutputStream.t) :
  0 < bits T -> 1 <= maxBits <= bits T ->
  in_bit_range (is_signed T) maxBits v ->
  minValue <= v <= maxValue ->
  wf out ->
  exists bs out',
    serializeVarInt_out T maxBits v minValue maxValue out = (out', Returned tt)
    /\ wf out'
    /\ OutputStream.getBytes out' = OutputStream.getBytes out ++ bs
    /\ (1 <= length bs <= Z.to_nat (maxBytes_of maxBits))%nat
    /\ continued bs
    /\ Forall is_byte bs
    /\ leb_value bs = v mod 128 ^ Z.of_nat (length bs)
    /\ fits (is_signed T) (length bs) v.
Proof.
  intros Hw HB Hrange Hmm Hwf.
  unfold serializeVarInt_out.
  destruct (Z.ltb_spec v minValue); [ lia | ].
  destruct (Z.gtb_spec v maxValue); [ lia | ].
  cbn [orb].
  apply serializeVarInt_loop_spec; try assumption.
  - pose proof (maxBytes_of_pos maxBits ltac:(lia)).
    assert (maxBytes_of maxBits <= bits T)
      by (unfold maxBytes_of; Z.div_mod_to_equations; lia).
    lia.
  - apply in_bit_range_fits; [ lia | assumption ].
Qed.

Lemma in_bit_range_between (sg : bool) (maxBits lo hi v : Z) :
  in_bit_range sg maxBits lo -> in_bit_range sg maxBits hi ->
  lo <= v <= hi -> in_bit_range sg maxBits v.
Proof. unfold in_bit_range. destruct sg; lia. Qed.

Lemma continued_nth (bs : list Z) :
  continued bs ->
  (forall i, (i < length bs - 1)%nat -> Z.land (nth i bs 0) 0x80 <> 0)
  /\ Z.land (nth (length bs - 1) bs 0) 0x80 = 0.
Proof.
  induction bs as [ | b bs IH ]; intros Hc; [ destruct Hc | ].
  destruct bs as [ | b' bs ].
  - simpl in *. split; [ intros i Hi; lia | exact Hc ].
  - destruct Hc as [Hb Hc]. destruct (IH Hc) as [IH1 IH2]. split.
    + intros [ | i ] Hi; [ exact Hb | ].
      change (nth (S i) (b :: b' :: bs) 0) with (nth i (b' :: bs) 0).
      apply IH1. simpl in *. lia.
    + replace (length (b :: b' :: bs) - 1)%nat with (S (length (b' :: bs) - 1))
        by (simpl; lia).
      exact IH2.
Qed.

(** The bounds of the helpers are those of a [maxBits]-bit integer. *)
Lemma helper_range (h : Helper) (v : Z) :
  helper_minValue h <= v <= helper_maxValue h
  <-> in_bit_range (helper_signed h) (helper_maxBits h) v.
Proof.
  destruct h; unfold in_bit_range; cbn;
    unfold UINT32_MAX, UINT64_MAX, INT32_MIN, INT32_MAX, INT64_MIN, INT64_MAX;
    lia.
Qed.

Lemma helper_bounds_cast (h : Helper) (T : IntType) :
  compatible h T ->
  cast T (helper_minValue h) = helper_minValue h
  /\ cast T (helper_maxValue h) = helper_maxValue h.
Proof.
  intros (Hstd & Hsg & Hbits).
  destruct T as [sg w]. cbn [is_signed bits] in *. subst sg.
  unfold standard_width in Hstd. cbn [bits] in Hstd.
  destruct Hstd as [-> | [-> | [-> | ->]]]; destruct h; cbn in Hbits; try lia;
    split; reflexivity.
Qed.

Lemma helper_maxBits_pos (h : Helper) : 1 <= helper_maxBits h.
Proof. destruct h; cbn; lia. Qed.

End CodecFacts.

(** * Theorems about the serialization *)

Section SerializationTheorems.
Import Serialization.
Import OutputStreamInv InputStreamInv.

(** C1.  For each of the helpers varuint1, varuint7, varuint32, varuint64,
    varint32 and varint64, used at an integer type of the helper's
    signedness that is at least as wide as the helper's bit-width, and for
    every value in the helper's declared range: writing the value to an
    output stream succeeds, appends some bytes [bs] to the stream, and reading
    from an input stream that stands before [bs] (followed by anything)
    returns the original value and leaves the cursor just after [bs]. *)
Theorem C1_varint_round_trip (h : Helper) (T : IntType) (v : Z)
        (out : OutputStream.t) :
  compatible h T ->
  helper_minValue h <= v <= helper_maxValue h ->
  wf out ->
  exists bs out',
    serializeHelper_out h T v out = (out', Returned tt)
    /\ OutputStream.getBytes out' = OutputStream.getBytes out ++ bs
    /\ forall consumed rest,
        serializeHelper_in h T (at_ consumed (bs ++ rest))
        = (at_ (consumed ++ bs) rest, Returned v).
Proof.
  intros Hcompat Hv Hwf.
  destruct (helper_bounds_cast h T Hcompat) as [Hmin Hmax].
  destruct Hcompat as (Hstd & Hsg & Hbits).
  pose proof (standard_width_bounds T Hstd) as Hw.
  pose proof (helper_maxBits_pos h) as HB.
  assert (Hrange : in_bit_range (is_signed T) (helper_maxBits h) v)
    by (rewrite Hsg; apply helper_range; exact Hv).
  unfold serializeHelper_out, serializeHelper_in. rewrite Hmin, Hmax.
  destruct (encode_in_range T (helper_maxBits h) (helper_minValue h)
                            (helper_maxValue h) v out)
    as (bs & out' & Henc & _ & Hbytes & Hlen & Hcont & Hall & Hval & Hfit);
    try assumption; try lia.
  exists bs, out'. split; [ exact Henc | ]. split; [ exact Hbytes | ].
  intros consumed rest.
  apply decode_encoded; try assumption; try lia.
  intros Hs. rewrite Hsg in Hs. destruct h; cbn in *; try discriminate; lia.
Qed.

Lemma C1_varint_round_trip_witness :
  compatible VarInt32 int32
  /\ helper_minValue VarInt32 <= -123456 <= helper_maxValue VarInt32
  /\ wf OutputStream.empty
  /\ exists bs out',
      serializeHelper_out VarInt32 int32 (-123456) OutputStream.empty
      = (out', Returned tt)
      /\ OutputStream.getBytes out' = OutputStream.getBytes OutputStream.empty ++ bs
      /\ forall consumed rest,
          serializeHelper_in VarInt32 int32 (at_ consumed (bs ++ rest))
          = (at_ (consumed ++ bs) rest, Returned (-123456)).
Proof.
  assert (Hc : compatible VarInt32 int32).
  { split; [ right; right; left; reflexivity | ].
    split; [ reflexivity | cbn; lia ]. }
  assert (Hv : helper_minValue VarInt32 <= -123456 <= helper_maxValue VarInt32).
  { cbn. unfold INT32_MIN, INT32_MAX. lia. }
  split; [ exact Hc | ]. split; [ exact Hv | ]. split; [ exact empty_wf | ].
  exact (C1_varint_round_trip VarInt32 int32 (-123456) OutputStream.empty
                              Hc Hv empty_wf).
Defined.

(** C10.  For a bit-width [maxBits] no wider than the integer type and
    bounds that are [maxBits]-bit integers of the type's signedness, the
    encoder writes, for every value within the bounds, at least one and at
    most ceil(maxBits/7) bytes; each byte but the last has bit 0x80 set and
    the last has it clear; and a decoder started on these bytes, whatever
    follows them, leaves the cursor exactly after them. *)
Theorem C10_encoder_length_and_continuation
        (T : IntType) (maxBits minValue maxValue v : Z) (out : OutputStream.t) :
  standard_width T ->
  1 <= maxBits <= bits T ->
  in_bit_range (is_signed T) maxBits minValue ->
  in_bit_range (is_signed T) maxBits maxValue ->
  minValue <= v <= maxValue ->
  wf out ->
  exists bs out',
    serializeVarInt_out T maxBits v minValue maxValue out = (out', Returned tt)
    /\ OutputStream.getBytes out' = OutputStream.getBytes out ++ bs
    /\ 1 <= Z.of_nat (length bs) <= (maxBits + 6) / 7
    /\ (forall i, (i < length bs - 1)%nat -> Z.land (nth i bs 0) 0x80 <> 0)
    /\ Z.land (nth (length bs - 1) bs 0) 0x80 = 0
    /\ forall consumed rest,
        fst (serializeVarInt_in T maxBits minValue maxValue
                                (at_ consumed (bs ++ rest)))
        = at_ (consumed ++ bs) rest.
Proof.
  intros Hstd HB Hlo Hhi Hv Hwf.
  pose proof (standard_width_bounds T Hstd) as Hw.
  pose proof (in_bit_range_between _ _ _ _ _ Hlo Hhi Hv) as Hrange.
  destruct (encode_in_range T maxBits minValue maxValue v out)
    as (bs & out' & Henc & _ & Hbytes & Hlen & Hcont & Hall & Hval & Hfit);
    try assumption; try lia.
  pose proof (maxBytes_of_pos maxBits ltac:(lia)) as Hm.
  destruct (continued_nth bs Hcont) as [Hinit Hlast].
  exists bs, out'.
  split; [ exact Henc | ]. split; [ exact Hbytes | ].
  split; [ fold (maxBytes_of maxBits); lia | ].
  split; [ exact Hinit | ]. split; [ exact Hlast | ].
  intros consumed rest.
  eapply serializeVarInt_in_stream.
  apply read_encoded; try assumption; lia.
Qed.

Lemma C10_encoder_length_and_continuation_witness :
  standard_width uint32
  /\ 1 <= 32 <= bits uint32
  /\ in_bit_range (is_signed uint32) 32 0
  /\ in_bit_range (is_signed uint32) 32 UINT32_MAX
  /\ 0 <= 624485 <= UINT32_MAX
  /\ wf OutputStream.empty
  /\ exists bs out',
      serializeVarInt_out uint32 32 624485 0 UINT32_MAX OutputStream.empty
      = (out', Returned tt)
      /\ OutputStream.getBytes out' = OutputStream.getBytes OutputStream.empty ++ bs
      /\ 1 <= Z.of_nat (length bs) <= (32 + 6) / 7
      /\ (forall i, (i < length bs - 1)%nat -> Z.land (nth i bs 0) 0x80 <> 0)
      /\ Z.land (nth (length bs - 1) bs 0) 0x80 = 0
      /\ forall consumed rest,
          fst (serializeVarInt_in uint32 32 0 UINT32_MAX
                                  (at_ consumed (bs ++ rest)))
          = at_ (consumed ++ bs) rest.
Proof.
  assert (H1 : standard_width uint32) by (right; right; left; reflexivity).
  assert (H2 : 1 <= 32 <= bits uint32) by (cbn; lia).
  assert (H3 : in_bit_range (is_signed uint32) 32 0) by (cbn; lia).
  assert (H4 : in_bit_range (is_signed uint32) 32 UINT32_MAX)
    by (unfold UINT32_MAX; cbn; lia).
  assert (H5 : 0 <= 624485 <= UINT32_MAX) by (unfold UINT32_MAX; lia).
  repeat (split; [ assumption || exact empty_wf | ]).
  exact (C10_encoder_length_and_continuation
           uint32 32 0 UINT32_MAX 624485 OutputStream.empty
           H1 H2 H3 H4 H5 empty_wf).
Defined.

(** C10, the claim as written, fails for bounds that are not [maxBits]-bit
    integers: [serializeVarInt<uint32,7>] with the bounds 0 and 255 writes the
    value 200 as the two bytes C8 01, more than ceil(7/7) = 1. *)
Lemma C10_wide_bounds_counterexample :
  exists out',
    serializeVarInt_out uint32 7 200 0 255 OutputStream.empty
    = (out', Returned tt)
    /\ 0 <= 200 <= 255
    /\ OutputStream.getBytes out' = [0xC8; 0x01]
    /\ (7 + 6) / 7 < Z.of_nat (length (OutputStream.getBytes out')).
Proof.
  eexists. split; [ vm_compute; reflexivity | ].
  split; [ lia | ]. split; [ reflexivity | ]. reflexivity.
Qed.

End SerializationTheorems.

Section SerializationTheorems2.
Import Serialization.
Import OutputStreamInv InputStreamInv.

Lemma more_false_iff (T : IntType) (residual group : Z) :
  is_signed T = true -> 0 < bits T ->
  more T residual group = false
  <-> (residual = 0 /\ Z.land group 0x40 = 0)
      \/ (residual = -1 /\ Z.land group 0x40 <> 0).
Proof.
  intros Hs Hw. unfold more. rewrite Hs, cast_minus_one by assumption.
  destruct (Z.eqb_spec residual 0), (Z.eqb_spec residual (-1)),
    (Z.eqb_spec (Z.land group 64) 0), (Z.geb_spec residual 0),
    (Z.ltb_spec residual 0); cbn [negb andb orb];
    split; intros Hgoal; try discriminate; try reflexivity; try lia.
Qed.

(** C8.  At every integer type a helper can be used at, 624485 written as
    varuint32 gives the bytes E5 8E 26 and -123456 written as varint32 gives
    the bytes C0 BB 78; the loop for a signed type stops exactly when the
    shifted value is 0 and bit 6 of the group is clear, or the shifted value
    is -1 and bit 6 of the group is set. *)
Theorem C8_encoding_examples (Tu Ts : IntType) (residual group : Z) :
  compatible VarUInt32 Tu ->
  compatible VarInt32 Ts ->
  encode VarUInt32 Tu 624485 = Returned [0xE5; 0x8E; 0x26]
  /\ encode VarInt32 Ts (-123456) = Returned [0xC0; 0xBB; 0x78]
  /\ (more Ts residual group = false
      <-> (residual = 0 /\ Z.land group 0x40 = 0)
          \/ (residual = -1 /\ Z.land group 0x40 <> 0)).
Proof.
  intros (Hstdu & Hsgu & Hbu) (Hstds & Hsgs & Hbs).
  split; [ | split ].
  - destruct Tu as [sg w]. cbn in Hsgu, Hbu. subst sg.
    destruct Hstdu as [H | [H | [H | H]]]; cbn in H; subst w; try lia;
      vm_compute; reflexivity.
  - destruct Ts as [sg w]. cbn in Hsgs, Hbs. subst sg.
    destruct Hstds as [H | [H | [H | H]]]; cbn in H; subst w; try lia;
      vm_compute; reflexivity.
  - apply more_false_iff; [ exact Hsgs | ].
    pose proof (standard_width_bounds Ts Hstds). lia.
Qed.

Lemma C8_encoding_examples_witness :
  compatible VarUInt32 uint32
  /\ compatible VarInt32 int32
  /\ encode VarUInt32 uint32 624485 = Returned [0xE5; 0x8E; 0x26]
  /\ encode VarInt32 int32 (-123456) = Returned [0xC0; 0xBB; 0x78]
  /\ (more int32 (-1) 0x78 = false
      <-> (-1 = 0 /\ Z.land 0x78 0x40 = 0)
          \/ (-1 = -1 /\ Z.land 0x78 0x40 <> 0)).
Proof.
  assert (Hu : compatible VarUInt32 uint32).
  { split; [ right; right; left; reflexivity | ].
    split; [ reflexivity | cbn; lia ]. }
  assert (Hs : compatible VarInt32 int32).
  { split; [ right; right; left; reflexivity | ].
    split; [ reflexivity | cbn; lia ]. }
  split; [ exact Hu | ]. split; [ exact Hs | ].
  exact (C8_encoding_examples uint32 int32 (-1) 0x78 Hu Hs).
Defined.

Lemma contains_intro (pre sub post : string) :
  contains (pre ++ sub ++ post)%string sub.
Proof. exists pre, post. reflexivity. Qed.

Lemma append_assoc (a b c : string) :
  ((a ++ b) ++ c)%string = (a ++ b ++ c)%string.
Proof. induction a as [ | ch a IH ]; simpl; [ | rewrite IH ]; reflexivity. Qed.

Lemma append_nil_r (a : string) : (a ++ "")%string = a.
Proof. induction a as [ | ch a IH ]; simpl; [ | rewrite IH ]; reflexivity. Qed.

Lemma out_of_range_message_contains (minValue value maxValue : Z) :
  contains (out_of_range_message minValue value maxValue) (to_string minValue)
  /\ contains (out_of_range_message minValue value maxValue) (to_string value)
  /\ contains (out_of_range_message minValue value maxValue) (to_string maxValue).
Proof.
  unfold out_of_range_message. split; [ | split ].
  - apply contains_intro.
  - exists ("out-of-range value: " ++ to_string minValue ++ "<=")%string,
           ("<=" ++ to_string maxValue)%string.
    rewrite !append_assoc. reflexivity.
  - exists ("out-of-range value: " ++ to_string minValue ++ "<="
              ++ to_string value ++ "<=")%string, ""%string.
    rewrite !append_assoc, append_nil_r. reflexivity.
Qed.

(** C5.  A value outside [minValue, maxValue] makes [serializeVarInt] throw
    a FatalSerializationException whose message is
    "out-of-range value: <min><=<value><=<max>", so that it contains both
    bounds and the value.  On an output stream the exception leaves the
    stream as it was: nothing is written.  On an input stream the exception
    comes after the bytes have been taken from the stream and decoded: the
    cursor stands behind them and the message carries the decoded value. *)
Theorem C5_range_check (T : IntType) (maxBits minValue maxValue : Z) :
  standard_width T ->
  1 <= maxBits <= bits T ->
  (forall value out,
      value < minValue \/ value > maxValue ->
      serializeVarInt_out T maxBits value minValue maxValue out
      = (out, Thrown (mkFatalSerializationException
                        (out_of_range_message minValue value maxValue))))
  /\ (forall consumed input bs,
         taken (Z.to_nat (maxBytes_of maxBits)) input = Some bs ->
         let buffer := bs ++ repeat 0 (Z.to_nat (maxBytes_of maxBits) - length bs) in
         let value :=
           signExtend T (decodeVarIntBytes T (Z.to_nat (maxBytes_of maxBits)) buffer)
                      (bits T - 7 * Z.of_nat (length bs)) in
         invalidFinalByte T maxBits buffer = false ->
         value < minValue \/ value > maxValue ->
         serializeVarInt_in T maxBits minValue maxValue (at_ consumed input)
         = (at_ (consumed ++ bs) (skipn (length bs) input),
            Thrown (mkFatalSerializationException
                      (out_of_range_message minValue value maxValue))))
  /\ (forall value,
         contains (out_of_range_message minValue value maxValue) (to_string minValue)
         /\ contains (out_of_range_message minValue value maxValue) (to_string value)
         /\ contains (out_of_range_message minValue value maxValue) (to_string maxValue)).
Proof.
  intros Hstd HB. split; [ | split ].
  - intros value out Hout. unfold serializeVarInt_out, throw.
    destruct (Z.ltb_spec value minValue), (Z.gtb_spec value maxValue);
      cbn [orb]; try reflexivity; lia.
  - intros consumed input bs Htaken buffer value Hvalid Hout.
    pose proof (standard_width_bounds T Hstd) as Hw.
    pose proof (maxBytes_le maxBits (bits T) HB ltac:(lia)) as Hm.
    unfold serializeVarInt_in, bind.
    rewrite initial_shift by assumption.
    pose proof (readVarIntBytes_spec (Z.to_nat (maxBytes_of maxBits)) []
                  consumed input (bits T) ltac:(lia) ltac:(lia)) as H.
    rewrite Htaken in H. cbn [app length Nat.add] in H. rewrite H.
    fold buffer. rewrite Hvalid. fold value. unfold throw.
    destruct (Z.ltb_spec value minValue), (Z.gtb_spec value maxValue);
      cbn [orb]; try reflexivity; lia.
  - intros value. apply out_of_range_message_contains.
Qed.

Lemma C5_range_check_witness :
  standard_width uint32
  /\ 1 <= 32 <= bits uint32
  /\ serializeVarInt_out uint32 32 11 0 10 OutputStream.empty
     = (OutputStream.empty,
        Thrown (mkFatalSerializationException "out-of-range value: 0<=11<=10"))
  /\ serializeVarInt_in uint32 32 0 10 (at_ [] [11; 7])
     = (at_ [11] [7],
        Thrown (mkFatalSerializationException "out-of-range value: 0<=11<=10")).
Proof.
  assert (H1 : standard_width uint32) by (right; right; left; reflexivity).
  assert (H2 : 1 <= 32 <= bits uint32) by (cbn; lia).
  split; [ exact H1 | ]. split; [ exact H2 | ].
  assert (Hgt : 11 < 0 \/ 11 > 10) by (right; reflexivity).
  pose proof (C5_range_check uint32 32 0 10 H1 H2) as (Hout & Hin & _).
  split.
  - exact (Hout 11 OutputStream.empty Hgt).
  - exact (Hin [] [11; 7] [11] eq_refl eq_refl Hgt).
Defined.

End SerializationTheorems2.

Section SerializationTheorems3.
Import Serialization.
Import OutputStreamInv InputStreamInv.

Lemma taken_full (bs rest : list Z) :
  bs <> [] ->
  Forall (fun b => Z.land b 0x80 <> 0) (removelast bs) ->
  taken (length bs) (bs ++ rest) = Some bs.
Proof.
  induction bs as [ | b bs IH ]; intros Hne Hall; [ contradiction | ].
  destruct bs as [ | b' bs ].
  - cbn. destruct (Z.land b 128 =? 0); reflexivity.
  - change (removelast (b :: b' :: bs)) with (b :: removelast (b' :: bs)) in Hall.
    inversion Hall as [ | ? ? Hb Hall' ]; subst.
    change (taken (length (b :: b' :: bs)) ((b :: b' :: bs) ++ rest))
      with (if Z.land b 0x80 =? 0 then Some [b]
            else option_map (cons b)
                            (taken (length (b' :: bs)) ((b' :: bs) ++ rest))).
    destruct (Z.eqb_spec (Z.land b 128) 0) as [E | _]; [ contradiction | ].
    rewrite IH; [ reflexivity | discriminate | exact Hall' ].
Qed.

Lemma nth_last (bs : list Z) : nth (length bs - 1) bs 0 = last bs 0.
Proof.
  induction bs as [ | b bs IH ]; [ reflexivity | ].
  destruct bs as [ | b' bs ]; [ reflexivity | ].
  replace (length (b :: b' :: bs) - 1)%nat with (S (length (b' :: bs) - 1))
    by (simpl; lia).
  change (nth (S (length (b' :: bs) - 1)) (b :: b' :: bs) 0)
    with (nth (length (b' :: bs) - 1) (b' :: bs) 0).
  rewrite IH. reflexivity.
Qed.

Lemma testbit_masked (x u i : Z) :
  0 <= u -> 0 <= i ->
  Z.testbit (Z.land x (Z.lnot (2 ^ u - 1))) i = Z.testbit x i && (u <=? i).
Proof.
  intros Hu Hi. rewrite Z.land_spec, Z.lnot_spec by assumption.
  replace (2 ^ u - 1) with (Z.ones u) by (rewrite Z.ones_equiv; lia).
  f_equal.
  destruct (Z.leb_spec u i).
  - rewrite Z.ones_spec_high by lia. reflexivity.
  - rewrite Z.ones_spec_low by lia. reflexivity.
Qed.

Lemma testbit_signed_mask (u j : Z) :
  1 <= u -> u <= j < 7 -> Z.testbit (128 - 2 ^ u) j = true.
Proof.
  intros Hu Hj.
  assert (Hc : u = 1 \/ u = 2 \/ u = 3 \/ u = 4 \/ u = 5 \/ u = 6) by lia.
  assert (Hd : j = 1 \/ j = 2 \/ j = 3 \/ j = 4 \/ j = 5 \/ j = 6) by lia.
  destruct Hc as [-> | [-> | [-> | [-> | [-> | ->]]]]];
    destruct Hd as [-> | [-> | [-> | [-> | [-> | ->]]]]];
    try lia; reflexivity.
Qed.

Lemma testbit_signed_mask_7 (u : Z) :
  1 <= u <= 7 -> Z.testbit (128 - 2 ^ u) 7 = false.
Proof.
  intros Hu.
  assert (Hc : u = 1 \/ u = 2 \/ u = 3 \/ u = 4 \/ u = 5 \/ u = 6 \/ u = 7) by lia.
  destruct Hc as [-> | [-> | [-> | [-> | [-> | [-> | ->]]]]]]; reflexivity.
Qed.

(** A byte with wrong unused high bits fails the final-byte check. *)
Lemma invalidFinalByte_bad (T : IntType) (maxBits : Z) (arr : list Z) :
  1 <= maxBits ->
  bad_final_byte T maxBits (nth (Z.to_nat (maxBytes_of maxBits - 1)) arr 0) ->
  invalidFinalByte T maxBits arr = true.
Proof.
  intros HB Hbad. unfold invalidFinalByte.
  set (x := nth (Z.to_nat (maxBytes_of maxBits - 1)) arr 0) in *.
  rewrite signedBitmask_eq, usedBitmask_eq by assumption.
  pose proof (numUsedBits_range maxBits HB) as Hu.
  set (u := numUsedBitsInHighestByte maxBits) in *.
  assert (Hbit : forall i, 0 <= i ->
            Z.testbit (Z.land x (Z.lnot (2 ^ u - 1))) i = Z.testbit x i && (u <=? i))
    by (intros; apply testbit_masked; lia).
  destruct Hbad as [H7 | [[i [Hi Hti]] Hsigned]].
  - assert (Hx7 : Z.testbit (Z.land x (Z.lnot (2 ^ u - 1))) 7 = true).
    { rewrite Hbit, H7 by lia. destruct (Z.leb_spec u 7); [ reflexivity | lia ]. }
    destruct (Z.eqb_spec (Z.land x (Z.lnot (2 ^ u - 1))) 0) as [E | _].
    { rewrite E in Hx7. rewrite Z.bits_0 in Hx7. discriminate. }
    destruct (Z.eqb_spec (Z.land x (Z.lnot (2 ^ u - 1))) (128 - 2 ^ u)) as [E | _].
    { rewrite E, testbit_signed_mask_7 in Hx7 by lia. discriminate. }
    reflexivity.
  - assert (Hxi : Z.testbit (Z.land x (Z.lnot (2 ^ u - 1))) i = true).
    { rewrite Hbit, Hti by lia. destruct (Z.leb_spec u i); [ reflexivity | lia ]. }
    destruct (Z.eqb_spec (Z.land x (Z.lnot (2 ^ u - 1))) 0) as [E | _].
    { rewrite E in Hxi. rewrite Z.bits_0 in Hxi. discriminate. }
    cbn [negb andb].
    destruct (is_signed T); [ | apply orb_true_r ].
    destruct (Hsigned eq_refl) as [j [Hj Htj]].
    destruct (Z.eqb_spec (Z.land x (Z.lnot (2 ^ u - 1))) (128 - 2 ^ u)) as [E | _];
      [ | reflexivity ].
    exfalso.
    assert (Hxj : Z.testbit (Z.land x (Z.lnot (2 ^ u - 1))) j = false).
    { rewrite Hbit, Htj by lia. reflexivity. }
    rewrite E, testbit_signed_mask in Hxj by lia. discriminate.
Qed.

(** C2 (as the code has it).  When the decoder has read ceil(maxBits/7)
    bytes -- each of them but the last with the continuation bit set -- and
    the last of them has its continuation bit set (the encoding goes on
    beyond ceil(maxBits/7) bytes), or has unused high bits that are not all
    zero and, for a signed type, not all one either, the decoder throws
    FatalSerializationException "Invalid LEB encoding: invalid final byte",
    with the cursor behind those bytes. *)
Theorem C2_invalid_final_byte (T : IntType) (maxBits minValue maxValue : Z)
        (consumed bs rest : list Z) :
  standard_width T ->
  1 <= maxBits <= bits T ->
  Z.of_nat (length bs) = (maxBits + 6) / 7 ->
  Forall (fun b => Z.land b 0x80 <> 0) (removelast bs) ->
  bad_final_byte T maxBits (last bs 0) ->
  serializeVarInt_in T maxBits minValue maxValue (at_ consumed (bs ++ rest))
  = (at_ (consumed ++ bs) rest,
     Thrown (mkFatalSerializationException
               "Invalid LEB encoding: invalid final byte")).
Proof.
  intros Hstd HB Hlen Hinit Hbad.
  pose proof (standard_width_bounds T Hstd) as Hw.
  pose proof (maxBytes_le maxBits (bits T) HB ltac:(lia)) as Hm.
  fold (maxBytes_of maxBits) in Hlen.
  assert (Hm' : Z.to_nat (maxBytes_of maxBits) = length bs) by lia.
  assert (Hne : bs <> []) by (intros ->; simpl in Hlen; lia).
  unfold serializeVarInt_in, bind.
  rewrite initial_shift by assumption.
  pose proof (readVarIntBytes_spec (Z.to_nat (maxBytes_of maxBits)) []
                consumed (bs ++ rest) (bits T) ltac:(lia) ltac:(lia)) as H.
  rewrite Hm', taken_full in H by assumption.
  cbn [app length Nat.add] in H. rewrite Hm', H.
  rewrite skipn_app, skipn_all, Nat.sub_diag. cbn [app skipn repeat].
  rewrite app_nil_r.
  rewrite invalidFinalByte_bad; [ reflexivity | lia | ].
  replace (Z.to_nat (maxBytes_of maxBits - 1)) with (length bs - 1)%nat by lia.
  rewrite nth_last. exact Hbad.
Qed.

Lemma C2_invalid_final_byte_witness :
  standard_width uint32
  /\ 1 <= 32 <= bits uint32
  /\ Z.of_nat (length [0xFF; 0xFF; 0xFF; 0xFF; 0x1F]) = (32 + 6) / 7
  /\ Forall (fun b => Z.land b 0x80 <> 0)
            (removelast [0xFF; 0xFF; 0xFF; 0xFF; 0x1F])
  /\ bad_final_byte uint32 32 (last [0xFF; 0xFF; 0xFF; 0xFF; 0x1F] 0)
  /\ serializeVarInt_in uint32 32 0 UINT32_MAX
                        (at_ [] ([0xFF; 0xFF; 0xFF; 0xFF; 0x1F] ++ [0x00]))
     = (at_ ([] ++ [0xFF; 0xFF; 0xFF; 0xFF; 0x1F]) [0x00],
        Thrown (mkFatalSerializationException
                  "Invalid LEB encoding: invalid final byte")).
Proof.
  assert (H1 : standard_width uint32) by (right; right; left; reflexivity).
  assert (H2 : 1 <= 32 <= bits uint32) by (cbn; lia).
  assert (H3 : Z.of_nat (length [0xFF; 0xFF; 0xFF; 0xFF; 0x1F]) = (32 + 6) / 7)
    by reflexivity.
  assert (H4 : Forall (fun b => Z.land b 0x80 <> 0)
                      (removelast [0xFF; 0xFF; 0xFF; 0xFF; 0x1F])).
  { cbn. repeat constructor; discriminate. }
  assert (H5 : bad_final_byte uint32 32 (last [0xFF; 0xFF; 0xFF; 0xFF; 0x1F] 0)).
  { right. split.
    - exists 4. split; [ cbn; lia | reflexivity ].
    - intros Hs. discriminate Hs. }
  repeat (split; [ assumption | ]).
  exact (C2_invalid_final_byte uint32 32 0 UINT32_MAX []
                               [0xFF; 0xFF; 0xFF; 0xFF; 0x1F] [0x00]
                               H1 H2 H3 H4 H5).
Defined.

(** C2, the claim as written, fails: the bytes E5 8E A6 00 decoded as
    varuint32 are not rejected; they give 624485. *)
Lemma C2_overlong_zero_group_accepted :
  decode VarUInt32 uint32 [0xE5; 0x8E; 0xA6; 0x00]
  = (InputStream.mk [0xE5; 0x8E; 0xA6; 0x00] 4 4, Returned 624485).
Proof. vm_compute. reflexivity. Qed.

Lemma ptr_add_small (ptrBits p n : Z) :
  0 <= p + n < 2 ^ ptrBits -> InputStreamPointers.ptr_add ptrBits p n = p + n.
Proof. intros H. unfold InputStreamPointers.ptr_add. apply Z.mod_small. exact H. Qed.

Lemma pointer_advance_eq (ptrBits numBytes : Z) (s : InputStreamPointers.t) :
  InputStreamPointers.advance ptrBits numBytes s
  = if InputStreamPointers.ptr_add ptrBits (InputStreamPointers.next s) numBytes
       >? InputStreamPointers.end_ s
    then (s, Thrown (mkFatalSerializationException
                       "expected data but found end of stream"))
    else (InputStreamPointers.mk
            (InputStreamPointers.ptr_add ptrBits (InputStreamPointers.next s)
                                         numBytes)
            (InputStreamPointers.end_ s),
          Returned (InputStreamPointers.next s)).
Proof.
  unfold InputStreamPointers.advance, InputStreamPointers.getMoreData,
    bind, get, put, ret, throw.
  destruct (InputStreamPointers.ptr_add ptrBits (InputStreamPointers.next s)
                                        numBytes >? InputStreamPointers.end_ s);
    reflexivity.
Qed.

Lemma pointer_peek_eq (ptrBits numBytes : Z) (s : InputStreamPointers.t) :
  InputStreamPointers.peek ptrBits numBytes s
  = if InputStreamPointers.ptr_add ptrBits (InputStreamPointers.next s) numBytes
       >? InputStreamPointers.end_ s
    then (s, Thrown (mkFatalSerializationException
                       "expected data but found end of stream"))
    else (s, Returned (InputStreamPointers.next s)).
Proof.
  unfold InputStreamPointers.peek, InputStreamPointers.getMoreData,
    bind, get, put, ret, throw.
  destruct (InputStreamPointers.ptr_add ptrBits (InputStreamPointers.next s)
                                        numBytes >? InputStreamPointers.end_ s);
    reflexivity.
Qed.




End SerializationTheorems3.

(** * Facts about pointer-sized arithmetic *)

Section UptrFacts.
Import LLVMJIT LoaderSpec.

Variable P : Platform.
Hypothesis HP : platform_ok P.

Lemma castU_id (x : Z) : 0 <= x < 2 ^ uptrBits P -> cast (Uptr P) x = x.
Proof.
  intros Hx. apply cast_id; [ apply HP | ].
  unfold representable, min_value, max_value; simpl. lia.
Qed.

Lemma castU_mod (x : Z) : cast (Uptr P) x = x mod 2 ^ uptrBits P.
Proof. reflexivity. Qed.

Lemma land_mod_r (y z w : Z) :
  0 <= w -> 0 <= y < 2 ^ w -> Z.land y (z mod 2 ^ w) = Z.land y z.
Proof.
  intros Hw Hy. apply Z.bits_inj'. intros i Hi.
  rewrite !Z.land_spec, Z.testbit_mod_pow2 by assumption.
  destruct (Z.ltb_spec i w); [ reflexivity | ].
  rewrite <- (Z.mod_small y (2 ^ w)) by assumption.
  rewrite Z.mod_pow2_bits_high by lia. reflexivity.
Qed.

Lemma pow2_le_uptr (j : Z) :
  0 <= j -> 2 ^ j < 2 ^ uptrBits P -> j < uptrBits P.
Proof.
  intros Hj Hlt. destruct HP as [Hw _].
  apply (Z.pow_lt_mono_r_iff 2); [ lia | lia | exact Hlt ].
Qed.

(** A multiple of [2^j] below [2^w] leaves room for [2^j] more. *)
Lemma multiple_below (j w q : Z) :
  0 <= j < w -> 2 ^ j * q < 2 ^ w -> 2 ^ j * q + 2 ^ j <= 2 ^ w.
Proof.
  intros Hj Hlt.
  assert (Hw : 2 ^ w = 2 ^ j * 2 ^ (w - j)).
  { rewrite <- Z.pow_add_r by lia. f_equal. lia. }
  pose proof (pow2_pos j ltac:(lia)). pose proof (pow2_pos (w - j) ltac:(lia)).
  rewrite Hw in *.
  assert (q < 2 ^ (w - j)) by nia.
  nia.
Qed.

Lemma round_up_bounds (x j : Z) :
  0 <= j -> x <= round_up x (2 ^ j) < x + 2 ^ j.
Proof.
  intros Hj. unfold round_up, ceil_div.
  pose proof (pow2_pos j Hj) as Ha.
  pose proof (Z.div_mod (x + 2 ^ j - 1) (2 ^ j) ltac:(lia)).
  pose proof (Z.mod_pos_bound (x + 2 ^ j - 1) (2 ^ j) Ha).
  lia.
Qed.

Lemma round_up_mod (x a : Z) : round_up x a mod a = 0.
Proof. unfold round_up. rewrite Z.mul_comm. apply Z_mod_mult. Qed.

(** [align] rounds up to the alignment when nothing wraps around. *)
Lemma align_round_up (x j : Z) :
  0 <= j -> 2 ^ j < 2 ^ uptrBits P ->
  0 <= x -> round_up x (2 ^ j) < 2 ^ uptrBits P ->
  align P x (2 ^ j) = round_up x (2 ^ j).
Proof.
  intros Hj Ha Hx Hr.
  pose proof (pow2_le_uptr j Hj Ha) as Hjw.
  pose proof (pow2_pos j Hj) as Hpos.
  assert (Hroom : x + 2 ^ j - 1 < 2 ^ uptrBits P).
  { pose proof (multiple_below j (uptrBits P) (ceil_div x (2 ^ j)) ltac:(lia) Hr).
    pose proof (round_up_bounds x j Hj). unfold round_up in *. lia. }
  unfold align.
  rewrite (castU_id (x + 2 ^ j - 1)) by lia.
  rewrite (castU_id (2 ^ j - 1)) by lia.
  rewrite castU_mod, land_mod_r by lia.
  rewrite land_lnot_ones by assumption. reflexivity.
Qed.

Lemma shrAndRoundUp_ceil_div (v : Z) :
  0 <= v -> v + pageSize P - 1 < 2 ^ uptrBits P ->
  shrAndRoundUp P v (getPageSizeLog2 P) = ceil_div v (pageSize P).
Proof.
  intros Hv Hroom. unfold shrAndRoundUp, ceil_div, pageSize in *.
  destruct HP as [Hw Hs].
  pose proof (pow2_pos (getPageSizeLog2 P) ltac:(lia)) as Hpos.
  assert (2 ^ getPageSizeLog2 P < 2 ^ uptrBits P)
    by (apply Z.pow_lt_mono_r; lia).
  rewrite Z.shiftl_mul_pow2, Z.mul_1_l by lia.
  rewrite (castU_id (2 ^ getPageSizeLog2 P)) by lia.
  rewrite castU_id by lia.
  apply Z.shiftr_div_pow2. lia.
Qed.

Lemma shl_pages (n : Z) :
  0 <= n * pageSize P < 2 ^ uptrBits P ->
  cast (Uptr P) (Z.shiftl n (getPageSizeLog2 P)) = n * pageSize P.
Proof.
  intros Hn. destruct HP as [Hw Hs].
  rewrite Z.shiftl_mul_pow2 by lia. apply castU_id. exact Hn.
Qed.

Lemma power_of_two_mask (j : Z) :
  0 <= j -> 2 ^ j < 2 ^ uptrBits P ->
  Z.land (2 ^ j) (cast (Uptr P) (2 ^ j - 1)) = 0.
Proof.
  intros Hj Ha. pose proof (pow2_pos j Hj).
  rewrite castU_id by lia.
  replace (2 ^ j - 1) with (Z.ones j) by (rewrite Z.ones_equiv; lia).
  rewrite Z.land_ones by assumption. apply Z_mod_same_full.
Qed.

Lemma aligned_mask (x j : Z) :
  0 <= j -> 2 ^ j < 2 ^ uptrBits P -> x mod 2 ^ j = 0 ->
  Z.land (cast (Uptr P) x) (cast (Uptr P) (2 ^ j - 1)) = 0.
Proof.
  intros Hj Ha Hx. pose proof (pow2_pos j Hj).
  pose proof (pow2_le_uptr j Hj Ha).
  rewrite (castU_id (2 ^ j - 1)) by lia.
  replace (2 ^ j - 1) with (Z.ones j) by (rewrite Z.ones_equiv; lia).
  rewrite Z.land_ones by assumption.
  rewrite castU_mod, mod_pow2_mod_pow2 by lia. exact Hx.
Qed.

End UptrFacts.

(** * Theorems about the section allocator *)

Section AllocatorTheorems.
Import LLVMJIT LoaderSpec.

(** C4 (as the code has it).  [allocateBytes], which [allocateCodeSection]
    and [allocateDataSection] call on their section, for a power-of-two
    alignment [a = 2^j], a size [n] and a non-finalized section with cursor
    [c] -- where assertions are compiled in, a section whose base is not null
    and is a multiple of [a] -- and when the sums below stay within [Uptr]:
    the pointer returned is the section base plus [c] rounded up to [a]; the
    new cursor is [c] rounded up to [a] plus [n] rounded up to [a]; and the
    call fails fatally exactly when that new cursor is greater than the
    reserved pages times the page size. *)
Theorem C4_allocateBytes (P : Platform) (numBytes j : Z) (section : Section_) :
  platform_ok P ->
  0 <= j -> 2 ^ j < 2 ^ uptrBits P ->
  0 <= numBytes -> 0 <= numCommittedBytes section ->
  round_up (numCommittedBytes section) (2 ^ j) + round_up numBytes (2 ^ j)
  < 2 ^ uptrBits P ->
  0 <= numPages section * pageSize P < 2 ^ uptrBits P ->
  (WAVM_ENABLE_ASSERTS P = true ->
   baseAddress section <> 0 /\ baseAddress section mod 2 ^ j = 0) ->
  allocateBytes P numBytes (2 ^ j) false section
  = if round_up (numCommittedBytes section) (2 ^ j) + round_up numBytes (2 ^ j)
         >? numPages section * pageSize P
    then Fatal "didn't reserve enough space in section"
    else Ok (baseAddress section + round_up (numCommittedBytes section) (2 ^ j),
             mkSection (baseAddress section) (numPages section)
                       (round_up (numCommittedBytes section) (2 ^ j)
                        + round_up numBytes (2 ^ j))).
Proof.
  intros HP Hj Ha Hn Hc Hsum Hres Hasserted.
  pose proof (round_up_bounds (numCommittedBytes section) j Hj) as Hrc.
  pose proof (round_up_bounds numBytes j Hj) as Hrn.
  unfold allocateBytes, wavmAssert.
  rewrite !align_round_up by (assumption || lia).
  rewrite (castU_id P HP (round_up (numCommittedBytes section) (2 ^ j)
                          + round_up numBytes (2 ^ j))) by lia.
  rewrite shl_pages by assumption.
  destruct (WAVM_ENABLE_ASSERTS P); [ | reflexivity ].
  destruct (Hasserted eq_refl) as [Hbase Haligned].
  rewrite power_of_two_mask by assumption.
  rewrite aligned_mask;
    [ | assumption | assumption | assumption
      | rewrite Z.add_mod, Haligned, round_up_mod by
          (pose proof (pow2_pos j Hj); lia); reflexivity ].
  destruct (Z.eqb_spec (baseAddress section) 0) as [E | _]; [ contradiction | ].
  reflexivity.
Qed.

Lemma C4_allocateBytes_witness :
  let P := platform64 false true (fun _ => 65536) (fun _ _ => true) in
  let section := mkSection 65536 1 0 in
  platform_ok P
  /\ 0 <= 4 /\ 2 ^ 4 < 2 ^ uptrBits P
  /\ 0 <= 1 /\ 0 <= numCommittedBytes section
  /\ round_up (numCommittedBytes section) (2 ^ 4) + round_up 1 (2 ^ 4)
     < 2 ^ uptrBits P
  /\ 0 <= numPages section * pageSize P < 2 ^ uptrBits P
  /\ (WAVM_ENABLE_ASSERTS P = true ->
      baseAddress section <> 0 /\ baseAddress section mod 2 ^ 4 = 0)
  /\ allocateBytes P 1 (2 ^ 4) false section
     = Ok (65536, mkSection 65536 1 16).
Proof.
  intros P section.
  assert (H1 : platform_ok P) by (unfold platform_ok; cbn; lia).
  assert (H2 : 0 <= 4) by lia.
  assert (H3 : 2 ^ 4 < 2 ^ uptrBits P) by (cbn; lia).
  assert (H4 : 0 <= 1) by lia.
  assert (H5 : 0 <= numCommittedBytes section) by (cbn; lia).
  assert (H6 : round_up (numCommittedBytes section) (2 ^ 4) + round_up 1 (2 ^ 4)
               < 2 ^ uptrBits P) by (vm_compute; reflexivity).
  assert (H7 : 0 <= numPages section * pageSize P < 2 ^ uptrBits P)
    by (vm_compute; split; [ discriminate | reflexivity ]).
  assert (H8 : WAVM_ENABLE_ASSERTS P = true ->
               baseAddress section <> 0 /\ baseAddress section mod 2 ^ 4 = 0).
  { intros _. split; [ cbn; lia | reflexivity ]. }
  repeat (split; [ assumption | ]).
  exact (C4_allocateBytes P 1 4 section H1 H2 H3 H4 H5 H6 H7 H8).
Defined.

(** C4, the claim as written, fails: with cursor 0, alignment 16 and a
    size of 1 the new cursor is 16, not 0 rounded up to 16 plus 1. *)
Lemma C4_cursor_counterexample :
  exists p section',
    allocateBytes (platform64 false true (fun _ => 65536) (fun _ _ => true))
                  1 16 false (mkSection 65536 1 0)
    = Ok (p, section')
    /\ numCommittedBytes section' = 16
    /\ numCommittedBytes section' <> round_up 0 16 + 1.
Proof.
  exists 65536, (mkSection 65536 1 16).
  split; [ vm_compute; reflexivity | ].
  split; [ reflexivity | vm_compute; discriminate ].
Qed.

(** C6 (as the code has it).  When the byte counts (the code bytes
    after adding 32 where Windows SEH is used) can be rounded up to pages
    within [Uptr] and the pages fit the address space,
    [reserveAllocationSpace] gives each section ceil(bytes / page_size)
    pages.  If the total is zero it makes no reservation and leaves the
    image base and the section bases as they were.  Otherwise it asks the
    platform for that many pages and commits them at the base it got -- a
    null base or a failed commit is fatal -- and sets the base of the code
    section to the image base, that of the read-only section to the end of
    the code pages and that of the read-write section to the end of the
    read-only pages. *)
Theorem C6_reserveAllocationSpace (P : Platform)
        (numCodeBytes codeAlignment numReadOnlyBytes readOnlyAlignment
                      numReadWriteBytes readWriteAlignment : Z)
        (mm : ModuleMemoryManager) :
  let codeBytes := if USE_WINDOWS_SEH P then numCodeBytes + 32 else numCodeBytes in
  let codePages := ceil_div codeBytes (pageSize P) in
  let readOnlyPages := ceil_div numReadOnlyBytes (pageSize P) in
  let readWritePages := ceil_div numReadWriteBytes (pageSize P) in
  let total := codePages + readOnlyPages + readWritePages in
  platform_ok P ->
  0 <= numCodeBytes -> 0 <= numReadOnlyBytes -> 0 <= numReadWriteBytes ->
  codeBytes + pageSize P - 1 < 2 ^ uptrBits P ->
  numReadOnlyBytes + pageSize P - 1 < 2 ^ uptrBits P ->
  numReadWriteBytes + pageSize P - 1 < 2 ^ uptrBits P ->
  total * pageSize P < 2 ^ uptrBits P ->
  reserveAllocationSpace P numCodeBytes codeAlignment numReadOnlyBytes
                         readOnlyAlignment numReadWriteBytes readWriteAlignment mm
  = if total =? 0
    then Ok (mkModuleMemoryManager
               (imageBaseAddress mm) 0 (isFinalized mm)
               (mkSection (baseAddress (codeSection mm)) 0
                          (numCommittedBytes (codeSection mm)))
               (mkSection (baseAddress (readOnlySection mm)) 0
                          (numCommittedBytes (readOnlySection mm)))
               (mkSection (baseAddress (readWriteSection mm)) 0
                          (numCommittedBytes (readWriteSection mm)))
               (platformCalls mm))
    else
      let base := allocateVirtualPages P total in
      if (base =? 0) || negb (commitVirtualPages P base total)
      then Fatal "memory allocation for JIT code failed"
      else Ok (mkModuleMemoryManager
                 base total (isFinalized mm)
                 (mkSection base codePages (numCommittedBytes (codeSection mm)))
                 (mkSection (base + codePages * pageSize P) readOnlyPages
                            (numCommittedBytes (readOnlySection mm)))
                 (mkSection (base + codePages * pageSize P
                             + readOnlyPages * pageSize P)
                            readWritePages
                            (numCommittedBytes (readWriteSection mm)))
                 (platformCalls mm
                    ++ [AllocateVirtualPages total; CommitVirtualPages base total])).
Proof.
  intros codeBytes codePages readOnlyPages readWritePages total
         HP Hc Hro Hrw Hcroom Hroroom Hrwroom Hfit.
  assert (Hps : 0 < pageSize P).
  { unfold pageSize. apply pow2_pos. destruct HP as [_ ?]. lia. }
  assert (Hcb : 0 <= codeBytes) by (unfold codeBytes; destruct (USE_WINDOWS_SEH P); lia).
  assert (Hdiv : forall x, 0 <= x -> 0 <= ceil_div x (pageSize P)).
  { intros x Hx. unfold ceil_div. apply Z.div_pos; lia. }
  pose proof (Hdiv _ Hcb) as Hcp. fold codePages in Hcp.
  pose proof (Hdiv _ Hro) as Hrop. fold readOnlyPages in Hrop.
  pose proof (Hdiv _ Hrw) as Hrwp. fold readWritePages in Hrwp.
  assert (Htot : 0 <= total < 2 ^ uptrBits P) by (unfold total; nia).
  unfold reserveAllocationSpace.
  assert (Hcode : (if USE_WINDOWS_SEH P
                   then cast (Uptr P) (numCodeBytes + 32) else numCodeBytes)
                  = codeBytes).
  { unfold codeBytes in *. destruct (USE_WINDOWS_SEH P); [ | reflexivity ].
    apply castU_id; [ assumption | lia ]. }
  rewrite Hcode.
  rewrite !shrAndRoundUp_ceil_div by assumption.
  fold codePages readOnlyPages readWritePages total.
  rewrite (castU_id P HP total) by assumption.
  destruct (Z.eqb_spec total 0) as [E0 | Hne].
  - cbn [negb].
    assert (E1 : codePages = 0) by (unfold total in E0; lia).
    assert (E2 : readOnlyPages = 0) by (unfold total in E0; lia).
    assert (E3 : readWritePages = 0) by (unfold total in E0; lia).
    rewrite E0, E1, E2, E3. reflexivity.
  - cbn [negb].
    destruct (allocateVirtualPages P total =? 0); [ reflexivity | ].
    cbn [orb].
    destruct (commitVirtualPages P (allocateVirtualPages P total) total);
      [ | reflexivity ].
    cbn [negb].
    rewrite !shl_pages by (try assumption; unfold total in *; nia).
    rewrite <- app_assoc. reflexivity.
Qed.

End AllocatorTheorems.

Section AllocatorTheorems2.
Import LLVMJIT LoaderSpec.

Lemma C6_reserveAllocationSpace_witness :
  let P := platform64 false true (fun _ => 65536) (fun _ _ => true) in
  platform_ok P
  /\ 0 <= 100 /\ 0 <= 8 /\ 0 <= 8
  /\ 100 + pageSize P - 1 < 2 ^ uptrBits P
  /\ 8 + pageSize P - 1 < 2 ^ uptrBits P
  /\ 8 + pageSize P - 1 < 2 ^ uptrBits P
  /\ (ceil_div 100 (pageSize P) + ceil_div 8 (pageSize P)
      + ceil_div 8 (pageSize P)) * pageSize P < 2 ^ uptrBits P
  /\ reserveAllocationSpace P 100 16 8 8 8 8 (newModuleMemoryManager 7)
     = Ok (mkModuleMemoryManager
             65536 3 false
             (mkSection 65536 1 0) (mkSection 69632 1 0) (mkSection 73728 1 0)
             [AllocateVirtualPages 3; CommitVirtualPages 65536 3]).
Proof.
  intros P.
  assert (H1 : platform_ok P) by (unfold platform_ok; cbn; lia).
  assert (H2 : 0 <= 100) by lia.
  assert (H3 : 0 <= 8) by lia.
  assert (H4 : 100 + pageSize P - 1 < 2 ^ uptrBits P) by reflexivity.
  assert (H5 : 8 + pageSize P - 1 < 2 ^ uptrBits P) by reflexivity.
  assert (H6 : (ceil_div 100 (pageSize P) + ceil_div 8 (pageSize P)
                + ceil_div 8 (pageSize P)) * pageSize P < 2 ^ uptrBits P)
    by reflexivity.
  repeat (split; [ assumption | ]).
  exact (C6_reserveAllocationSpace P 100 16 8 8 8 8 (newModuleMemoryManager 7)
                                   H1 H2 H3 H3 H4 H5 H5 H6).
Defined.

(** C6, the claim as written, fails.  With [numCodeBytes = 2^64 - 1] the
    rounding wraps around and the code section gets 0 pages, not
    ceil((2^64 - 1) / 4096) = 2^52.  And when all three sizes are 0 the
    function returns without asking the platform for any range, and leaves
    the image base as it was. *)
Lemma C6_page_count_counterexample :
  let P := platform64 false true (fun _ => 65536) (fun _ _ => true) in
  (exists mm',
      reserveAllocationSpace P (2 ^ 64 - 1) 16 0 1 0 1 (newModuleMemoryManager 7)
      = Ok mm'
      /\ numPages (codeSection mm') = 0
      /\ ceil_div (2 ^ 64 - 1) (pageSize P) = 2 ^ 52)
  /\ (exists mm',
         reserveAllocationSpace P 0 16 0 1 0 1 (newModuleMemoryManager 7) = Ok mm'
         /\ platformCalls mm' = []
         /\ imageBaseAddress mm' = 0).
Proof.
  intros P. split.
  - eexists. split; [ vm_compute; reflexivity | ].
    split; vm_compute; reflexivity.
  - eexists. split; [ vm_compute; reflexivity | ].
    split; reflexivity.
Qed.

(** C9.  The claim does not hold of the code: the constructor of
    [LoadedModule] inserts into the process-wide map without taking the
    mutex, whereas the destructor and [getJITFunctionByAddress] take it
    before they touch the map and release it afterwards. *)
Theorem C9_emplace_without_mutex (P : Platform) (m : LoadedModule)
        (index : map_ LoadedModule) (address : Z) :
  events (publishModule P m (mkGlobal index [])) = [MapEmplace (imageEnd P m)]
  /\ guarded false (events (publishModule P m (mkGlobal index []))) = false
  /\ events (destroyModule P m (mkGlobal index []))
     = [LockMutex; MapErase (imageEnd P m); UnlockMutex]
  /\ guarded false (events (destroyModule P m (mkGlobal index []))) = true
  /\ events (fst (getJITFunctionByAddress P address (mkGlobal index [])))
     = [LockMutex; MapUpperBound address; UnlockMutex]
  /\ guarded false
       (events (fst (getJITFunctionByAddress P address (mkGlobal index []))))
     = true.
Proof.
  assert (Hget : events (fst (getJITFunctionByAddress P address (mkGlobal index [])))
                 = [LockMutex; MapUpperBound address; UnlockMutex]).
  { unfold getJITFunctionByAddress. cbn [addressToModuleMap events emit app].
    destruct (upper_bound address index) as [[e jitModule] | ]; [ | reflexivity ].
    destruct (upper_bound address (addressToFunctionMap jitModule))
      as [[k function] | ]; [ | reflexivity ].
    match goal with |- context [if ?c then _ else _] => destruct c end; reflexivity. }
  repeat split; try reflexivity; try exact Hget.
  rewrite Hget. reflexivity.
Qed.

End AllocatorTheorems2.

(** * The ordered map and the lookup by address *)

Section MapFacts.
Import LLVMJIT LoaderSpec.

Context {V : Type}.

Lemma upper_bound_None (a : Z) (m : map_ V) :
  upper_bound a m = None <-> forall k v, In (k, v) m -> k <= a.
Proof.
  unfold upper_bound. split.
  - intros H k v Hin. pose proof (find_none _ _ H (k, v) Hin) as Hk.
    cbn in Hk. lia.
  - intros H. destruct (find _ m) as [[k v] | ] eqn:E; [ | reflexivity ].
    apply find_some in E. destruct E as [Hin Hlt]. cbn in Hlt.
    specialize (H k v Hin). lia.
Qed.

Lemma sorted_keys_tail (entry : Z * V) (m : map_ V) :
  sorted_keys (entry :: m) ->
  sorted_keys m /\ forall k v, In (k, v) m -> fst entry < k.
Proof.
  unfold sorted_keys. cbn [map]. intros H.
  apply StronglySorted_inv in H. destruct H as [Hs Hall]. split; [ exact Hs | ].
  intros k v Hin. rewrite Forall_forall in Hall. apply Hall.
  apply in_map_iff. exists (k, v). split; [ reflexivity | exact Hin ].
Qed.

Lemma sorted_keys_unique (m : map_ V) (k : Z) (v1 v2 : V) :
  sorted_keys m -> In (k, v1) m -> In (k, v2) m -> v1 = v2.
Proof.
  induction m as [ | entry m IH ]; intros Hs H1 H2; [ destruct H1 | ].
  destruct (sorted_keys_tail _ _ Hs) as [Hs' Hgt].
  destruct H1 as [-> | H1], H2 as [E | H2].
  - congruence.
  - specialize (Hgt k v2 H2). cbn in Hgt. lia.
  - subst entry. specialize (Hgt k v1 H1). cbn in Hgt. lia.
  - apply IH; assumption.
Qed.

Lemma upper_bound_first_above (a : Z) (m : map_ V) (entry : Z * V) :
  sorted_keys m -> upper_bound a m = Some entry -> first_above a entry m.
Proof.
  induction m as [ | [k0 v0] m IH ]; intros Hs H; [ discriminate | ].
  destruct (sorted_keys_tail _ _ Hs) as [Hs' Hgt]. cbn [fst] in Hgt.
  unfold upper_bound in H. cbn [find fst] in H.
  destruct (Z.ltb_spec a k0) as [Hlt | Hge].
  - injection H as <-. split; [ left; reflexivity | ]. split; [ exact Hlt | ].
    intros k v [E | Hin] _; cbn [fst].
    + injection E as <- _. lia.
    + specialize (Hgt k v Hin). lia.
  - destruct (IH Hs' H) as (Hin & Ha & Hmin).
    split; [ right; exact Hin | ]. split; [ exact Ha | ].
    intros k v [E | Hin'] Hk.
    + injection E as <- _. lia.
    + apply (Hmin k v Hin' Hk).
Qed.

Lemma first_above_upper_bound (a : Z) (m : map_ V) (entry : Z * V) :
  sorted_keys m -> first_above a entry m -> upper_bound a m = Some entry.
Proof.
  intros Hs (Hin & Ha & Hmin).
  destruct (upper_bound a m) as [[k v] | ] eqn:E.
  - destruct (upper_bound_first_above a m (k, v) Hs E) as (Hin' & Ha' & Hmin').
    cbn [fst] in *. destruct entry as [k1 v1]. cbn [fst] in *.
    assert (k = k1).
    { pose proof (Hmin k v Hin' Ha'). pose proof (Hmin' k1 v1 Hin Ha). lia. }
    subst k1. f_equal. f_equal.
    apply (sorted_keys_unique m k); assumption.
  - destruct entry as [k1 v1]. cbn [fst] in *.
    pose proof (proj1 (upper_bound_None a m) E k1 v1 Hin). lia.
Qed.

Lemma upper_bound_In (a : Z) (m : map_ V) (entry : Z * V) :
  upper_bound a m = Some entry -> In entry m /\ a < fst entry.
Proof.
  unfold upper_bound. intros H. apply find_some in H.
  destruct H as [Hin Hlt]. split; [ exact Hin | lia ].
Qed.

End MapFacts.

Section LookupFacts.
Import LLVMJIT LoaderSpec.

Variable P : Platform.
Hypothesis HP : platform_ok P.

Lemma castU_range (x : Z) : 0 <= cast (Uptr P) x < 2 ^ uptrBits P.
Proof.
  rewrite (castU_mod P). apply Z.mod_pos_bound. apply pow2_pos.
  destruct HP. lia.
Qed.

Lemma castU_le (x : Z) : 0 <= x -> cast (Uptr P) x <= x.
Proof.
  intros Hx. rewrite (castU_mod P). apply Z.mod_le; [ exact Hx | ].
  apply pow2_pos. destruct HP. lia.
Qed.

(** Once [address] is below the key of [f], the test of the lookup is
    whether [f] covers [address]. *)
Lemma range_test_covers (f : JITFunction.t) (address : Z) :
  typed P f ->
  address < cast (Uptr P) (JITFunction.baseAddress f + JITFunction.numBytes f) ->
  (address >=? JITFunction.baseAddress f)
  && (address <? cast (Uptr P) (JITFunction.baseAddress f
                                + JITFunction.numBytes f))
  = covers f address.
Proof.
  intros [Hb Hn] Hlt. unfold covers.
  pose proof (castU_le (JITFunction.baseAddress f + JITFunction.numBytes f)
                       ltac:(lia)).
  destruct (Z.geb_spec address (JITFunction.baseAddress f)),
    (Z.ltb_spec address
       (cast (Uptr P) (JITFunction.baseAddress f + JITFunction.numBytes f))),
    (Z.leb_spec (JITFunction.baseAddress f) address),
    (Z.ltb_spec address (JITFunction.baseAddress f + JITFunction.numBytes f));
    cbn [andb]; try reflexivity; lia.
Qed.

Lemma range_test_implies_covers (f : JITFunction.t) (address : Z) :
  typed P f ->
  (address >=? JITFunction.baseAddress f)
  && (address <? cast (Uptr P) (JITFunction.baseAddress f
                                + JITFunction.numBytes f)) = true ->
  covers f address = true.
Proof.
  intros Ht H. apply andb_true_iff in H. destruct H as [Hge Hlt].
  apply Z.ltb_lt in Hlt.
  rewrite <- (range_test_covers f address Ht Hlt).
  apply andb_true_iff. split; [ exact Hge | apply Z.ltb_lt; exact Hlt ].
Qed.

End LookupFacts.

Section LookupTheorems.
Import LLVMJIT LoaderSpec.

Lemma JITFunction_eq_dec (f1 f2 : JITFunction.t) : {f1 = f2} + {f1 <> f2}.
Proof.
  decide equality; try apply Z.eq_dec.
  apply list_eq_dec. decide equality; apply Z.eq_dec.
Qed.

Lemma getJITFunctionByAddress_result (P : Platform) (address : Z) (g : Global) :
  snd (getJITFunctionByAddress P address g)
  = match upper_bound address (addressToModuleMap g) with
    | None => None
    | Some (_, jitModule) =>
      match upper_bound address (addressToFunctionMap jitModule) with
      | None => None
      | Some (_, function) =>
        if (address >=? JITFunction.baseAddress function)
           && (address <? cast (Uptr P) (JITFunction.baseAddress function
                                         + JITFunction.numBytes function))
        then Some function
        else None
      end
    end.
Proof.
  unfold getJITFunctionByAddress. cbn [addressToModuleMap].
  destruct (upper_bound address (addressToModuleMap g)) as [[e jitModule] | ];
    [ | reflexivity ].
  destruct (upper_bound address (addressToFunctionMap jitModule))
    as [[k function] | ]; [ | reflexivity ].
  match goal with |- context [if ?c then _ else _] => destruct c end; reflexivity.
Qed.

(** What the lookup finds is a loaded function that covers the address. *)
Lemma found_is_loaded (P : Platform) (address : Z) (g : Global)
      (f : JITFunction.t) :
  platform_ok P -> keyed P g ->
  snd (getJITFunctionByAddress P address g) = Some f ->
  exists m, loaded g m f /\ covers f address = true.
Proof.
  intros HP Hk. rewrite getJITFunctionByAddress_result.
  destruct (upper_bound address (addressToModuleMap g)) as [[e m] | ] eqn:Em;
    [ | discriminate ].
  destruct (upper_bound address (addressToFunctionMap m)) as [[k f'] | ] eqn:Ef;
    [ | discriminate ].
  destruct (upper_bound_In _ _ _ Em) as [Hinm _].
  destruct (upper_bound_In _ _ _ Ef) as [Hinf _].
  destruct (functions_keyed P g Hk e m k f' Hinm Hinf) as [Ht _].
  match goal with |- context [if ?c then _ else _] => destruct c eqn:Etest end;
    [ | discriminate ].
  intros H. injection H as <-.
  exists m. split; [ exists e, k; split; assumption | ].
  apply (range_test_implies_covers P HP); assumption.
Qed.

(** C3.  In every state of the two maps in which the entries are in the
    order of their keys and each function is under the key of its end:
    [getJITFunctionByAddress] gives none when no module has a key above the
    address; otherwise it takes the first module whose key is above the
    address and gives none when none of that module's functions has a key
    above the address; otherwise it takes the first such function and gives
    it exactly when the address is in [base, base + length).  So, when
    functions lie in the image of their module and neither functions nor
    images overlap, every address in [f.base, f.base + f.length) of a loaded
    function f finds f; an address that no loaded function covers finds
    none; and so does the address f.base + f.length when no other loaded
    function covers it. *)
Theorem C3_getJITFunctionByAddress (P : Platform) (g : Global) (address : Z) :
  platform_ok P ->
  keyed P g ->
  let found := snd (getJITFunctionByAddress P address g) in
  ((forall e m, In (e, m) (addressToModuleMap g) -> e <= address) ->
   found = None)
  /\ (forall e m,
         first_above address (e, m) (addressToModuleMap g) ->
         (forall k f, In (k, f) (addressToFunctionMap m) -> k <= address) ->
         found = None)
  /\ (forall e m k f,
         first_above address (e, m) (addressToModuleMap g) ->
         first_above address (k, f) (addressToFunctionMap m) ->
         found = if covers f address then Some f else None)
  /\ (laid_out P g ->
      forall m f, loaded g m f -> covers f address = true -> found = Some f)
  /\ ((forall m f, loaded g m f -> covers f address = false) -> found = None)
  /\ (forall m f,
         loaded g m f ->
         address = JITFunction.baseAddress f + JITFunction.numBytes f ->
         (forall m' f', loaded g m' f' -> f' <> f -> covers f' address = false) ->
         found = None).
Proof.
  intros HP Hk found.
  assert (Hnone : forall e m,
             first_above address (e, m) (addressToModuleMap g) ->
             (forall k f, In (k, f) (addressToFunctionMap m) -> k <= address) ->
             found = None).
  { intros e m Hfirst Hall. unfold found.
    rewrite getJITFunctionByAddress_result.
    rewrite (first_above_upper_bound _ _ _ (index_sorted P g Hk) Hfirst).
    rewrite (proj2 (upper_bound_None address (addressToFunctionMap m)) Hall).
    reflexivity. }
  assert (Hsome : forall e m k f,
             first_above address (e, m) (addressToModuleMap g) ->
             first_above address (k, f) (addressToFunctionMap m) ->
             found = if covers f address then Some f else None).
  { intros e m k f Hm Hf. unfold found.
    rewrite getJITFunctionByAddress_result.
    rewrite (first_above_upper_bound _ _ _ (index_sorted P g Hk) Hm).
    destruct Hm as (Hinm & _ & _).
    rewrite (first_above_upper_bound _ _ _ (functions_sorted P g Hk e m Hinm) Hf).
    destruct Hf as (Hinf & Hlt & _). cbn [fst] in Hlt.
    destruct (functions_keyed P g Hk e m k f Hinm Hinf) as [Ht Hkey].
    rewrite range_test_covers; [ reflexivity | assumption | assumption | ].
    rewrite <- Hkey. exact Hlt. }
  assert (Huncovered : (forall m f, loaded g m f -> covers f address = false) ->
                       found = None).
  { intros Hall. destruct found as [f | ] eqn:E; [ | reflexivity ].
    destruct (found_is_loaded P address g f HP Hk E) as (m & Hl & Hc).
    rewrite (Hall m f Hl) in Hc. discriminate. }
  split; [ | split; [ exact Hnone | split; [ exact Hsome | split; [ | split ] ] ] ].
  - intros Hall. unfold found. rewrite getJITFunctionByAddress_result.
    rewrite (proj2 (upper_bound_None address (addressToModuleMap g)) Hall).
    reflexivity.
  - intros Hlay m f (e & k & Hinm & Hinf) Hcov.
    unfold covers in Hcov. apply andb_true_iff in Hcov.
    destruct Hcov as [Hlo Hhi]. apply Z.leb_le in Hlo. apply Z.ltb_lt in Hhi.
    destruct (modules_keyed P g Hlay e m Hinm) as [He Hbase].
    destruct (functions_inside P g Hlay e m k f Hinm Hinf) as [Hfb Hfe].
    destruct (functions_keyed P g Hk e m k f Hinm Hinf) as [[Htb Htn] Hkey].
    assert (Helt : e < 2 ^ uptrBits P).
    { rewrite He. unfold imageEnd. apply (castU_range P HP). }
    assert (Hkeq : k = JITFunction.baseAddress f + JITFunction.numBytes f).
    { rewrite Hkey. apply (castU_id P HP). lia. }
    rewrite (Hsome e m k f).
    + unfold covers.
      destruct (Z.leb_spec (JITFunction.baseAddress f) address); [ | lia ].
      destruct (Z.ltb_spec address
                  (JITFunction.baseAddress f + JITFunction.numBytes f));
        [ reflexivity | lia ].
    + split; [ exact Hinm | ]. cbn [fst]. split; [ lia | ].
      intros e' m' Hin' Hgt.
      destruct (Z.eq_dec e e') as [ | Hne ]; [ lia | ].
      destruct (modules_keyed P g Hlay e' m' Hin') as [_ Hbase'].
      destruct (images_apart P g Hlay e m e' m' Hinm Hin' Hne); lia.
    + split; [ exact Hinf | ]. cbn [fst]. split; [ lia | ].
      intros k' f' Hin' Hgt.
      destruct (Z.eq_dec k k') as [ | Hne ]; [ lia | ].
      destruct (functions_inside P g Hlay e m k' f' Hinm Hin') as [Hfb' Hfe'].
      destruct (functions_keyed P g Hk e m k' f' Hinm Hin') as [[Htb' Htn'] Hkey'].
      assert (Hkeq' : k' = JITFunction.baseAddress f' + JITFunction.numBytes f').
      { rewrite Hkey'. apply (castU_id P HP). lia. }
      destruct (functions_apart P g Hlay e m k f k' f' Hinm Hinf Hin' Hne); lia.
  - exact Huncovered.
  - intros m f Hl Hend Hothers. apply Huncovered.
    intros m' f' Hl'.
    destruct (covers f' address) eqn:Hc; [ | reflexivity ].
    assert (Hsame : f' = f).
    { destruct (JITFunction_eq_dec f' f) as [ | Hne ]; [ assumption | ].
      rewrite (Hothers m' f' Hl' Hne) in Hc. discriminate. }
    subst f'. unfold covers in Hc. apply andb_true_iff in Hc.
    destruct Hc as [_ Hhi]. apply Z.ltb_lt in Hhi. lia.
Qed.

End LookupTheorems.

Section LookupExample.
Import LLVMJIT LoaderSpec Example.

Lemma g0_index : addressToModuleMap g0 = [(69632, m0)].
Proof. reflexivity. Qed.

Lemma m0_functions : addressToFunctionMap m0 = [(65636, f0)].
Proof. reflexivity. Qed.

Lemma P0_ok : platform_ok P0.
Proof. unfold platform_ok. cbn. lia. Qed.

Lemma g0_keyed : keyed P0 g0.
Proof.
  split.
  - rewrite g0_index. repeat constructor.
  - intros e m Hin. rewrite g0_index in Hin.
    destruct Hin as [E | []]. injection E as <- <-.
    rewrite m0_functions. repeat constructor.
  - intros e m k f Hinm Hinf. rewrite g0_index in Hinm.
    destruct Hinm as [E | []]. injection E as <- <-.
    rewrite m0_functions in Hinf.
    destruct Hinf as [E | []]. injection E as <- <-.
    split; [ split; cbn; lia | reflexivity ].
Qed.

Lemma g0_laid_out : laid_out P0 g0.
Proof.
  split.
  - intros e m Hin. rewrite g0_index in Hin.
    destruct Hin as [E | []]. injection E as <- <-.
    split; [ reflexivity | cbn; lia ].
  - intros e m k f Hinm Hinf. rewrite g0_index in Hinm.
    destruct Hinm as [E | []]. injection E as <- <-.
    rewrite m0_functions in Hinf.
    destruct Hinf as [E | []]. injection E as <- <-.
    cbn. lia.
  - intros e m k1 f1 k2 f2 Hinm Hin1 Hin2 Hne. rewrite g0_index in Hinm.
    destruct Hinm as [E | []]. injection E as <- <-.
    rewrite m0_functions in Hin1, Hin2.
    destruct Hin1 as [E | []]. injection E as <- <-.
    destruct Hin2 as [E | []]. injection E as <- <-.
    contradiction.
  - intros e1 m1 e2 m2 Hin1 Hin2 Hne. rewrite g0_index in Hin1, Hin2.
    destruct Hin1 as [E | []]. injection E as <- <-.
    destruct Hin2 as [E | []]. injection E as <- <-.
    contradiction.
Qed.

Lemma g0_loaded : loaded g0 m0 f0.
Proof.
  exists 69632, 65636. rewrite g0_index, m0_functions.
  split; left; reflexivity.
Qed.

Lemma g0_loaded_only (m : LoadedModule) (f : JITFunction.t) :
  loaded g0 m f -> f = f0.
Proof.
  intros (e & k & Hinm & Hinf). rewrite g0_index in Hinm.
  destruct Hinm as [E | []]. injection E as <- <-.
  rewrite m0_functions in Hinf.
  destruct Hinf as [E | []]. injection E as <- <-. reflexivity.
Qed.

Lemma C3_getJITFunctionByAddress_witness :
  platform_ok P0
  /\ keyed P0 g0
  /\ laid_out P0 g0
  /\ snd (getJITFunctionByAddress P0 65536 g0) = Some f0
  /\ snd (getJITFunctionByAddress P0 (65536 + 99) g0) = Some f0
  /\ snd (getJITFunctionByAddress P0 (65536 + 100) g0) = None.
Proof.
  split; [ exact P0_ok | ]. split; [ exact g0_keyed | ].
  split; [ exact g0_laid_out | ].
  split; [ | split ].
  - exact (proj1 (proj2 (proj2 (proj2
             (C3_getJITFunctionByAddress P0 g0 65536 P0_ok g0_keyed))))
             g0_laid_out m0 f0 g0_loaded eq_refl).
  - exact (proj1 (proj2 (proj2 (proj2
             (C3_getJITFunctionByAddress P0 g0 (65536 + 99) P0_ok g0_keyed))))
             g0_laid_out m0 f0 g0_loaded eq_refl).
  - exact (proj2 (proj2 (proj2 (proj2 (proj2
             (C3_getJITFunctionByAddress P0 g0 (65536 + 100) P0_ok g0_keyed)))))
             m0 f0 g0_loaded eq_refl
             (fun m' f' Hl Hne => False_ind _ (Hne (g0_loaded_only m' f' Hl)))).
Defined.

End LookupExample.

(** * More about the streams: raw bytes *)

Section RawBytesFacts.
Import Serialization SerializationContainers.
Import OutputStreamInv InputStreamInv.

Lemma update_split (l : list Z) (p : nat) (b : Z) :
  (p < length l)%nat -> update l p b = firstn p l ++ b :: skipn (S p) l.
Proof.
  revert p; induction l as [ | h t IH ]; intros [ | p ] Hp; simpl in *; try lia.
  - reflexivity.
  - f_equal. apply IH. lia.
Qed.

Lemma output_advance_eq (numBytes : nat) (s : OutputStream.t) :
  OutputStream.advance numBytes s
  = let s1 :=
      if (OutputStream.end_ s <? OutputStream.next s + numBytes)%nat
      then let bytes' :=
             OutputStream.resize
               (OutputStream.bytes s)
               (Nat.max (OutputStream.next s + numBytes)
                        (length (OutputStream.bytes s) * 7 / 5 + 32)) in
           OutputStream.mk bytes' (OutputStream.next s) (length bytes')
      else s in
    (OutputStream.mk (OutputStream.bytes s1) (OutputStream.next s1 + numBytes)
                     (OutputStream.end_ s1),
     Returned (OutputStream.next s1)).
Proof.
  unfold OutputStream.advance, OutputStream.extendBuffer, bind, get, put, ret.
  destruct (OutputStream.end_ s <? OutputStream.next s + numBytes)%nat; reflexivity.
Qed.

Lemma memcpy_to_spec (src : list Z) :
  forall (p : nat) (s : OutputStream.t),
    (p + length src <= length (OutputStream.bytes s))%nat ->
    memcpy_to p src s
    = (OutputStream.mk
         (firstn p (OutputStream.bytes s) ++ src
                 ++ skipn (p + length src) (OutputStream.bytes s))
         (OutputStream.next s) (OutputStream.end_ s),
       Returned tt).
Proof.
  induction src as [ | b src IH ]; intros p s Hp.
  - cbn [memcpy_to length app]. unfold ret.
    rewrite Nat.add_0_r, firstn_skipn. destruct s; reflexivity.
  - cbn [memcpy_to length] in *.
    unfold bind at 1. unfold OutputStream.store, bind, get, put.
    rewrite IH by (cbn [OutputStream.bytes]; rewrite update_length; lia).
    cbn [OutputStream.bytes OutputStream.next OutputStream.end_].
    f_equal. f_equal.
    rewrite update_split by lia.
    replace (S p) with (p + 1)%nat by lia.
    rewrite firstn_app, length_firstn, Nat.min_l by lia.
    rewrite firstn_all2 by (rewrite length_firstn; lia).
    replace (p + 1 - p)%nat with 1%nat by lia. cbn [firstn].
    rewrite <- app_assoc. cbn [app]. f_equal. f_equal. f_equal.
    rewrite skipn_app, length_firstn, Nat.min_l by lia.
    rewrite (skipn_all2 (firstn p _)) by (rewrite length_firstn; lia).
    replace (p + 1 + length src - p)%nat with (S (length src)) by lia.
    cbn [app skipn]. rewrite skipn_skipn. f_equal. lia.
Qed.

(** What [serializeBytes] does to an output stream. *)
Lemma serializeBytes_out_spec (bytes : list Z) (s : OutputStream.t) :
  wf s ->
  exists s',
    serializeBytes_out bytes s = (s', Returned tt)
    /\ wf s'
    /\ OutputStream.getBytes s' = OutputStream.getBytes s ++ bytes.
Proof.
  intros Hwf. unfold serializeBytes_out, bind.
  rewrite output_advance_eq.
  destruct Hwf as [Hle Hend]. destruct s as [bs nx en].
  cbn [OutputStream.bytes OutputStream.next OutputStream.end_] in *. subst en.
  set (n := length bytes).
  set (s1 := if (length bs <? nx + n)%nat
             then OutputStream.mk
                    (OutputStream.resize bs (Nat.max (nx + n) (length bs * 7 / 5 + 32)))
                    nx
                    (length (OutputStream.resize
                               bs (Nat.max (nx + n) (length bs * 7 / 5 + 32))))
             else OutputStream.mk bs nx (length bs)).
  assert (H1 : OutputStream.next s1 = nx
               /\ OutputStream.end_ s1 = length (OutputStream.bytes s1)
               /\ (nx + n <= length (OutputStream.bytes s1))%nat
               /\ firstn nx (OutputStream.bytes s1) = firstn nx bs).
  { unfold s1. destruct (Nat.ltb_spec (length bs) (nx + n)).
    - cbn [OutputStream.bytes OutputStream.next OutputStream.end_].
      rewrite resize_length. repeat split; try lia.
      rewrite resize_grow by lia. rewrite firstn_app.
      replace (nx - length bs)%nat with 0%nat by lia.
      simpl. apply app_nil_r.
    - cbn [OutputStream.bytes OutputStream.next OutputStream.end_].
      repeat split; lia. }
  destruct H1 as (Hn1 & He1 & Hroom & Hpre).
  cbn zeta. fold s1.
  rewrite memcpy_to_spec
    by (cbn [OutputStream.bytes OutputStream.next]; rewrite Hn1; fold n; lia).
  cbn [OutputStream.bytes OutputStream.next OutputStream.end_].
  eexists. split; [ reflexivity | ].
  rewrite Hn1. fold n.
  assert (Hlen : length (firstn nx (OutputStream.bytes s1) ++ bytes
                          ++ skipn (nx + n) (OutputStream.bytes s1))
                 = length (OutputStream.bytes s1)).
  { rewrite !length_app, length_firstn, length_skipn. fold n. lia. }
  split; [ split | ].
  - cbn [OutputStream.next OutputStream.end_]. lia.
  - cbn [OutputStream.end_ OutputStream.bytes]. rewrite Hlen. exact He1.
  - unfold OutputStream.getBytes.
    cbn [OutputStream.bytes OutputStream.next].
    rewrite !resize_within by (rewrite ?Hlen; lia).
    rewrite app_assoc, firstn_app.
    rewrite length_app, length_firstn, Nat.min_l by lia. fold n.
    rewrite firstn_all2 by (rewrite length_app, length_firstn; fold n; lia).
    replace (nx + n - (nx + n))%nat with 0%nat by lia.
    cbn [firstn]. rewrite app_nil_r, Hpre. reflexivity.
Qed.

(** X2.  [serializeBytes] on an output stream appends exactly the given
    bytes to what the stream holds, however the buffer has to grow. *)
Theorem X2_serializeBytes_out_appends (bytes : list Z) (s : OutputStream.t) :
  wf s ->
  exists s',
    serializeBytes_out bytes s = (s', Returned tt)
    /\ wf s'
    /\ OutputStream.getBytes s' = OutputStream.getBytes s ++ bytes.
Proof. apply serializeBytes_out_spec. Qed.

Lemma X2_serializeBytes_out_appends_witness :
  wf OutputStream.empty
  /\ exists s',
      serializeBytes_out [1; 2; 3] OutputStream.empty = (s', Returned tt)
      /\ wf s'
      /\ OutputStream.getBytes s'
         = OutputStream.getBytes OutputStream.empty ++ [1; 2; 3].
Proof.
  split; [ exact empty_wf | ].
  exact (X2_serializeBytes_out_appends [1; 2; 3] OutputStream.empty empty_wf).
Defined.

Lemma serializeBytes_in_spec (numBytes : nat) (consumed input : list Z) :
  serializeBytes_in numBytes (at_ consumed input)
  = if (length input <? numBytes)%nat
    then (at_ consumed input,
          Thrown (mkFatalSerializationException
                    "expected data but found end of stream"))
    else (at_ (consumed ++ firstn numBytes input) (skipn numBytes input),
          Returned (firstn numBytes input)).
Proof.
  unfold serializeBytes_in, bind at 1. rewrite advance_eq.
  unfold at_.
  cbn [InputStream.next InputStream.end_ InputStream.data].
  pose proof (length_app consumed input) as Hlen.
  destruct (Nat.ltb_spec (length (consumed ++ input))
                         (length consumed + numBytes)) as [Hshort | Hok],
    (Nat.ltb_spec (length input) numBytes); try lia.
  - reflexivity.
  - unfold bind, get, ret. cbn [InputStream.data].
    rewrite skipn_app, skipn_all, Nat.sub_diag. cbn [app skipn].
    rewrite <- (app_assoc consumed), firstn_skipn.
    rewrite (length_app consumed (firstn numBytes input)).
    rewrite length_firstn, Nat.min_l by lia. reflexivity.
Qed.

(** X3.  [serializeBytes] on a [MemoryInputStream] that has at least
    [numBytes] bytes left returns the next [numBytes] bytes and moves the
    cursor behind them; the bytes before and after are untouched. *)
Theorem X3_serializeBytes_in_takes (numBytes : nat) (consumed input : list Z) :
  (numBytes <= length input)%nat ->
  serializeBytes_in numBytes (at_ consumed input)
  = (at_ (consumed ++ firstn numBytes input) (skipn numBytes input),
     Returned (firstn numBytes input)).
Proof.
  intros Hle. rewrite serializeBytes_in_spec.
  destruct (Nat.ltb_spec (length input) numBytes); [ lia | reflexivity ].
Qed.

Lemma X3_serializeBytes_in_takes_witness :
  (2 <= length [5; 6; 7])%nat
  /\ serializeBytes_in 2 (at_ [4] [5; 6; 7])
     = (at_ ([4] ++ firstn 2 [5; 6; 7]) (skipn 2 [5; 6; 7]),
        Returned (firstn 2 [5; 6; 7])).
Proof.
  assert (H : (2 <= length [5; 6; 7])%nat) by (simpl; lia).
  split; [ exact H | ].
  exact (X3_serializeBytes_in_takes 2 [4] [5; 6; 7] H).
Defined.

(** X24.  Keeping the cursor and the end of an input stream as offsets
    agrees with the pointers of the source: for a range at the address
    [begin], as long as the cursor plus [numBytes] stays within the address
    space, [advance] and [peek] on the pointers throw or return exactly as
    they do on the offsets, and leave the pointers of the stream that the
    offsets describe.  This covers every read of one byte by the decoder on
    a range that does not end at the top of the address space. *)
Theorem X24_offsets_agree_with_pointers (ptrBits begin : Z) (numBytes : nat)
        (s : InputStream.t) :
  0 <= begin ->
  begin + Z.of_nat (InputStream.next s) + Z.of_nat numBytes < 2 ^ ptrBits ->
  InputStreamPointers.advance ptrBits (Z.of_nat numBytes)
                              (InputStreamPointers.pointers begin s)
  = (InputStreamPointers.pointers begin (fst (InputStream.advance numBytes s)),
     InputStreamPointers.pointer_outcome begin
       (snd (InputStream.advance numBytes s)))
  /\ InputStreamPointers.peek ptrBits (Z.of_nat numBytes)
                              (InputStreamPointers.pointers begin s)
     = (InputStreamPointers.pointers begin (fst (InputStream.peek numBytes s)),
        InputStreamPointers.pointer_outcome begin
          (snd (InputStream.peek numBytes s))).
Proof.
  intros Hbegin Hsum.
  rewrite pointer_advance_eq, pointer_peek_eq, advance_eq, peek_eq.
  unfold InputStreamPointers.pointers.
  cbn [InputStreamPointers.next InputStreamPointers.end_].
  rewrite ptr_add_small by lia.
  destruct (Z.gtb_spec (begin + Z.of_nat (InputStream.next s) + Z.of_nat numBytes)
                       (begin + Z.of_nat (InputStream.end_ s))),
    (Nat.ltb_spec (InputStream.end_ s) (InputStream.next s + numBytes));
    try lia; cbn [fst snd InputStreamPointers.pointer_outcome
                  InputStream.next InputStream.end_];
    (split; [ | reflexivity ]); try reflexivity.
  rewrite Nat2Z.inj_add, Z.add_assoc. reflexivity.
Qed.

Lemma X24_offsets_agree_with_pointers_witness :
  0 <= 4096
  /\ 4096 + Z.of_nat (InputStream.next (at_ [7] [8; 9])) + Z.of_nat 1 < 2 ^ 64
  /\ InputStreamPointers.advance 64 (Z.of_nat 1)
       (InputStreamPointers.pointers 4096 (at_ [7] [8; 9]))
     = (InputStreamPointers.mk 4098 4099, Returned 4097).
Proof.
  assert (H1 : 0 <= 4096) by lia.
  assert (H2 : 4096 + Z.of_nat (InputStream.next (at_ [7] [8; 9])) + Z.of_nat 1
               < 2 ^ 64) by reflexivity.
  split; [ exact H1 | ]. split; [ exact H2 | ].
  exact (proj1 (X24_offsets_agree_with_pointers 64 4096 1 (at_ [7] [8; 9]) H1 H2)).
Defined.

End RawBytesFacts.

(** * More about the LEB128 codec *)

Section CodecMoreFacts.
Import Serialization.
Import OutputStreamInv InputStreamInv.

Lemma more_false_fits_one (T : IntType) (v : Z) :
  0 < bits T ->
  (is_signed T = false -> 0 <= v) ->
  (more T (v / 128) (v mod 128) = false <-> fits (is_signed T) 1 v).
Proof.
  intros Hw Hnonneg.
  pose proof (Z.mod_pos_bound v 128 ltac:(lia)) as Hr.
  pose proof (Z.div_mod v 128 ltac:(lia)) as Hdm.
  rewrite fits_one. unfold more. rewrite land_0x40_low by lia.
  destruct (is_signed T) eqn:Hs.
  - rewrite cast_minus_one by assumption.
    destruct (Z.eqb_spec (v / 128) 0), (Z.eqb_spec (v / 128) (-1)),
      (Z.ltb_spec (v mod 128) 64), (Z.geb_spec (v / 128) 0),
      (Z.ltb_spec (v / 128) 0); cbn [negb andb orb];
      split; intros Hgoal; try discriminate; try reflexivity; try lia.
  - specialize (Hnonneg eq_refl).
    destruct (Z.eqb_spec (v / 128) 0); cbn [negb];
      split; intros Hgoal; try discriminate; try reflexivity; lia.
Qed.

(** The loop writes as few bytes as can hold the value. *)
Lemma serializeVarInt_loop_shortest (T : IntType) :
  0 < bits T ->
  forall (k fuel : nat) (v : Z) (s : OutputStream.t),
    (1 <= k <= fuel)%nat ->
    fits (is_signed T) k v ->
    wf s ->
    exists bs s',
      serializeVarInt_loop fuel T v s = (s', Returned tt)
      /\ OutputStream.getBytes s' = OutputStream.getBytes s ++ bs
      /\ (1 <= length bs)%nat
      /\ forall j, (1 <= j)%nat -> fits (is_signed T) j v -> (length bs <= j)%nat.
Proof.
  intros Hw k. induction k as [ | k IH ]; intros fuel v s Hk Hfit Hwf; [ lia | ].
  destruct fuel as [ | fuel ]; [ lia | ].
  cbn [serializeVarInt_loop].
  rewrite land_127, shiftr_7.
  pose proof (Z.mod_pos_bound v 128 ltac:(lia)) as Hr.
  rewrite (cast_uint8_low (v mod 128)) by lia.
  assert (Hnonneg : is_signed T = false -> 0 <= v).
  { intros Hs. unfold fits in Hfit. rewrite Hs in Hfit. lia. }
  pose proof (more_false_fits_one T v Hw Hnonneg) as Hmore.
  destruct (more T (v / 128) (v mod 128)) eqn:Emore.
  - assert (Hnot1 : ~ fits (is_signed T) 1 v).
    { intros H1. apply Hmore in H1. discriminate. }
    assert (Hk1 : (1 <= k)%nat).
    { destruct k; [ contradiction | lia ]. }
    rewrite lor_0x80_low by lia.
    destruct (write_byte (v mod 128 + 128) s Hwf) as (s1 & Hwf1 & Hb1 & Hrun).
    rewrite Hrun.
    destruct (IH fuel (v / 128) s1 ltac:(lia) (fits_div _ _ _ Hk1 Hfit) Hwf1)
      as (bs & s' & Hloop & Hbytes & Hlen & Hmin).
    exists ((v mod 128 + 128) :: bs), s'.
    split; [ exact Hloop | ].
    split; [ rewrite Hbytes, Hb1, <- app_assoc; reflexivity | ].
    split; [ simpl; lia | ].
    intros j Hj Hfj. cbn [length].
    destruct j as [ | [ | j ] ]; [ lia | contradiction | ].
    assert (Hj1 : (1 <= S j)%nat) by lia.
    pose proof (Hmin (S j) Hj1 (fits_div _ (S j) v Hj1 Hfj)). lia.
  - destruct (write_byte (v mod 128) s Hwf) as (s1 & Hwf1 & Hb1 & Hrun).
    rewrite Hrun.
    exists [v mod 128], s1.
    split; [ reflexivity | ]. split; [ exact Hb1 | ].
    split; [ simpl; lia | ].
    intros j Hj _. simpl. lia.
Qed.

Lemma representable_fits (T : IntType) (v : Z) :
  8 <= bits T -> representable T v ->
  fits (is_signed T) (Z.to_nat (bits T)) v.
Proof.
  intros Hw. unfold representable, min_value, max_value, fits.
  rewrite pow128_pow2, Z2Nat.id by lia.
  assert (2 ^ bits T <= 2 ^ (bits T * 7)) by (apply Z.pow_le_mono_r; lia).
  pose proof (pow2_split (bits T) ltac:(lia)).
  pose proof (pow2_pos (bits T - 1) ltac:(lia)).
  destruct (is_signed T); lia.
Qed.

(** X4.  For a value of the integer type that is within the bounds, the
    encoder writes the shortest encoding: the number of bytes written is the
    smallest number k >= 1 of seven-bit groups that hold the value (for an
    unsigned type, value < 128^k; for a signed type,
    -128^k <= 2 * value < 128^k). *)
Theorem X4_encoder_writes_shortest (T : IntType) (maxBits minValue maxValue v : Z)
        (out : OutputStream.t) :
  standard_width T ->
  representable T v ->
  minValue <= v <= maxValue ->
  wf out ->
  exists bs out',
    serializeVarInt_out T maxBits v minValue maxValue out = (out', Returned tt)
    /\ OutputStream.getBytes out' = OutputStream.getBytes out ++ bs
    /\ forall k, (1 <= k)%nat -> (fits (is_signed T) k v <-> (length bs <= k)%nat).
Proof.
  intros Hstd Hrep Hv Hwf.
  pose proof (standard_width_bounds T Hstd) as Hw.
  unfold serializeVarInt_out.
  destruct (Z.ltb_spec v minValue); [ lia | ].
  destruct (Z.gtb_spec v maxValue); [ lia | ].
  cbn [orb].
  pose proof (representable_fits T v ltac:(lia) Hrep) as Hfit.
  destruct (serializeVarInt_loop_shortest T ltac:(lia) (Z.to_nat (bits T))
              (Z.to_nat (bits T)) v out ltac:(lia) Hfit Hwf)
    as (bs & out' & Hrun & Hbytes & Hlen & Hmin).
  destruct (serializeVarInt_loop_spec T ltac:(lia) (Z.to_nat (bits T))
              (Z.to_nat (bits T)) v out ltac:(lia) Hfit Hwf)
    as (bs2 & out2 & Hrun2 & _ & Hbytes2 & _ & _ & _ & _ & Hfits2).
  rewrite Hrun in Hrun2. injection Hrun2 as <-.
  rewrite Hbytes in Hbytes2. apply app_inv_head in Hbytes2. subst bs2.
  exists bs, out'. split; [ exact Hrun | ]. split; [ exact Hbytes | ].
  intros k Hk. split.
  - apply Hmin. exact Hk.
  - intros Hle. apply (fits_mono _ (length bs) k); assumption.
Qed.

Lemma X4_encoder_writes_shortest_witness :
  standard_width uint32
  /\ representable uint32 624485
  /\ 0 <= 624485 <= UINT32_MAX
  /\ wf OutputStream.empty
  /\ exists bs out',
      serializeVarInt_out uint32 32 624485 0 UINT32_MAX OutputStream.empty
      = (out', Returned tt)
      /\ OutputStream.getBytes out' = OutputStream.getBytes OutputStream.empty ++ bs
      /\ forall k, (1 <= k)%nat ->
                   (fits (is_signed uint32) k 624485 <-> (length bs <= k)%nat).
Proof.
  assert (H1 : standard_width uint32) by (right; right; left; reflexivity).
  assert (H2 : representable uint32 624485)
    by (unfold representable, min_value, max_value; cbn; lia).
  assert (H3 : 0 <= 624485 <= UINT32_MAX) by (unfold UINT32_MAX; lia).
  repeat (split; [ assumption || exact empty_wf | ]).
  exact (X4_encoder_writes_shortest uint32 32 0 UINT32_MAX 624485
                                    OutputStream.empty H1 H2 H3 empty_wf).
Defined.

(** X5.  The encoding is self-delimiting: when the bytes written for one
    in-range value start with the bytes written for another, the two values
    and their encodings are the same. *)
Theorem X5_encoding_prefix_free (T : IntType) (maxBits minValue maxValue : Z)
        (v1 v2 : Z) (out out1 out2 : OutputStream.t) (bs1 bs2 tail : list Z) :
  standard_width T ->
  1 <= maxBits <= bits T ->
  (is_signed T = true -> 32 <= bits T) ->
  in_bit_range (is_signed T) maxBits minValue ->
  in_bit_range (is_signed T) maxBits maxValue ->
  wf out ->
  serializeVarInt_out T maxBits v1 minValue maxValue out = (out1, Returned tt) ->
  OutputStream.getBytes out1 = OutputStream.getBytes out ++ bs1 ->
  serializeVarInt_out T maxBits v2 minValue maxValue out = (out2, Returned tt) ->
  OutputStream.getBytes out2 = OutputStream.getBytes out ++ bs2 ->
  bs1 = bs2 ++ tail ->
  v1 = v2 /\ tail = [].
Proof.
  intros Hstd HB Hwide Hlo Hhi Hwf Hrun1 Hb1 Hrun2 Hb2 Hpre.
  pose proof (standard_width_bounds T Hstd) as Hw.
  assert (Hin : forall v o,
             serializeVarInt_out T maxBits v minValue maxValue out
             = (o, Returned tt) -> minValue <= v <= maxValue).
  { intros v o H. unfold serializeVarInt_out, throw in H.
    destruct (Z.ltb_spec v minValue); [ discriminate | ].
    destruct (Z.gtb_spec v maxValue); [ discriminate | ]. lia. }
  pose proof (Hin v1 out1 Hrun1) as Hv1.
  pose proof (Hin v2 out2 Hrun2) as Hv2.
  pose proof (in_bit_range_between _ _ _ _ _ Hlo Hhi Hv1) as Hr1.
  pose proof (in_bit_range_between _ _ _ _ _ Hlo Hhi Hv2) as Hr2.
  destruct (encode_in_range T maxBits minValue maxValue v1 out
                            ltac:(lia) HB Hr1 Hv1 Hwf)
    as (c1 & o1 & He1 & _ & Hg1 & Hl1 & Hc1 & Ha1 & Hval1 & Hf1).
  destruct (encode_in_range T maxBits minValue maxValue v2 out
                            ltac:(lia) HB Hr2 Hv2 Hwf)
    as (c2 & o2 & He2 & _ & Hg2 & Hl2 & Hc2 & Ha2 & Hval2 & Hf2).
  rewrite Hrun1 in He1. injection He1 as <-.
  rewrite Hrun2 in He2. injection He2 as <-.
  rewrite Hb1 in Hg1. apply app_inv_head in Hg1. subst c1.
  rewrite Hb2 in Hg2. apply app_inv_head in Hg2. subst c2.
  pose proof (decode_encoded T maxBits minValue maxValue v1 bs1 [] []
                Hstd HB Hwide Hr1 Hv1 Hl1 Hc1 Ha1 Hval1 Hf1) as Hd1.
  pose proof (decode_encoded T maxBits minValue maxValue v2 bs2 [] tail
                Hstd HB Hwide Hr2 Hv2 Hl2 Hc2 Ha2 Hval2 Hf2) as Hd2.
  rewrite app_nil_r, Hpre in Hd1. rewrite Hd1 in Hd2.
  assert (Hvalue : v1 = v2) by congruence.
  assert (Hnext : InputStream.next (at_ ([] ++ bs2 ++ tail) [])
                  = InputStream.next (at_ ([] ++ bs2) tail)) by congruence.
  split; [ exact Hvalue | ].
  unfold at_ in Hnext. cbn [app InputStream.next] in Hnext.
  rewrite length_app in Hnext.
  destruct tail; [ reflexivity | simpl in Hnext; lia ].
Qed.

Lemma X5_encoding_prefix_free_witness :
  exists out1,
    serializeVarInt_out uint32 32 5 0 UINT32_MAX OutputStream.empty
    = (out1, Returned tt)
    /\ OutputStream.getBytes out1 = OutputStream.getBytes OutputStream.empty ++ [5]
    /\ (5 = 5 /\ @nil Z = []).
Proof.
  assert (H1 : standard_width uint32) by (right; right; left; reflexivity).
  assert (H2 : 1 <= 32 <= bits uint32) by (cbn; lia).
  assert (H3 : is_signed uint32 = true -> 32 <= bits uint32) by (cbn; lia).
  assert (H4 : in_bit_range (is_signed uint32) 32 0) by (cbn; lia).
  assert (H5 : in_bit_range (is_signed uint32) 32 UINT32_MAX)
    by (unfold UINT32_MAX; cbn; lia).
  eexists. split; [ vm_compute; reflexivity | ].
  split; [ reflexivity | ].
  exact (X5_encoding_prefix_free uint32 32 0 UINT32_MAX 5 5 OutputStream.empty
           _ _ [5] [5] [] H1 H2 H3 H4 H5 empty_wf
           eq_refl eq_refl eq_refl eq_refl eq_refl).
Defined.

End CodecMoreFacts.

(** * The decoder on any input *)

Section DecoderFacts.
Import Serialization.
Import OutputStreamInv InputStreamInv.

(** The first loop of the decoder on any stream. *)
Lemma readVarIntBytes_cursor :
  forall (remaining : nat) (bytes : list Z) (numBytes : nat) (shift : Z)
         (s s' : InputStream.t) (o : outcome (list Z * nat * Z)),
    readVarIntBytes remaining bytes numBytes shift s = (s', o) ->
    InputStream.data s' = InputStream.data s
    /\ InputStream.end_ s' = InputStream.end_ s
    /\ (InputStream.next s <= InputStream.next s' <= InputStream.next s + remaining)%nat
    /\ (InputStream.next s <= InputStream.end_ s ->
        InputStream.next s' <= InputStream.end_ s')%nat
    /\ o <> OutOfFuel.
Proof.
  induction remaining as [ | r IH ]; intros bytes numBytes shift s s' o H.
  - cbn [readVarIntBytes] in H. unfold ret in H. injection H as <- <-.
    repeat split; try lia. discriminate.
  - cbn [readVarIntBytes] in H. unfold bind at 1 in H. rewrite advance_eq in H.
    destruct (Nat.ltb_spec (InputStream.end_ s) (InputStream.next s + 1)).
    + injection H as <- <-. repeat split; try lia. discriminate.
    + unfold InputStream.load in H. unfold bind at 1 2 in H.
      unfold get at 1 in H. unfold ret at 1 in H.
      cbn [InputStream.data] in H.
      destruct (Z.land (nth (InputStream.next s) (InputStream.data s) 0) 128 =? 0).
      * unfold ret in H. injection H as <- <-.
        cbn [InputStream.data InputStream.next InputStream.end_].
        repeat split; try lia. discriminate.
      * apply IH in H.
        cbn [InputStream.data InputStream.next InputStream.end_] in H.
        destruct H as (Hd & He & Hn & Hin & Ho).
        repeat split; try assumption; try lia.
Qed.

Lemma serializeVarInt_in_cursor (T : IntType) (maxBits minValue maxValue : Z)
      (s s' : InputStream.t) (o : outcome Z) :
  serializeVarInt_in T maxBits minValue maxValue s = (s', o) ->
  InputStream.data s' = InputStream.data s
  /\ InputStream.end_ s' = InputStream.end_ s
  /\ (InputStream.next s <= InputStream.next s'
      <= InputStream.next s + Z.to_nat ((maxBits + 6) / 7))%nat
  /\ ((InputStream.next s <= InputStream.end_ s)%nat ->
      (InputStream.next s' <= InputStream.end_ s')%nat)
  /\ o <> OutOfFuel
  /\ forall v, o = Returned v -> minValue <= v <= maxValue.
Proof.
  unfold serializeVarInt_in. unfold bind at 1.
  destruct (readVarIntBytes (Z.to_nat (maxBytes_of maxBits))
              (repeat 0 (Z.to_nat (maxBytes_of maxBits))) 0
              (cast int8 (cast int8 (bits T / 8) * 8)) s) as [s1 o1] eqn:Hread.
  apply readVarIntBytes_cursor in Hread.
  destruct Hread as (Hd & He & Hn & Hin & Ho).
  unfold maxBytes_of in Hn.
  destruct o1 as [ [[arr n] shift] | e | ].
  - destruct (invalidFinalByte T maxBits arr).
    + unfold throw. intros H. injection H as <- <-.
      repeat split; try assumption; try lia; try discriminate.
    + match goal with |- context [if ?c then _ else _] => destruct c eqn:Ec end.
      * unfold throw. intros H. injection H as <- <-.
        repeat split; try assumption; try lia; try discriminate.
      * unfold ret. intros H. injection H as <- <-.
        split; [ exact Hd | ]. split; [ exact He | ]. split; [ exact Hn | ].
        split; [ exact Hin | ]. split; [ discriminate | ].
        intros v Hv. injection Hv as <-.
        apply orb_false_elim in Ec. destruct Ec as [E1 E2].
        apply Z.ltb_ge in E1. rewrite Z.gtb_ltb in E2. apply Z.ltb_ge in E2.
        lia.
  - intros H. injection H as <- <-.
    repeat split; try assumption; try lia; try discriminate.
  - contradiction.
Qed.

(** X6.  On any input stream and for any parameters, the decoder ends (it
    returns or throws), leaves the data and the end of the stream as they
    were, moves the cursor forwards by at most ceil(maxBits/7) bytes and not
    past the end, and a value it returns is within the bounds it was
    given. *)
Theorem X6_decoder_consumption (T : IntType) (maxBits minValue maxValue : Z)
        (s : InputStream.t) :
  exists s' o,
    serializeVarInt_in T maxBits minValue maxValue s = (s', o)
    /\ InputStream.data s' = InputStream.data s
    /\ InputStream.end_ s' = InputStream.end_ s
    /\ (InputStream.next s <= InputStream.next s'
        <= InputStream.next s + Z.to_nat ((maxBits + 6) / 7))%nat
    /\ ((InputStream.next s <= InputStream.end_ s)%nat ->
        (InputStream.next s' <= InputStream.end_ s')%nat)
    /\ o <> OutOfFuel
    /\ forall v, o = Returned v -> minValue <= v <= maxValue.
Proof.
  destruct (serializeVarInt_in T maxBits minValue maxValue s) as [s' o] eqn:Hrun.
  exists s', o. split; [ reflexivity | ].
  exact (serializeVarInt_in_cursor T maxBits minValue maxValue s s' o Hrun).
Qed.






End DecoderFacts.

(** * Constants, strings and arrays *)

Section ContainerFacts.
Import Serialization SerializationContainers Codec.
Import OutputStreamInv InputStreamInv.

(** The helpers, as codecs. *)
Lemma serializeHelper_round_trips (h : Helper) (T : IntType) (v : Z) :
  compatible h T ->
  helper_minValue h <= v <= helper_maxValue h ->
  round_trips (serializeHelper_out h T) (fun _ => serializeHelper_in h T) v.
Proof.
  intros Hcompat Hv out Hwf.
  destruct (helper_bounds_cast h T Hcompat) as [Hmin Hmax].
  destruct Hcompat as (Hstd & Hsg & Hbits).
  pose proof (standard_width_bounds T Hstd) as Hw.
  pose proof (helper_maxBits_pos h) as HB.
  assert (Hrange : in_bit_range (is_signed T) (helper_maxBits h) v)
    by (rewrite Hsg; apply helper_range; exact Hv).
  unfold serializeHelper_out, serializeHelper_in. rewrite Hmin, Hmax.
  destruct (encode_in_range T (helper_maxBits h) (helper_minValue h)
                            (helper_maxValue h) v out)
    as (bs & out' & Henc & Hwf' & Hbytes & Hlen & Hcont & Hall & Hval & Hfit);
    try assumption; try lia.
  exists bs, out'. split; [ exact Henc | ]. split; [ exact Hwf' | ].
  split; [ exact Hbytes | ].
  intros _ consumed rest.
  apply decode_encoded; try assumption; try lia.
  intros Hs. rewrite Hsg in Hs. destruct h; cbn in *; try discriminate; lia.
Qed.

Lemma serialize_uint8_round_trips (b : Z) :
  round_trips serialize_uint8_out (fun _ => serialize_uint8_in) b.
Proof.
  intros out Hwf. unfold serialize_uint8_out, serialize_uint8_in.
  destruct (serializeBytes_out_spec [b] out Hwf) as (out' & Hrun & Hwf' & Hb).
  exists [b], out'. split; [ exact Hrun | ]. split; [ exact Hwf' | ].
  split; [ exact Hb | ].
  intros _ consumed rest. unfold bind. rewrite serializeBytes_in_spec.
  cbn [app length firstn skipn Nat.ltb Nat.leb nth]. reflexivity.
Qed.

(** X8.  [serializeConstant] for a one-byte constant.  Writing appends the
    constant.  Reading at the end of the input throws "expected data but
    found end of stream"; otherwise it consumes one byte, and returns when
    the byte is the constant and throws the caller's message followed by
    ": loaded <byte> but was expecting <constant>" when it is not. *)
Theorem X8_serializeConstant (msg : string) (constant : Z)
        (out : OutputStream.t) (consumed input : list Z) :
  wf out ->
  (exists out',
      serializeConstant_out msg constant out = (out', Returned tt)
      /\ wf out'
      /\ OutputStream.getBytes out' = OutputStream.getBytes out ++ [constant])
  /\ serializeConstant_in msg constant (at_ consumed input)
     = match input with
       | [] => (at_ consumed [],
                Thrown (mkFatalSerializationException
                          "expected data but found end of stream"))
       | b :: rest =>
         (at_ (consumed ++ [b]) rest,
          if b =? constant then Returned tt
          else Thrown (mkFatalSerializationException
                         (msg ++ ": loaded " ++ to_string b
                              ++ " but was expecting " ++ to_string constant)))
       end.
Proof.
  intros Hwf. split.
  - apply serializeBytes_out_spec. exact Hwf.
  - unfold serializeConstant_in, serialize_uint8_in.
    unfold bind. rewrite serializeBytes_in_spec.
    destruct input as [ | b rest ]; [ reflexivity | ].
    cbn [length Nat.ltb Nat.leb firstn skipn nth].
    unfold constant_mismatch, throw, ret.
    destruct (b =? constant); reflexivity.
Qed.

Lemma X8_serializeConstant_witness :
  wf OutputStream.empty
  /\ (exists out',
         serializeConstant_out "bad magic" 7 OutputStream.empty
         = (out', Returned tt)
         /\ wf out'
         /\ OutputStream.getBytes out'
            = OutputStream.getBytes OutputStream.empty ++ [7])
  /\ serializeConstant_in "bad magic" 7 (at_ [] [9; 1])
     = (at_ ([] ++ [9]) [1],
        Thrown (mkFatalSerializationException
                  "bad magic: loaded 9 but was expecting 7")).
Proof.
  split; [ exact empty_wf | ].
  exact (X8_serializeConstant "bad magic" 7 OutputStream.empty [] [9; 1] empty_wf).
Defined.

(** X9.  A string of at most UINT32_MAX characters round-trips: writing it
    appends a varuint32 length and then the characters, and reading from an
    input that stands before these bytes returns the string and leaves the
    cursor just after it.  [size_t] is an unsigned type of at least 32
    bits. *)
Theorem X9_string_round_trip (size_t_ : IntType) (string_ : list Z) :
  compatible VarUInt32 size_t_ ->
  Z.of_nat (length string_) <= UINT32_MAX ->
  round_trips (serializeString_out size_t_)
              (fun _ => serializeString_in size_t_) string_.
Proof.
  intros Hc Hlen out Hwf.
  unfold serializeString_out, serializeString_in.
  destruct (serializeHelper_round_trips VarUInt32 size_t_
              (Z.of_nat (length string_)) Hc ltac:(cbn; lia) out Hwf)
    as (hdr & out1 & Hrun1 & Hwf1 & Hb1 & Hdec).
  destruct (serializeBytes_out_spec string_ out1 Hwf1) as (out2 & Hrun2 & Hwf2 & Hb2).
  exists (hdr ++ string_), out2.
  split.
  { unfold bind. unfold serializeVarUInt32_out. rewrite Hrun1. exact Hrun2. }
  split; [ exact Hwf2 | ].
  split; [ rewrite Hb2, Hb1, <- app_assoc; reflexivity | ].
  intros _ consumed rest.
  unfold bind. unfold serializeVarUInt32_in. rewrite <- app_assoc.
  rewrite (Hdec 0). rewrite Nat2Z.id.
  rewrite serializeBytes_in_spec.
  rewrite length_app.
  destruct (Nat.ltb_spec (length string_ + length rest) (length string_)); [ lia | ].
  rewrite firstn_app, firstn_all, Nat.sub_diag, skipn_app, skipn_all, Nat.sub_diag.
  cbn [firstn skipn app]. rewrite app_nil_r, app_assoc. reflexivity.
Qed.

Lemma X9_string_round_trip_witness :
  compatible VarUInt32 uint64
  /\ Z.of_nat (length [104; 105]) <= UINT32_MAX
  /\ round_trips (serializeString_out uint64)
                 (fun _ => serializeString_in uint64) [104; 105].
Proof.
  assert (Hc : compatible VarUInt32 uint64).
  { split; [ right; right; right; reflexivity | ].
    split; [ reflexivity | cbn; lia ]. }
  assert (Hl : Z.of_nat (length [104; 105]) <= UINT32_MAX)
    by (unfold UINT32_MAX; simpl; lia).
  split; [ exact Hc | ]. split; [ exact Hl | ].
  exact (X9_string_round_trip uint64 [104; 105] Hc Hl).
Defined.

Lemma resizeVector_length {A : Type} (v : list A) (n : nat) (default : A) :
  length (resizeVector v n default) = n.
Proof.
  unfold resizeVector. rewrite length_app, length_firstn, repeat_length. lia.
Qed.

Lemma serializeElements_round_trip {A : Type}
      (enc : A -> M OutputStream.t unit) (dec : A -> M InputStream.t A)
      (vector : list A) :
  Forall (round_trips enc dec) vector ->
  forall out, wf out ->
    exists bs out',
      serializeElements_out enc vector out = (out', Returned tt)
      /\ wf out'
      /\ OutputStream.getBytes out' = OutputStream.getBytes out ++ bs
      /\ forall ds consumed rest,
          length ds = length vector ->
          serializeElements_in dec ds (at_ consumed (bs ++ rest))
          = (at_ (consumed ++ bs) rest, Returned vector).
Proof.
  induction 1 as [ | x vector Hx Hall IH ]; intros out Hwf.
  - exists [], out. split; [ reflexivity | ]. split; [ exact Hwf | ].
    split; [ rewrite app_nil_r; reflexivity | ].
    intros ds consumed rest Hlen. destruct ds; [ | discriminate ].
    cbn [serializeElements_in app]. rewrite app_nil_r. reflexivity.
  - destruct (Hx out Hwf) as (bs1 & out1 & Hrun1 & Hwf1 & Hb1 & Hdec1).
    destruct (IH out1 Hwf1) as (bs2 & out2 & Hrun2 & Hwf2 & Hb2 & Hdec2).
    exists (bs1 ++ bs2), out2.
    split.
    { cbn [serializeElements_out]. unfold bind. rewrite Hrun1. exact Hrun2. }
    split; [ exact Hwf2 | ].
    split; [ rewrite Hb2, Hb1, <- app_assoc; reflexivity | ].
    intros ds consumed rest Hlen.
    destruct ds as [ | d ds ]; [ discriminate | ].
    cbn [serializeElements_in]. unfold bind.
    rewrite <- app_assoc, Hdec1.
    rewrite Hdec2 by (simpl in Hlen; lia).
    unfold ret. rewrite app_assoc. reflexivity.
Qed.

(** X11.  [serializeArray] composes codecs: when every element of a vector
    of at most UINT32_MAX elements round-trips through the element
    serializer, the vector round-trips through [serializeArray], whatever
    the vector read into held before. *)
Theorem X11_array_round_trip {A : Type} (size_t_ : IntType) (default : A)
        (enc : A -> M OutputStream.t unit) (dec : A -> M InputStream.t A)
        (vector : list A) :
  compatible VarUInt32 size_t_ ->
  Z.of_nat (length vector) <= UINT32_MAX ->
  Forall (round_trips enc dec) vector ->
  round_trips (serializeArray_out size_t_ enc)
              (serializeArray_in size_t_ default dec) vector.
Proof.
  intros Hc Hlen Hall out Hwf.
  unfold serializeArray_out, serializeArray_in.
  destruct (serializeHelper_round_trips VarUInt32 size_t_
              (Z.of_nat (length vector)) Hc ltac:(cbn; lia) out Hwf)
    as (hdr & out1 & Hrun1 & Hwf1 & Hb1 & Hdec).
  destruct (serializeElements_round_trip enc dec vector Hall out1 Hwf1)
    as (bs & out2 & Hrun2 & Hwf2 & Hb2 & Hdec2).
  exists (hdr ++ bs), out2.
  split.
  { unfold bind. unfold serializeVarUInt32_out. rewrite Hrun1. exact Hrun2. }
  split; [ exact Hwf2 | ].
  split; [ rewrite Hb2, Hb1, <- app_assoc; reflexivity | ].
  intros d consumed rest.
  unfold bind. unfold serializeVarUInt32_in. rewrite <- app_assoc.
  rewrite (Hdec 0). rewrite Nat2Z.id.
  rewrite Hdec2 by apply resizeVector_length.
  rewrite app_assoc. reflexivity.
Qed.

Lemma X11_array_round_trip_witness :
  compatible VarUInt32 uint64
  /\ Z.of_nat (length [10; 20; 30]) <= UINT32_MAX
  /\ Forall (round_trips serialize_uint8_out (fun _ => serialize_uint8_in))
            [10; 20; 30]
  /\ round_trips (serializeArray_out uint64 serialize_uint8_out)
                 (serializeArray_in uint64 0 (fun _ => serialize_uint8_in))
                 [10; 20; 30].
Proof.
  assert (Hc : compatible VarUInt32 uint64).
  { split; [ right; right; right; reflexivity | ].
    split; [ reflexivity | cbn; lia ]. }
  assert (Hl : Z.of_nat (length [10; 20; 30]) <= UINT32_MAX)
    by (unfold UINT32_MAX; simpl; lia).
  assert (Hall : Forall (round_trips serialize_uint8_out
                                     (fun _ => serialize_uint8_in)) [10; 20; 30])
    by (repeat constructor; apply serialize_uint8_round_trips).
  split; [ exact Hc | ]. split; [ exact Hl | ]. split; [ exact Hall | ].
  exact (X11_array_round_trip uint64 0 serialize_uint8_out
           (fun _ => serialize_uint8_in) [10; 20; 30] Hc Hl Hall).
Defined.

End ContainerFacts.

(** * More about the memory manager *)

Section AllocatorFacts.
Import LLVMJIT LoaderSpec.

Lemma pageSize_pos (P : Platform) : platform_ok P -> 0 < pageSize P.
Proof. intros [_ ?]. unfold pageSize. apply pow2_pos. lia. Qed.

Lemma round_up_zero (a : Z) : 0 < a -> round_up 0 a = 0.
Proof.
  intros Ha. unfold round_up, ceil_div.
  rewrite Z.div_small by lia. lia.
Qed.

(** [round_up x a] is the least multiple of [a] that is not below [x]. *)
Lemma round_up_least (x a t : Z) :
  0 < a -> x <= a * t -> round_up x a <= a * t.
Proof.
  intros Ha Hx. unfold round_up, ceil_div.
  apply Z.mul_le_mono_nonneg_l; [ lia | ].
  apply Z.lt_succ_r. apply Z.div_lt_upper_bound; [ lia | ]. lia.
Qed.

Lemma round_up_ge (x a : Z) : 0 < a -> x <= round_up x a < x + a.
Proof.
  intros Ha. unfold round_up, ceil_div.
  pose proof (Z.div_mod (x + a - 1) a ltac:(lia)) as Hdm.
  pose proof (Z.mod_pos_bound (x + a - 1) a Ha) as Hr. lia.
Qed.

(** [allocateBytes] with the arithmetic of [Uptr] done. *)
Lemma allocateBytes_eq (P : Platform) (numBytes j : Z) (finalized : bool)
      (section : Section_) :
  platform_ok P ->
  0 <= j -> 2 ^ j < 2 ^ uptrBits P ->
  0 <= numBytes -> 0 <= numCommittedBytes section ->
  round_up (numCommittedBytes section) (2 ^ j) + round_up numBytes (2 ^ j)
  < 2 ^ uptrBits P ->
  0 <= numPages section * pageSize P < 2 ^ uptrBits P ->
  (WAVM_ENABLE_ASSERTS P = true ->
   baseAddress section <> 0 /\ baseAddress section mod 2 ^ j = 0) ->
  allocateBytes P numBytes (2 ^ j) finalized section
  = if WAVM_ENABLE_ASSERTS P && finalized then AssertionFailed
    else if round_up (numCommittedBytes section) (2 ^ j)
            + round_up numBytes (2 ^ j)
            >? numPages section * pageSize P
         then Fatal "didn't reserve enough space in section"
         else Ok (baseAddress section
                  + round_up (numCommittedBytes section) (2 ^ j),
                  mkSection (baseAddress section) (numPages section)
                            (round_up (numCommittedBytes section) (2 ^ j)
                             + round_up numBytes (2 ^ j))).
Proof.
  intros HP Hj Ha Hn Hc Hsum Hres Hasserted.
  pose proof (round_up_bounds (numCommittedBytes section) j Hj) as Hrc.
  pose proof (round_up_bounds numBytes j Hj) as Hrn.
  unfold allocateBytes, wavmAssert.
  rewrite !(align_round_up P HP) by (assumption || lia).
  rewrite (castU_id P HP (round_up (numCommittedBytes section) (2 ^ j)
                          + round_up numBytes (2 ^ j))) by lia.
  rewrite (shl_pages P HP) by assumption.
  destruct (WAVM_ENABLE_ASSERTS P); [ | reflexivity ].
  destruct (Hasserted eq_refl) as [Hbase Haligned].
  rewrite (power_of_two_mask P HP) by assumption.
  rewrite (aligned_mask P HP);
    [ | assumption | assumption
      | rewrite Z.add_mod, Haligned, round_up_mod by
          (pose proof (pow2_pos j Hj); lia); reflexivity ].
  destruct (Z.eqb_spec (baseAddress section) 0) as [E | _]; [ contradiction | ].
  destruct finalized; reflexivity.
Qed.



(** What [reserveAllocationSpace] returns when it has pages to reserve. *)
Lemma reserveAllocationSpace_inv (P : Platform)
      (numCodeBytes codeAlignment numReadOnlyBytes readOnlyAlignment
                    numReadWriteBytes readWriteAlignment : Z)
      (mm mm' : ModuleMemoryManager) :
  let codeBytes := if USE_WINDOWS_SEH P then numCodeBytes + 32 else numCodeBytes in
  let codePages := ceil_div codeBytes (pageSize P) in
  let readOnlyPages := ceil_div numReadOnlyBytes (pageSize P) in
  let readWritePages := ceil_div numReadWriteBytes (pageSize P) in
  let total := codePages + readOnlyPages + readWritePages in
  platform_ok P ->
  0 <= numCodeBytes -> 0 <= numReadOnlyBytes -> 0 <= numReadWriteBytes ->
  codeBytes + pageSize P - 1 < 2 ^ uptrBits P ->
  numReadOnlyBytes + pageSize P - 1 < 2 ^ uptrBits P ->
  numReadWriteBytes + pageSize P - 1 < 2 ^ uptrBits P ->
  total * pageSize P < 2 ^ uptrBits P ->
  0 < codeBytes + numReadOnlyBytes + numReadWriteBytes ->
  reserveAllocationSpace P numCodeBytes codeAlignment numReadOnlyBytes
                         readOnlyAlignment numReadWriteBytes readWriteAlignment mm
  = Ok mm' ->
  let base := allocateVirtualPages P total in
  0 < total
  /\ base <> 0
  /\ commitVirtualPages P base total = true
  /\ mm' = mkModuleMemoryManager
             base total (isFinalized mm)
             (mkSection base codePages (numCommittedBytes (codeSection mm)))
             (mkSection (base + codePages * pageSize P) readOnlyPages
                        (numCommittedBytes (readOnlySection mm)))
             (mkSection (base + codePages * pageSize P
                         + readOnlyPages * pageSize P)
                        readWritePages
                        (numCommittedBytes (readWriteSection mm)))
             (platformCalls mm
                ++ [AllocateVirtualPages total; CommitVirtualPages base total]).
Proof.
  intros codeBytes codePages readOnlyPages readWritePages total
         HP Hc Hro Hrw Hcroom Hroroom Hrwroom Hfit Hsome Hrun base.
  pose proof (pageSize_pos P HP) as Hps.
  assert (Hcb : 0 <= codeBytes)
    by (unfold codeBytes; destruct (USE_WINDOWS_SEH P); lia).
  assert (Hcap : forall x, 0 <= x ->
                           0 <= ceil_div x (pageSize P)
                           /\ x <= ceil_div x (pageSize P) * pageSize P).
  { intros x Hx. pose proof (round_up_ge x (pageSize P) Hps) as Hb.
    unfold round_up in Hb. split; [ | lia ].
    unfold ceil_div. apply Z.div_pos; lia. }
  destruct (Hcap _ Hcb) as [Hcp Hcpc]. fold codePages in Hcp, Hcpc.
  destruct (Hcap _ Hro) as [Hrop Hropc]. fold readOnlyPages in Hrop, Hropc.
  destruct (Hcap _ Hrw) as [Hrwp Hrwpc]. fold readWritePages in Hrwp, Hrwpc.
  assert (Htot : 0 < total < 2 ^ uptrBits P) by (unfold total; nia).
  unfold reserveAllocationSpace in Hrun.
  assert (Hcode : (if USE_WINDOWS_SEH P
                   then cast (Uptr P) (numCodeBytes + 32) else numCodeBytes)
                  = codeBytes).
  { unfold codeBytes in *. destruct (USE_WINDOWS_SEH P); [ | reflexivity ].
    apply castU_id; [ assumption | lia ]. }
  rewrite Hcode in Hrun.
  rewrite !(shrAndRoundUp_ceil_div P HP) in Hrun by assumption.
  fold codePages readOnlyPages readWritePages total in Hrun.
  rewrite (castU_id P HP total) in Hrun by lia.
  destruct (Z.eqb_spec total 0) as [E0 | Hne]; [ lia | ].
  cbn [negb] in Hrun. fold base in Hrun.
  destruct (Z.eqb_spec base 0) as [ | Hbase ]; [ discriminate | ].
  destruct (commitVirtualPages P base total) eqn:Ecommit; [ | discriminate ].
  cbn [negb] in Hrun.
  rewrite !(shl_pages P HP) in Hrun by (try assumption; unfold total in *; nia).
  rewrite <- app_assoc in Hrun. injection Hrun as <-.
  split; [ lia | ]. split; [ exact Hbase | ]. split; [ reflexivity | ].
  reflexivity.
Qed.



End AllocatorFacts.

(** * The padding for the SEH trampoline *)

Section TrampolineFacts.
Import LLVMJIT LoaderSpec.

(** Rounding up to [2^j] and then to 16 does not pass the next multiple
    of 16. *)
Lemma round_up_twice (n j : Z) :
  0 <= j <= 4 -> round_up (round_up n (2 ^ j)) 16 <= round_up n 16.
Proof.
  intros Hj.
  assert (H16 : 16 = 2 ^ j * 2 ^ (4 - j)).
  { rewrite <- Z.pow_add_r by lia. replace (j + (4 - j)) with 4 by lia.
    reflexivity. }
  pose proof (pow2_pos j ltac:(lia)) as Hpj.
  assert (Hinner : round_up n (2 ^ j) <= round_up n 16).
  { unfold round_up at 2. rewrite H16 at 1. rewrite <- Z.mul_assoc.
    apply round_up_least; [ assumption | ].
    rewrite Z.mul_assoc, <- H16.
    apply (round_up_ge n 16). lia. }
  unfold round_up at 3. apply round_up_least; [ lia | ].
  exact Hinner.
Qed.

(** X14.  The 32 bytes that [reserveAllocationSpace] adds to the code
    section where Windows SEH is used are enough for the trampoline: on a
    fresh manager, after reserving for [numCodeBytes] bytes of code and
    allocating them as one block aligned to at most 16, the allocation of the
    16-byte, 16-aligned trampoline succeeds; the trampoline lies after the
    code and before the read-only section. *)
Theorem X14_seh_trampoline_fits (P : Platform) (indeterminate : Z)
        (numCodeBytes codeAlignment numReadOnlyBytes readOnlyAlignment
                      numReadWriteBytes readWriteAlignment j : Z)
        (mm1 mm2 : ModuleMemoryManager) (code : Z) :
  platform_ok P ->
  USE_WINDOWS_SEH P = true ->
  4 < uptrBits P ->
  0 <= j <= 4 ->
  0 <= numCodeBytes -> 0 <= numReadOnlyBytes -> 0 <= numReadWriteBytes ->
  numCodeBytes + 32 + pageSize P - 1 < 2 ^ uptrBits P ->
  numReadOnlyBytes + pageSize P - 1 < 2 ^ uptrBits P ->
  numReadWriteBytes + pageSize P - 1 < 2 ^ uptrBits P ->
  (ceil_div (numCodeBytes + 32) (pageSize P)
   + ceil_div numReadOnlyBytes (pageSize P)
   + ceil_div numReadWriteBytes (pageSize P)) * pageSize P < 2 ^ uptrBits P ->
  reserveAllocationSpace P numCodeBytes codeAlignment numReadOnlyBytes
                         readOnlyAlignment numReadWriteBytes readWriteAlignment
                         (newModuleMemoryManager indeterminate)
  = Ok mm1 ->
  (WAVM_ENABLE_ASSERTS P = true -> imageBaseAddress mm1 mod 16 = 0) ->
  allocateCodeSection P numCodeBytes (2 ^ j) mm1 = Ok (code, mm2) ->
  exists trampoline mm3,
    allocateCodeSection P 16 16 mm2 = Ok (trampoline, mm3)
    /\ code = getImageBaseAddress mm1
    /\ code + numCodeBytes <= trampoline
    /\ trampoline + 16 <= baseAddress (readOnlySection mm3)
    /\ (imageBaseAddress mm1 mod 16 = 0 -> trampoline mod 16 = 0).
Proof.
  intros HP Hseh Hbits Hj Hc Hro Hrw Hcroom Hroroom Hrwroom Hfit Hres Hal Hcode.
  pose proof (pageSize_pos P HP) as Hps.
  assert (Hpow4 : 2 ^ 4 < 2 ^ uptrBits P) by (apply Z.pow_lt_mono_r; lia).
  assert (Hpowj : 2 ^ j < 2 ^ uptrBits P) by (apply Z.pow_lt_mono_r; lia).
  pose proof (pow2_pos j ltac:(lia)) as Hpj.
  pose proof (reserveAllocationSpace_inv P numCodeBytes codeAlignment
                numReadOnlyBytes readOnlyAlignment numReadWriteBytes
                readWriteAlignment (newModuleMemoryManager indeterminate) mm1 HP Hc
                Hro Hrw) as Hinv.
  cbv zeta in Hinv. rewrite Hseh in Hinv.
  specialize (Hinv Hcroom Hroroom Hrwroom Hfit ltac:(lia) Hres).
  destruct Hinv as (Htot & Hbase & _ & Hmm1).
  set (codePages := ceil_div (numCodeBytes + 32) (pageSize P)) in *.
  set (readOnlyPages := ceil_div numReadOnlyBytes (pageSize P)) in *.
  set (total := codePages + readOnlyPages
                + ceil_div numReadWriteBytes (pageSize P)) in *.
  set (base := allocateVirtualPages P total) in *.
  pose proof (round_up_ge (numCodeBytes + 32) (pageSize P) Hps) as Hcap.
  unfold round_up in Hcap. fold codePages in Hcap.
  assert (Hcp : 0 <= codePages)
    by (unfold codePages, ceil_div; apply Z.div_pos; lia).
  assert (Hrop : 0 <= readOnlyPages)
    by (unfold readOnlyPages, ceil_div; apply Z.div_pos; lia).
  assert (Hrwp : 0 <= ceil_div numReadWriteBytes (pageSize P))
    by (unfold ceil_div; apply Z.div_pos; lia).
  assert (Hcsize : 0 <= codePages * pageSize P < 2 ^ uptrBits P)
    by (unfold total in Hfit; nia).
  pose proof (round_up_ge numCodeBytes (2 ^ j) Hpj) as Hr1.
  pose proof (round_up_ge numCodeBytes 16 ltac:(lia)) as Hr16.
  pose proof (round_up_twice numCodeBytes j Hj) as Htwice.
  pose proof (round_up_ge (round_up numCodeBytes (2 ^ j)) 16 ltac:(lia)) as Hr2.
  assert (Hbasej : base mod 16 = 0 -> base mod 2 ^ j = 0).
  { intros H16.
    assert (E16 : 16 = 2 ^ j * 2 ^ (4 - j)).
    { rewrite <- Z.pow_add_r by lia. replace (j + (4 - j)) with 4 by lia.
      reflexivity. }
    apply Z.mod_divide in H16; [ | lia ]. destruct H16 as [q Hq].
    apply Z.mod_divide; [ lia | ]. exists (q * 2 ^ (4 - j)). rewrite Hq, E16. ring. }
  subst mm1. cbn [imageBaseAddress] in Hal.
  (* the code *)
  unfold allocateCodeSection in Hcode.
  cbn [isFinalized codeSection newModuleMemoryManager numCommittedBytes
       imageBaseAddress numAllocatedImagePages readOnlySection readWriteSection
       platformCalls] in Hcode.
  rewrite (castU_id P HP numCodeBytes) in Hcode by lia.
  rewrite (allocateBytes_eq P numCodeBytes j false (mkSection base codePages 0) HP)
    in Hcode;
    cbn [numCommittedBytes numPages baseAddress];
    rewrite ?(round_up_zero (2 ^ j)) by lia;
    try lia; try assumption;
    [ | intros Hen; split; [ exact Hbase | exact (Hbasej (Hal Hen)) ] ].
  rewrite andb_false_r in Hcode.
  cbn [numCommittedBytes numPages baseAddress] in Hcode.
  rewrite (round_up_zero (2 ^ j)) in Hcode by lia.
  rewrite Z.add_0_l, Z.add_0_r in Hcode.
  destruct (Z.gtb_spec (round_up numCodeBytes (2 ^ j)) (codePages * pageSize P));
    [ discriminate | ].
  cbn [with_section] in Hcode. injection Hcode as <- <-.
  (* the trampoline *)
  unfold allocateCodeSection.
  cbn [isFinalized codeSection newModuleMemoryManager numCommittedBytes
       imageBaseAddress numAllocatedImagePages readOnlySection readWriteSection
       platformCalls].
  rewrite (castU_id P HP 16) by (change 16 with (2 ^ 4); lia).
  change 16 with (2 ^ 4) at 2.
  rewrite (allocateBytes_eq P 16 4 false
             (mkSection base codePages (round_up numCodeBytes (2 ^ j))) HP);
    cbn [numCommittedBytes numPages baseAddress];
    change (2 ^ 4) with 16;
    rewrite ?(round_up_zero 16) by lia;
    try lia; try assumption;
    [ | change (round_up 16 16) with 16; lia
      | intros Hen; split; [ exact Hbase | exact (Hal Hen) ] ].
  rewrite andb_false_r.
  change (round_up 16 16) with 16.
  destruct (Z.gtb_spec (round_up (round_up numCodeBytes (2 ^ j)) 16 + 16)
                       (codePages * pageSize P)); [ lia | ].
  cbn [with_section].
  eexists. eexists. split; [ reflexivity | ].
  unfold getImageBaseAddress.
  cbn [imageBaseAddress readOnlySection baseAddress].
  split; [ reflexivity | ]. split; [ lia | ]. split; [ lia | ].
  intros H16. rewrite Z.add_mod, H16 by lia.
  rewrite (round_up_mod _ 16). reflexivity.
Qed.

Lemma X14_seh_trampoline_fits_witness :
  let P := platform64 true true (fun _ => 65536) (fun _ _ => true) in
  let mm1 := mkModuleMemoryManager
               65536 3 false
               (mkSection 65536 1 0) (mkSection 69632 1 0) (mkSection 73728 1 0)
               [AllocateVirtualPages 3; CommitVirtualPages 65536 3] in
  let mm2 := mkModuleMemoryManager
               65536 3 false
               (mkSection 65536 1 4060) (mkSection 69632 1 0) (mkSection 73728 1 0)
               [AllocateVirtualPages 3; CommitVirtualPages 65536 3] in
  exists trampoline mm3,
    allocateCodeSection P 16 16 mm2 = Ok (trampoline, mm3)
    /\ 65536 = getImageBaseAddress mm1
    /\ 65536 + 4060 <= trampoline
    /\ trampoline + 16 <= baseAddress (readOnlySection mm3)
    /\ (imageBaseAddress mm1 mod 16 = 0 -> trampoline mod 16 = 0).
Proof.
  intros P mm1 mm2.
  assert (H1 : platform_ok P) by (unfold platform_ok; cbn; lia).
  assert (H2 : 4 < uptrBits P) by reflexivity.
  assert (H3 : 0 <= 2 <= 4) by lia.
  assert (H4 : 0 <= 4060) by lia.
  assert (H5 : 0 <= 8) by lia.
  assert (H6 : 4060 + 32 + pageSize P - 1 < 2 ^ uptrBits P) by reflexivity.
  assert (H7 : 8 + pageSize P - 1 < 2 ^ uptrBits P) by reflexivity.
  assert (H8 : (ceil_div (4060 + 32) (pageSize P) + ceil_div 8 (pageSize P)
                + ceil_div 8 (pageSize P)) * pageSize P < 2 ^ uptrBits P)
    by reflexivity.
  assert (H9 : WAVM_ENABLE_ASSERTS P = true -> imageBaseAddress mm1 mod 16 = 0)
    by (intros _; reflexivity).
  exact (X14_seh_trampoline_fits P 7 4060 4 8 8 8 8 2 mm1 mm2 65536
           H1 eq_refl H2 H3 H4 H5 H5 H6 H7 H7 H8 eq_refl H9 eq_refl).
Defined.

End TrampolineFacts.

(** * Finalizing and destroying a memory manager *)

Section LifecycleFacts.
Import LLVMJIT LoaderSpec MemoryManagerLifecycle.

Lemma setSectionAccess_Ok (setVirtualPageAccess : Z -> Z -> MemoryAccess -> bool)
      (msg : string) (section : Section_) (access : MemoryAccess)
      (log : list LifecycleCall) (k : list LifecycleCall -> result Manager)
      (m' : Manager) :
  setSectionAccess setVirtualPageAccess msg section access log k = Ok m' ->
  k (log ++ accessCall section access) = Ok m'
  /\ (numPages section <> 0 ->
      setVirtualPageAccess (baseAddress section) (numPages section) access = true).
Proof.
  unfold setSectionAccess, accessCall.
  destruct (Z.eqb_spec (numPages section) 0) as [E | E]; cbn [negb].
  - rewrite app_nil_r. intros H. split; [ exact H | contradiction ].
  - destruct (setVirtualPageAccess (baseAddress section) (numPages section) access);
      [ | discriminate ].
    intros H. split; [ exact H | reflexivity ].
Qed.

Lemma allocateBytes_finalized (P : Platform) (numBytes alignment : Z)
      (section : Section_) :
  allocateBytes P numBytes alignment true section
  = if WAVM_ENABLE_ASSERTS P then AssertionFailed
    else allocateBytes P numBytes alignment false section.
Proof.
  unfold allocateBytes, wavmAssert.
  destruct (WAVM_ENABLE_ASSERTS P); cbn [andb negb]; [ | reflexivity ].
  destruct (negb (negb (baseAddress section =? 0))); [ reflexivity | ].
  destruct (negb (Z.land alignment (cast (Uptr P) (alignment - 1)) =? 0));
    reflexivity.
Qed.

(** X15.  When [reallyFinalizeMemory] returns, the manager is finalized and
    otherwise as before; the platform was asked, in this order, to make the
    code section executable, the read-only section read-only and the
    read-write section read-write, skipping sections without pages, and
    agreed every time.  From then on, in a build with assertions, finalizing
    again or allocating from any section fails an assertion; in a build
    without them the allocator does not look at the flag. *)
Theorem X15_reallyFinalizeMemory (P : Platform)
        (setVirtualPageAccess : Z -> Z -> MemoryAccess -> bool)
        (msg : string) (m m' : Manager) :
  reallyFinalizeMemory P setVirtualPageAccess msg m = Ok m' ->
  let mm := memory m in
  memory m' = mkModuleMemoryManager
                (imageBaseAddress mm) (numAllocatedImagePages mm) true
                (codeSection mm) (readOnlySection mm) (readWriteSection mm)
                (platformCalls mm)
  /\ frames m' = frames m
  /\ calls m' = calls m ++ accessCall (codeSection mm) execute
                        ++ accessCall (readOnlySection mm) readOnly
                        ++ accessCall (readWriteSection mm) readWrite
  /\ (forall base pages access,
         In (SetVirtualPageAccess base pages access)
            (accessCall (codeSection mm) execute
             ++ accessCall (readOnlySection mm) readOnly
             ++ accessCall (readWriteSection mm) readWrite) ->
         setVirtualPageAccess base pages access = true)
  /\ (WAVM_ENABLE_ASSERTS P = true ->
      isFinalized mm = false
      /\ reallyFinalizeMemory P setVirtualPageAccess msg m' = AssertionFailed
      /\ (forall numBytes alignment,
             allocateCodeSection P numBytes alignment (memory m')
             = AssertionFailed)
      /\ (forall numBytes alignment isReadOnly,
             allocateDataSection P numBytes alignment isReadOnly (memory m')
             = AssertionFailed))
  /\ (WAVM_ENABLE_ASSERTS P = false ->
      forall numBytes alignment section,
        allocateBytes P numBytes alignment (isFinalized (memory m')) section
        = allocateBytes P numBytes alignment false section).
Proof.
  intros Hrun mm. unfold reallyFinalizeMemory, wavmAssert in Hrun.
  destruct (WAVM_ENABLE_ASSERTS P && negb (negb (isFinalized (memory m))))
           eqn:Eassert; [ discriminate | ].
  apply setSectionAccess_Ok in Hrun. destruct Hrun as [Hrun Hcode].
  apply setSectionAccess_Ok in Hrun. destruct Hrun as [Hrun Hro].
  apply setSectionAccess_Ok in Hrun. destruct Hrun as [Hrun Hrw].
  injection Hrun as <-. cbn [memory frames calls]. fold mm.
  split; [ reflexivity | ]. split; [ reflexivity | ].
  split; [ rewrite <- !app_assoc; reflexivity | ].
  split.
  { intros base pages access Hin.
    unfold accessCall in Hin.
    rewrite !in_app_iff in Hin.
    destruct Hin as [Hin | [Hin | Hin]];
      [ destruct (Z.eqb_spec (numPages (codeSection mm)) 0) as [ | Hne ]
      | destruct (Z.eqb_spec (numPages (readOnlySection mm)) 0) as [ | Hne ]
      | destruct (Z.eqb_spec (numPages (readWriteSection mm)) 0) as [ | Hne ] ];
      try (destruct Hin; fail);
      (destruct Hin as [Hin | []]; injection Hin as <- <- <-; auto). }
  split.
  - intros Hen. rewrite Hen in Eassert. cbn [andb] in Eassert.
    rewrite negb_involutive in Eassert.
    split; [ exact Eassert | ].
    split.
    { unfold reallyFinalizeMemory, wavmAssert. cbn [memory isFinalized].
      rewrite Hen. reflexivity. }
    split.
    + intros numBytes alignment. unfold allocateCodeSection.
      cbn [isFinalized]. rewrite allocateBytes_finalized, Hen. reflexivity.
    + intros numBytes alignment isReadOnly. unfold allocateDataSection.
      cbn [isFinalized]. rewrite !allocateBytes_finalized, Hen.
      destruct isReadOnly; reflexivity.
  - intros Hdis numBytes alignment section. cbn [isFinalized].
    rewrite allocateBytes_finalized, Hdis. reflexivity.
Qed.

Lemma X15_reallyFinalizeMemory_witness :
  let P := platform64 false true (fun _ => 65536) (fun _ _ => true) in
  let mm := mkModuleMemoryManager
              65536 2 false
              (mkSection 65536 1 112) (mkSection 69632 1 8) (mkSection 73728 0 0)
              [AllocateVirtualPages 2; CommitVirtualPages 65536 2] in
  let m := mkManager mm (mkEHFrames false 0 0) [] in
  exists m',
    reallyFinalizeMemory P (fun _ _ _ => true) "errorUnless" m = Ok m'
    /\ calls m' = [SetVirtualPageAccess 65536 1 execute;
                   SetVirtualPageAccess 69632 1 readOnly]
    /\ allocateCodeSection P 16 16 (memory m') = AssertionFailed.
Proof.
  intros P mm m.
  eexists. split; [ reflexivity | ].
  pose proof (X15_reallyFinalizeMemory P (fun _ _ _ => true) "errorUnless" m _
                                       eq_refl) as H.
  cbv zeta in H. destruct H as (_ & _ & Hcalls & _ & Hassert & _).
  split; [ exact Hcalls | ].
  destruct (Hassert eq_refl) as (_ & _ & Hcode & _).
  exact (Hcode 16 16).
Defined.

(** X16.  The exception frames are deregistered exactly when they were
    registered, with the same arguments: destroying a manager on which
    [registerEHFrames] was called once makes, where Windows SEH is not used,
    the calls register, deregister and decommit, and where it is used only
    decommit; the decommit is of [numAllocatedImagePages] pages at the image
    base.  [deregisterEHFrames] does nothing the
    second time. *)
Theorem X16_destroy_manager (P : Platform) (addr loadAddr numBytes : Z)
        (m : Manager) :
  hasRegisteredEHFrames (frames m) = false ->
  let base := imageBaseAddress (memory m) in
  let m' := destroyManager (registerEHFrames P addr loadAddr numBytes m) in
  calls m'
  = calls m
    ++ (if USE_WINDOWS_SEH P then []
        else [RegisterEHFrames base addr numBytes;
              DeregisterEHFrames base addr numBytes])
    ++ [DecommitVirtualPages base (numAllocatedImagePages (memory m))]
  /\ memory m' = memory m
  /\ hasRegisteredEHFrames (frames m') = false
  /\ deregisterEHFrames m' = m'
  /\ forall m0, deregisterEHFrames (deregisterEHFrames m0) = deregisterEHFrames m0.
Proof.
  intros Hfresh base m'.
  assert (Hidem : forall m0,
             deregisterEHFrames (deregisterEHFrames m0) = deregisterEHFrames m0).
  { intros m0. unfold deregisterEHFrames.
    destruct (hasRegisteredEHFrames (frames m0)) eqn:E.
    - cbn [frames hasRegisteredEHFrames]. reflexivity.
    - rewrite E. reflexivity. }
  unfold m', destroyManager, registerEHFrames, deregisterEHFrames.
  destruct (USE_WINDOWS_SEH P); cbn [negb].
  - rewrite Hfresh. cbn [calls memory frames]. rewrite Hfresh.
    repeat split; try reflexivity. exact Hidem.
  - cbn [frames hasRegisteredEHFrames calls memory ehFramesAddr ehFramesNumBytes].
    rewrite <- !app_assoc.
    repeat split; try reflexivity. exact Hidem.
Qed.

Lemma X16_destroy_manager_witness :
  let P := platform64 false true (fun _ => 65536) (fun _ _ => true) in
  let m := mkManager Example.mm0 (mkEHFrames false 0 0) [] in
  calls (destroyManager (registerEHFrames P 65600 65600 24 m))
  = [RegisterEHFrames 65536 65600 24; DeregisterEHFrames 65536 65600 24;
     DecommitVirtualPages 65536 1].
Proof.
  intros P m.
  exact (proj1 (X16_destroy_manager P 65600 65600 24 m eq_refl)).
Defined.

End LifecycleFacts.

(** * The two indexes: loading and unloading *)

Section MapUpdateFacts.
Import LLVMJIT LoaderSpec.

Context {V : Type}.

Lemma sorted_keys_cons (entry : Z * V) (m : map_ V) :
  sorted_keys m -> (forall k v, In (k, v) m -> fst entry < k) ->
  sorted_keys (entry :: m).
Proof.
  intros Hs Hlt. unfold sorted_keys in *. cbn [map].
  constructor; [ exact Hs | ].
  apply Forall_forall. intros k Hk. apply in_map_iff in Hk.
  destruct Hk as [[k' v] [<- Hin]]. exact (Hlt k' v Hin).
Qed.

Lemma emplace_In (key : Z) (value : V) (m : map_ V) (entry : Z * V) :
  In entry (emplace key value m) -> In entry m \/ entry = (key, value).
Proof.
  induction m as [ | [k v] rest IH ]; cbn [emplace].
  - intros [<- | []]. right. reflexivity.
  - destruct (key <? k).
    + intros [<- | H]; [ right; reflexivity | left; exact H ].
    + destruct (key =? k); [ intros H; left; exact H | ].
      intros [<- | H]; [ left; left; reflexivity | ].
      destruct (IH H) as [H' | H']; [ left; right; exact H' | right; exact H' ].
Qed.

Lemma emplace_keeps (key : Z) (value : V) (m : map_ V) (entry : Z * V) :
  In entry m -> In entry (emplace key value m).
Proof.
  induction m as [ | [k v] rest IH ]; cbn [emplace]; [ intros [] | ].
  destruct (key <? k); [ intros H; right; exact H | ].
  destruct (key =? k); [ intros H; exact H | ].
  intros [<- | H]; [ left; reflexivity | right; exact (IH H) ].
Qed.

Lemma emplace_has_key (key : Z) (value : V) (m : map_ V) :
  exists v, In (key, v) (emplace key value m).
Proof.
  induction m as [ | [k v] rest IH ]; cbn [emplace].
  - exists value. left. reflexivity.
  - destruct (key <? k); [ exists value; left; reflexivity | ].
    destruct (Z.eqb_spec key k) as [-> | _]; [ exists v; left; reflexivity | ].
    destruct IH as [v' Hv']. exists v'. right. exact Hv'.
Qed.

Lemma emplace_sorted (key : Z) (value : V) (m : map_ V) :
  sorted_keys m -> sorted_keys (emplace key value m).
Proof.
  induction m as [ | [k v] rest IH ]; intros Hs; cbn [emplace].
  - apply sorted_keys_cons; [ exact Hs | intros ? ? [] ].
  - destruct (sorted_keys_tail _ _ Hs) as [Hrest Hlt]. cbn [fst] in Hlt.
    destruct (Z.ltb_spec key k).
    + apply sorted_keys_cons; [ exact Hs | ].
      intros k' v' [E | Hin]; cbn [fst].
      * injection E as <- <-. assumption.
      * specialize (Hlt k' v' Hin). lia.
    + destruct (Z.eqb_spec key k); [ exact Hs | ].
      apply sorted_keys_cons; [ exact (IH Hrest) | ].
      intros k' v' Hin. cbn [fst].
      destruct (emplace_In _ _ _ _ Hin) as [Hold | E].
      * exact (Hlt k' v' Hold).
      * injection E as -> ->. lia.
Qed.

(** [emplace] does not replace the value of a key that is present. *)
Lemma emplace_present (key : Z) (value v0 : V) (m : map_ V) :
  sorted_keys m -> In (key, v0) m -> emplace key value m = m.
Proof.
  induction m as [ | [k v] rest IH ]; intros Hs Hin; [ destruct Hin | ].
  destruct (sorted_keys_tail _ _ Hs) as [Hrest Hlt]. cbn [fst] in Hlt.
  cbn [emplace].
  destruct Hin as [E | Hin].
  - injection E as -> ->.
    destruct (Z.ltb_spec key key); [ lia | ]. rewrite Z.eqb_refl. reflexivity.
  - specialize (Hlt key v0 Hin).
    destruct (Z.ltb_spec key k); [ lia | ].
    destruct (Z.eqb_spec key k); [ reflexivity | ].
    rewrite (IH Hrest Hin). reflexivity.
Qed.

Lemma emplace_fresh (key : Z) (value : V) (m : map_ V) :
  (forall v, ~ In (key, v) m) -> In (key, value) (emplace key value m).
Proof.
  induction m as [ | [k v] rest IH ]; intros Hfresh; cbn [emplace].
  - left. reflexivity.
  - destruct (key <? k); [ left; reflexivity | ].
    destruct (Z.eqb_spec key k) as [-> | _].
    + exfalso. apply (Hfresh v). left. reflexivity.
    + right. apply IH. intros v' Hin. apply (Hfresh v'). right. exact Hin.
Qed.

Lemma erase_emplace_fresh (key : Z) (value : V) (m : map_ V) :
  (forall v, ~ In (key, v) m) -> erase key (emplace key value m) = m.
Proof.
  induction m as [ | [k v] rest IH ]; intros Hfresh; cbn [emplace].
  - cbn [erase]. rewrite Z.eqb_refl. reflexivity.
  - destruct (key <? k); [ cbn [erase]; rewrite Z.eqb_refl; reflexivity | ].
    destruct (Z.eqb_spec key k) as [-> | Hne].
    + exfalso. apply (Hfresh v). left. reflexivity.
    + cbn [erase]. destruct (Z.eqb_spec key k); [ contradiction | ].
      rewrite IH; [ reflexivity | ].
      intros v' Hin. apply (Hfresh v'). right. exact Hin.
Qed.

Lemma erase_In (key : Z) (m : map_ V) (entry : Z * V) :
  In entry (erase key m) -> In entry m.
Proof.
  induction m as [ | [k v] rest IH ]; cbn [erase]; [ intros [] | ].
  destruct (key =? k); [ intros H; right; exact H | ].
  intros [<- | H]; [ left; reflexivity | right; exact (IH H) ].
Qed.

Lemma erase_other (key : Z) (m : map_ V) (k : Z) (v : V) :
  In (k, v) m -> k <> key -> In (k, v) (erase key m).
Proof.
  induction m as [ | [k' v'] rest IH ]; cbn [erase]; [ intros [] | ].
  intros Hin Hne. destruct (Z.eqb_spec key k') as [-> | _].
  - destruct Hin as [E | Hin]; [ injection E as -> ->; contradiction | exact Hin ].
  - destruct Hin as [E | Hin]; [ left; exact E | right; exact (IH Hin Hne) ].
Qed.

Lemma erase_sorted (key : Z) (m : map_ V) :
  sorted_keys m -> sorted_keys (erase key m).
Proof.
  induction m as [ | [k v] rest IH ]; intros Hs; cbn [erase]; [ exact Hs | ].
  destruct (sorted_keys_tail _ _ Hs) as [Hrest Hlt].
  destruct (key =? k); [ exact Hrest | ].
  apply sorted_keys_cons; [ exact (IH Hrest) | ].
  intros k' v' Hin. exact (Hlt k' v' (erase_In _ _ _ Hin)).
Qed.

Lemma erase_removes (key : Z) (m : map_ V) (v : V) :
  sorted_keys m -> ~ In (key, v) (erase key m).
Proof.
  induction m as [ | [k v'] rest IH ]; intros Hs; cbn [erase]; [ intros [] | ].
  destruct (sorted_keys_tail _ _ Hs) as [Hrest Hlt]. cbn [fst] in Hlt.
  destruct (Z.eqb_spec key k) as [-> | Hne].
  - intros Hin. specialize (Hlt k v Hin). lia.
  - intros [E | Hin]; [ injection E as -> ->; contradiction | ].
    exact (IH Hrest Hin).
Qed.

End MapUpdateFacts.

Section IndexFacts.
Import LLVMJIT LoaderSpec LoaderLoop.

Lemma registerFunction_keyed (P : Platform) (loadedAddress size : Z)
      (offsetToOpIndexMap : map_ Z) (m : LoadedModule) :
  platform_ok P ->
  0 <= loadedAddress < 2 ^ uptrBits P ->
  module_keyed P m ->
  module_keyed P (registerFunction P loadedAddress size offsetToOpIndexMap m).
Proof.
  intros HP Haddr [Hs Hk]. unfold registerFunction, module_keyed.
  cbn [addressToFunctionMap JITFunction.baseAddress JITFunction.numBytes].
  split; [ apply emplace_sorted; exact Hs | ].
  intros k f Hin. destruct (emplace_In _ _ _ _ Hin) as [Hold | E].
  - exact (Hk k f Hold).
  - injection E as -> ->. split; [ | reflexivity ].
    split; cbn [JITFunction.baseAddress JITFunction.numBytes];
      [ exact Haddr | apply castU_range; exact HP ].
Qed.

Lemma loadFunctions_spec (P : Platform) (symbols : list Symbol) :
  platform_ok P ->
  Forall (fun s => 0 <= loadedAddress s < 2 ^ uptrBits P) symbols ->
  forall m,
    module_keyed P m ->
    (forall k f, In (k, f) (addressToFunctionMap m) -> In f (functions m)) ->
    (forall f, In f (functions m) ->
               exists f', In (functionEnd P f, f') (addressToFunctionMap m)) ->
    let m' := loadFunctions P symbols m in
    module_keyed P m'
    /\ memoryManager m' = memoryManager m
    /\ functions m' = functions m ++ map (jitFunctionOf P) symbols
    /\ (forall k f, In (k, f) (addressToFunctionMap m') -> In f (functions m'))
    /\ (forall f, In f (functions m') ->
                  exists f', In (functionEnd P f, f') (addressToFunctionMap m'))
    /\ (forall e, In e (addressToFunctionMap m) -> In e (addressToFunctionMap m')).
Proof.
  intros HP Hall. induction Hall as [ | s symbols Hs Hall IH ];
    intros m Hkeyed Hsub Hsup; cbv zeta.
  - cbn [loadFunctions fold_left map]. rewrite app_nil_r.
    split; [ exact Hkeyed | ]. split; [ reflexivity | ].
    split; [ reflexivity | ]. split; [ exact Hsub | ]. split; [ exact Hsup | ].
    intros e He. exact He.
  - unfold loadFunctions. cbn [fold_left]. fold (loadFunctions P symbols).
    set (m1 := registerFunction P (loadedAddress s) (size s) (lineInfo s) m).
    assert (Hk1 : module_keyed P m1)
      by (apply registerFunction_keyed; assumption).
    assert (Hsub1 : forall k f, In (k, f) (addressToFunctionMap m1) ->
                                In f (functions m1)).
    { intros k f Hin. unfold m1, registerFunction in *.
      cbn [addressToFunctionMap functions] in *.
      apply in_or_app. destruct (emplace_In _ _ _ _ Hin) as [Hold | E].
      - left. exact (Hsub k f Hold).
      - injection E as _ ->. right. left. reflexivity. }
    assert (Hsup1 : forall f, In f (functions m1) ->
                              exists f', In (functionEnd P f, f')
                                            (addressToFunctionMap m1)).
    { intros f Hin. unfold m1, registerFunction in *.
      cbn [addressToFunctionMap functions] in *.
      apply in_app_or in Hin. destruct Hin as [Hold | [<- | []]].
      - destruct (Hsup f Hold) as [f' Hf']. exists f'.
        apply emplace_keeps. exact Hf'.
      - apply emplace_has_key. }
    destruct (IH m1 Hk1 Hsub1 Hsup1) as (H1 & H2 & H3 & H4 & H5 & H6).
    split; [ exact H1 | ]. split; [ exact H2 | ].
    split.
    { etransitivity; [ exact H3 | ].
      unfold m1, registerFunction. cbn [functions map].
      rewrite <- app_assoc. reflexivity. }
    split; [ exact H4 | ]. split; [ exact H5 | ].
    intros e He. apply H6. unfold m1, registerFunction.
    cbn [addressToFunctionMap]. apply emplace_keeps. exact He.
Qed.

(** X17.  The loop of the constructor over the function symbols makes one
    [JITFunction] per symbol, in order, and leaves [addressToFunctionMap]
    ordered with every entry under the key of its function's end; the
    functions in the map are functions of the module, and the end of every
    function of the module has an entry in the map (its own, or that of an
    earlier function with the same end, since [emplace] does not replace). *)
Theorem X17_loadFunctions (P : Platform) (mm : ModuleMemoryManager)
        (symbols : list Symbol) :
  platform_ok P ->
  Forall (fun s => 0 <= loadedAddress s < 2 ^ uptrBits P) symbols ->
  let m := loadFunctions P symbols (mkLoadedModule mm [] []) in
  module_keyed P m
  /\ memoryManager m = mm
  /\ functions m = map (jitFunctionOf P) symbols
  /\ (forall k f, In (k, f) (addressToFunctionMap m) -> In f (functions m))
  /\ (forall f, In f (functions m) ->
                exists f', In (functionEnd P f, f') (addressToFunctionMap m)).
Proof.
  intros HP Hall m.
  destruct (loadFunctions_spec P symbols HP Hall (mkLoadedModule mm [] []))
    as (H1 & H2 & H3 & H4 & H5 & _).
  - split; [ constructor | intros k f [] ].
  - intros k f [].
  - intros f [].
  - split; [ exact H1 | ]. split; [ exact H2 | ]. split; [ exact H3 | ].
    split; [ exact H4 | exact H5 ].
Qed.

Lemma X17_loadFunctions_witness :
  let P := Example.P0 in
  let symbols := [mkSymbol 65536 100 []; mkSymbol 65636 12 []] in
  let m := loadFunctions P symbols (mkLoadedModule Example.mm0 [] []) in
  module_keyed P m
  /\ memoryManager m = Example.mm0
  /\ functions m = map (jitFunctionOf P) symbols
  /\ (forall k f, In (k, f) (addressToFunctionMap m) -> In f (functions m))
  /\ (forall f, In f (functions m) ->
                exists f', In (functionEnd P f, f') (addressToFunctionMap m)).
Proof.
  intros P symbols.
  assert (HP : platform_ok P) by (unfold platform_ok; cbn; lia).
  assert (Hall : Forall (fun s => 0 <= loadedAddress s < 2 ^ uptrBits P) symbols).
  { repeat constructor; cbn; lia. }
  exact (X17_loadFunctions P Example.mm0 symbols HP Hall).
Defined.

Lemma publishModule_keyed (P : Platform) (m : LoadedModule) (g : Global) :
  keyed P g -> module_keyed P m -> keyed P (publishModule P m g).
Proof.
  intros [Hs Hfs Hfk] [Hms Hmk]. unfold publishModule.
  constructor; cbn [addressToModuleMap].
  - apply emplace_sorted. exact Hs.
  - intros e m' Hin. destruct (emplace_In _ _ _ _ Hin) as [Hold | E].
    + exact (Hfs e m' Hold).
    + injection E as _ ->. exact Hms.
  - intros e m' k f Hin Hf. destruct (emplace_In _ _ _ _ Hin) as [Hold | E].
    + exact (Hfk e m' k f Hold Hf).
    + injection E as _ ->. exact (Hmk k f Hf).
Qed.

Lemma destroyModule_keyed (P : Platform) (m : LoadedModule) (g : Global) :
  keyed P g -> keyed P (destroyModule P m g).
Proof.
  intros [Hs Hfs Hfk]. unfold destroyModule.
  constructor; cbn [addressToModuleMap].
  - apply erase_sorted. exact Hs.
  - intros e m' Hin. exact (Hfs e m' (erase_In _ _ _ Hin)).
  - intros e m' k f Hin Hf. exact (Hfk e m' k f (erase_In _ _ _ Hin) Hf).
Qed.

(** X18.  Loading and unloading keep the two maps as the lookup needs them:
    starting from maps that are ordered with every function under the key of
    its end (as the empty maps are), constructing a module from any symbols
    with addresses in [Uptr], and unloading a module whose key is in the
    map, leave them so. *)
Theorem X18_index_invariant (P : Platform) (mm : ModuleMemoryManager)
        (symbols : list Symbol) (m : LoadedModule) (g : Global) :
  platform_ok P ->
  keyed P g ->
  Forall (fun s => 0 <= loadedAddress s < 2 ^ uptrBits P) symbols ->
  keyed P (snd (constructLoadedModule P mm symbols g))
  /\ ((exists m0, In (imageEnd P m, m0) (addressToModuleMap g)) ->
      keyed P (unloadModule P m g))
  /\ keyed P (mkGlobal [] []).
Proof.
  intros HP Hg Hall. split; [ | split ].
  - unfold constructLoadedModule. cbn [snd].
    apply publishModule_keyed; [ exact Hg | ].
    destruct (loadFunctions_spec P symbols HP Hall (mkLoadedModule mm [] []))
      as (H1 & _).
    + split; [ constructor | intros k f [] ].
    + intros k f [].
    + intros f [].
    + exact H1.
  - intros _. apply destroyModule_keyed. exact Hg.
  - constructor; cbn [addressToModuleMap].
    + constructor.
    + intros e m' [].
    + intros e m' k f [].
Qed.

Lemma X18_index_invariant_witness :
  keyed Example.P0
        (snd (constructLoadedModule Example.P0 Example.mm0
                                    [mkSymbol 65536 100 []] Example.g0))
  /\ keyed Example.P0 (unloadModule Example.P0 Example.m0 Example.g0)
  /\ keyed Example.P0 (mkGlobal [] []).
Proof.
  assert (HP : platform_ok Example.P0) by (unfold platform_ok; cbn; lia).
  assert (Hall : Forall (fun s => 0 <= loadedAddress s < 2 ^ uptrBits Example.P0)
                        [mkSymbol 65536 100 []]).
  { repeat constructor; cbn; lia. }
  assert (Hin : exists m0, In (imageEnd Example.P0 Example.m0, m0)
                              (addressToModuleMap Example.g0)).
  { exists Example.m0. left. reflexivity. }
  destruct (X18_index_invariant Example.P0 Example.mm0 [mkSymbol 65536 100 []]
                                Example.m0 Example.g0 HP g0_keyed Hall)
    as (H1 & H2 & H3).
  split; [ exact H1 | ]. split; [ exact (H2 Hin) | exact H3 ].
Defined.

(** X19.  Unloading undoes loading: when no module is registered under the
    end of the new module's image, publishing the module and then destroying
    it leaves [addressToModuleMap] as it was, so that every lookup answers
    as before; in between, the module is in the map.  When a module is
    already registered under that key, publishing changes nothing, and
    destroying the new module removes the entry of the other one. *)
Theorem X19_load_unload (P : Platform) (m : LoadedModule) (g : Global) :
  sorted_keys (addressToModuleMap g) ->
  ((forall m0, ~ In (imageEnd P m, m0) (addressToModuleMap g)) ->
   In (imageEnd P m, m) (addressToModuleMap (publishModule P m g))
   /\ addressToModuleMap (destroyModule P m (publishModule P m g))
      = addressToModuleMap g
   /\ forall address,
       snd (getJITFunctionByAddress P address
                                    (destroyModule P m (publishModule P m g)))
       = snd (getJITFunctionByAddress P address g))
  /\ (forall m0,
         In (imageEnd P m, m0) (addressToModuleMap g) ->
         addressToModuleMap (publishModule P m g) = addressToModuleMap g
         /\ ~ In (imageEnd P m, m0)
              (addressToModuleMap (destroyModule P m (publishModule P m g)))).
Proof.
  intros Hs. split.
  - intros Hfresh.
    assert (Hmap : addressToModuleMap (destroyModule P m (publishModule P m g))
                   = addressToModuleMap g).
    { unfold destroyModule, publishModule. cbn [addressToModuleMap].
      apply erase_emplace_fresh. exact Hfresh. }
    split; [ | split ].
    + unfold publishModule. cbn [addressToModuleMap].
      apply emplace_fresh. exact Hfresh.
    + exact Hmap.
    + intros address. rewrite !getJITFunctionByAddress_result, Hmap. reflexivity.
  - intros m0 Hin.
    assert (Hsame : addressToModuleMap (publishModule P m g) = addressToModuleMap g).
    { unfold publishModule. cbn [addressToModuleMap].
      apply (emplace_present _ _ m0); assumption. }
    split; [ exact Hsame | ].
    unfold destroyModule. cbn [addressToModuleMap]. rewrite Hsame.
    apply erase_removes. exact Hs.
Qed.

Lemma X19_load_unload_witness :
  In (imageEnd Example.P0 Example.m0, Example.m0)
     (addressToModuleMap (publishModule Example.P0 Example.m0 (mkGlobal [] [])))
  /\ addressToModuleMap
       (destroyModule Example.P0 Example.m0
                      (publishModule Example.P0 Example.m0 (mkGlobal [] [])))
     = [].
Proof.
  assert (Hs : sorted_keys (addressToModuleMap (@mkGlobal [] [])))
    by constructor.
  destruct (X19_load_unload Example.P0 Example.m0 (mkGlobal [] []) Hs)
    as [Hfresh _].
  destruct (Hfresh (fun m0 H => H)) as (H1 & H2 & _).
  split; [ exact H1 | exact H2 ].
Defined.

(** X20.  A lookup does not change [addressToModuleMap], and what it returns
    is never a function that does not hold the address: the function is an
    entry, under a key above the address, of a module that is an entry,
    under a key above the address, of the index, and the address is at or
    after the function's base and before its end as computed in [Uptr]. *)
Theorem X20_lookup_sound (P : Platform) (address : Z) (g : Global) :
  addressToModuleMap (fst (getJITFunctionByAddress P address g))
  = addressToModuleMap g
  /\ forall f,
      snd (getJITFunctionByAddress P address g) = Some f ->
      exists e m k,
        In (e, m) (addressToModuleMap g) /\ address < e
        /\ In (k, f) (addressToFunctionMap m) /\ address < k
        /\ JITFunction.baseAddress f <= address < functionEnd P f.
Proof.
  split.
  - unfold getJITFunctionByAddress. cbn [addressToModuleMap].
    destruct (upper_bound address (addressToModuleMap g)) as [[e m] | ];
      [ | reflexivity ].
    destruct (upper_bound address (addressToFunctionMap m)) as [[k f] | ];
      [ | reflexivity ].
    match goal with |- context [if ?c then _ else _] => destruct c end;
      reflexivity.
  - intros f Hfound. rewrite getJITFunctionByAddress_result in Hfound.
    destruct (upper_bound address (addressToModuleMap g)) as [[e m] | ] eqn:Em;
      [ | discriminate ].
    destruct (upper_bound address (addressToFunctionMap m)) as [[k f'] | ] eqn:Ef;
      [ | discriminate ].
    destruct (upper_bound_In _ _ _ Em) as [Hin He].
    destruct (upper_bound_In _ _ _ Ef) as [Hinf Hk].
    cbn [fst] in He, Hk.
    match type of Hfound with
    | (if ?c then _ else _) = _ => destruct c eqn:Etest
    end; [ | discriminate ].
    injection Hfound as ->.
    apply andb_prop in Etest. destruct Etest as [E1 E2].
    apply Z.geb_le in E1. apply Z.ltb_lt in E2.
    exists e, m, k. unfold functionEnd. repeat split; try assumption; lia.
Qed.

End IndexFacts.

(** * The command-line helpers *)

Section CLIFacts.
Import CLI.

Lemma string_length_app (a b : string) :
  String.length (a ++ b)%string = (String.length a + String.length b)%nat.
Proof. induction a as [ | c a IH ]; simpl; [ | rewrite IH ]; reflexivity. Qed.

Lemma string_app_assoc (a b c : string) :
  ((a ++ b) ++ c)%string = (a ++ (b ++ c))%string.
Proof. induction a as [ | x a IH ]; simpl; [ | rewrite IH ]; reflexivity. Qed.

Lemma string_app_nil_r (a : string) : (a ++ EmptyString)%string = a.
Proof. induction a as [ | x a IH ]; simpl; [ | rewrite IH ]; reflexivity. Qed.

Lemma offset_app (pre x : string) :
  offset (pre ++ x)%string (String.length pre) = x.
Proof.
  induction pre as [ | c pre IH ]; simpl; [ destruct x; reflexivity | exact IH ].
Qed.

Lemma offset_split (s : string) (n : nat) :
  (n <= String.length s)%nat ->
  exists pre, s = (pre ++ offset s n)%string /\ String.length pre = n.
Proof.
  revert s. induction n as [ | n IH ]; intros s Hn.
  - exists EmptyString. split; [ destruct s; reflexivity | reflexivity ].
  - destruct s as [ | c s ]; [ simpl in Hn; lia | ].
    simpl in Hn. destruct (IH s ltac:(lia)) as (pre & Hs & Hlen).
    exists (String c pre). simpl. split; [ rewrite <- Hs; reflexivity | lia ].
Qed.

Lemma strncmp_Eq (a b : string) :
  String.length a = String.length b ->
  (strncmp a b (String.length b) = Eq <-> a = b).
Proof.
  revert b. induction a as [ | c1 a IH ]; intros [ | c2 b ] Hlen;
    try discriminate.
  - simpl. split; reflexivity.
  - simpl in Hlen. cbn [String.length strncmp].
    destruct (Ascii.eqb_spec c1 c2) as [-> | Hne].
    + rewrite (IH b ltac:(lia)). split; [ intros ->; reflexivity | ].
      intros H. injection H as ->. reflexivity.
    + split.
      * intros H. apply Nat.compare_eq in H.
        exfalso. apply Hne.
        rewrite <- (ascii_nat_embedding c1), <- (ascii_nat_embedding c2), H.
        reflexivity.
      * intros H. injection H as -> _. contradiction.
Qed.

(** X21.  [endsWith] answers true exactly when both arguments are strings
    (not null) and the first is some string followed by the second. *)
Theorem X21_endsWith (str suffix : option string) :
  endsWith str suffix = true
  <-> exists s x pre, str = Some s /\ suffix = Some x /\ s = (pre ++ x)%string.
Proof.
  split.
  - destruct str as [ s | ], suffix as [ x | ]; cbn [endsWith]; try discriminate.
    unfold strlen.
    destruct (Nat.ltb_spec (String.length s) (String.length x)) as [ | Hle ];
      [ discriminate | ].
    destruct (offset_split s (String.length s - String.length x) ltac:(lia))
      as (pre & Hs & Hlen).
    assert (Hl : String.length (offset s (String.length s - String.length x))
                 = String.length x).
    { pose proof (f_equal String.length Hs) as H.
      rewrite string_length_app in H. lia. }
    destruct (strncmp (offset s (String.length s - String.length x)) x
                      (String.length x)) eqn:E; try discriminate.
    intros _. apply (strncmp_Eq _ _ Hl) in E.
    exists s, x, pre. rewrite <- E. repeat split. exact Hs.
  - intros (s & x & pre & -> & -> & ->). cbn [endsWith]. unfold strlen.
    rewrite string_length_app.
    destruct (Nat.ltb_spec (String.length pre + String.length x)
                           (String.length x)); [ lia | ].
    replace (String.length pre + String.length x - String.length x)%nat
      with (String.length pre) by lia.
    rewrite offset_app.
    rewrite (proj2 (strncmp_Eq x x eq_refl) eq_refl). reflexivity.
Qed.

Lemma newlineOffsets_app (c : nat) (a b : string) :
  newlineOffsets c (a ++ b)%string
  = newlineOffsets c a ++ newlineOffsets (c + String.length a) b.
Proof.
  revert c. induction a as [ | x a IH ]; intros c.
  - simpl. rewrite Nat.add_0_r. reflexivity.
  - cbn [append newlineOffsets String.length]. rewrite IH.
    replace (S c + String.length a)%nat with (c + S (String.length a))%nat by lia.
    destruct (Ascii.eqb x "010"); reflexivity.
Qed.

Lemma newlineOffsets_length (c : nat) (s : string) :
  length (newlineOffsets c s) = countNewlines s.
Proof.
  revert c. induction s as [ | x s IH ]; intros c; [ reflexivity | ].
  cbn [newlineOffsets countNewlines].
  destruct (Ascii.eqb x "010"); cbn [length]; rewrite IH; reflexivity.
Qed.

Lemma newlineOffsets_bound (c : nat) (s : string) (o : nat) :
  In o (newlineOffsets c s) -> (c < o <= c + String.length s)%nat.
Proof.
  revert c. induction s as [ | x s IH ]; intros c; [ intros [] | ].
  cbn [newlineOffsets String.length].
  destruct (Ascii.eqb x "010").
  - intros [<- | H]; [ lia | ]. specialize (IH _ H). lia.
  - intros H. specialize (IH _ H). lia.
Qed.

Lemma countNewlines_app (a b : string) :
  countNewlines (a ++ b)%string = (countNewlines a + countNewlines b)%nat.
Proof.
  induction a as [ | x a IH ]; [ reflexivity | ].
  cbn [append countNewlines]. rewrite IH. lia.
Qed.

(** The offset of the line that starts after [pre]. *)
Lemma startLine_offset (pre : string) (tail : list nat) :
  lineStart pre ->
  nth_error (0%nat :: newlineOffsets 0 pre ++ tail) (countNewlines pre)
  = Some (String.length pre).
Proof.
  intros [-> | [p ->]]; [ reflexivity | ].
  rewrite newlineOffsets_app, countNewlines_app, string_length_app.
  change (newlineOffsets (0 + String.length p) (String "010" EmptyString))
    with [(0 + String.length p + 1)%nat].
  change (countNewlines (String "010" EmptyString)) with 1%nat.
  change (String.length (String "010" EmptyString)) with 1%nat.
  rewrite (Nat.add_1_r (countNewlines p)). cbn [nth_error].
  rewrite <- app_assoc.
  rewrite nth_error_app2 by (rewrite newlineOffsets_length; lia).
  rewrite newlineOffsets_length, Nat.sub_diag. cbn [app nth_error].
  reflexivity.
Qed.

Lemma substring_middle (pre line post : string) :
  String.substring (String.length pre) (String.length line)
                   (pre ++ line ++ post)%string
  = line.
Proof.
  induction pre as [ | c pre IH ]; [ | exact IH ].
  cbn [append String.length].
  induction line as [ | c line IH ].
  - destruct post; reflexivity.
  - cbn [append String.length String.substring]. rewrite IH. reflexivity.
Qed.

(** X22.  The source line printed for a parse error: when the text is
    [pre ++ line ++ post], where [line] has no newline, starts a line (after
    nothing or a newline) and ends one (before a newline or nothing), the
    line computed for the number of newlines in [pre] is [line], without its
    newline. *)
Theorem X22_errorLine (pre line post : string) :
  lineStart pre ->
  countNewlines line = 0%nat ->
  lineEnd post ->
  errorLine (pre ++ line ++ post)%string (countNewlines pre) = Some line.
Proof.
  intros Hpre Hline Hpost. unfold errorLine, wastFileLineOffsets.
  rewrite newlineOffsets_app.
  rewrite <- app_assoc.
  rewrite (startLine_offset pre _ Hpre).
  (* the end of the line *)
  rewrite (Nat.add_1_r (countNewlines pre)). cbn [nth_error].
  rewrite nth_error_app2 by (rewrite newlineOffsets_length; lia).
  rewrite newlineOffsets_length, Nat.sub_diag.
  rewrite newlineOffsets_app.
  assert (Hnone : forall c, newlineOffsets c line = []).
  { intros c. pose proof (newlineOffsets_length c line) as H.
    rewrite Hline in H. destruct (newlineOffsets c line); [ reflexivity | discriminate ]. }
  rewrite Hnone. cbn [app].
  rewrite !string_length_app.
  assert (Hend : nth_error
                   (newlineOffsets (0 + String.length pre + String.length line) post
                    ++ [(String.length pre
                         + (String.length line + String.length post) + 1)%nat]) 0
                 = Some (String.length pre + String.length line + 1)%nat).
  { destruct Hpost as [-> | [q ->]].
    - cbn [newlineOffsets app nth_error String.length]. f_equal. lia.
    - cbn [newlineOffsets app nth_error Ascii.eqb Bool.eqb]. f_equal. }
  rewrite Hend.
  unfold substr. rewrite !string_length_app.
  destruct (Nat.ltb_spec (String.length pre
                          + (String.length line + String.length post))
                         (String.length pre)); [ lia | ].
  replace (Nat.min (String.length pre + String.length line + 1
                    - String.length pre - 1)
                   (String.length pre
                    + (String.length line + String.length post)
                    - String.length pre))
    with (String.length line) by lia.
  rewrite substring_middle. reflexivity.
Qed.

Lemma X22_errorLine_witness :
  let nl := String "010"%char EmptyString in
  let pre := ("(module" ++ nl)%string in
  let post := (nl ++ ")")%string in
  lineStart pre
  /\ countNewlines "  (func $f" = 0%nat
  /\ lineEnd post
  /\ errorLine (pre ++ "  (func $f" ++ post)%string 1 = Some "  (func $f".
Proof.
  intros nl pre post.
  assert (H1 : lineStart pre) by (right; exists "(module"; reflexivity).
  assert (H2 : countNewlines "  (func $f" = 0%nat) by reflexivity.
  assert (H3 : lineEnd post) by (right; exists ")"; reflexivity).
  split; [ exact H1 | ]. split; [ exact H2 | ]. split; [ exact H3 | ].
  exact (X22_errorLine pre "  (func $f" post H1 H2 H3).
Defined.

(** X23.  The line lookup throws [std::out_of_range] exactly when the error
    is said to lie after more newlines than the text has. *)
Theorem X23_errorLine_out_of_range (wastString : string) (newlines : nat) :
  errorLine wastString newlines = None
  <-> (countNewlines wastString < newlines)%nat.
Proof.
  unfold errorLine, wastFileLineOffsets.
  set (offsets := newlineOffsets 0 wastString).
  assert (Hlen : length offsets = countNewlines wastString)
    by apply newlineOffsets_length.
  destruct (Nat.le_gt_cases newlines (countNewlines wastString)) as [Hin | Hout].
  - split; [ | lia ]. intros Hnone. exfalso.
    assert (Hstart : exists a, nth_error (0%nat :: offsets
                                            ++ [(String.length wastString + 1)%nat])
                                         newlines = Some a
                               /\ (a <= String.length wastString)%nat).
    { destruct newlines as [ | k ].
      - exists 0%nat. split; [ reflexivity | lia ].
      - cbn [nth_error]. rewrite nth_error_app1 by lia.
        destruct (nth_error offsets k) as [ a | ] eqn:E.
        + exists a. split; [ reflexivity | ].
          apply nth_error_In in E.
          apply newlineOffsets_bound in E. lia.
        + apply nth_error_None in E. lia. }
    destruct Hstart as (a & Ha & Hbound).
    rewrite Ha in Hnone.
    destruct (nth_error (0%nat :: offsets ++ [(String.length wastString + 1)%nat])
                        (newlines + 1)) as [ b | ] eqn:Eb.
    + unfold substr in Hnone.
      destruct (Nat.ltb_spec (String.length wastString) a); [ lia | discriminate ].
    + apply nth_error_None in Eb. cbn [length] in Eb.
      rewrite length_app in Eb. cbn [length] in Eb. lia.
  - split; [ intros _; exact Hout | ]. intros _.
    assert (Hb : nth_error (0%nat :: offsets
                              ++ [(String.length wastString + 1)%nat])
                           (newlines + 1) = None).
    { apply nth_error_None. cbn [length]. rewrite length_app. cbn [length]. lia. }
    rewrite Hb.
    destruct (nth_error (0%nat :: offsets ++ [(String.length wastString + 1)%nat])
                        newlines); reflexivity.
Qed.

End CLIFacts.

